(** * Search core of the Laser UCI chess engine (search.cpp, timeman.h)

    A shallow embedding of the search routines of [search.cpp]:
    the move picker [nextMove], [scoreMate], the transposition-table probe
    [probeTT], the principal-variation search [PVS], the quiescence search
    ([quiescence], [checkQuiescence]) and the iterative-deepening driver
    ([getBestMoveAtDepth], [getBestMove]).

    Conventions of the embedding.
    - C++ [int] values are integers of [Z].  Signed overflow is undefined
      behaviour in C++, so the arithmetic is the mathematical one; [/] on
      [int] is [Z.quot] (truncation towards zero).
    - [uint64_t] statistics counters wrap around modulo [2^64].
    - The process-wide globals ([searchParams], [searchStats],
      [transpositionTable], [isStop]) and the two output streams form the
      record [World], which every routine threads explicitly.  The front
      end writes [isStop] too; a stop it requested is a world in which the
      flag is set.
    - [Board], [Hash], the move encoding and the engine constants live in
      headers that are not part of the two files at hand; they are the
      fields of the class [Externals].
    - The wall clock is an oracle: the [n]-th reading of
      [getTimeElapsed(searchParams.startTime)] is [getTimeElapsed n]
      (seconds, as a rational number).
    - Recursion that the source leaves to the call stack is driven by a
      fuel argument; running out of fuel is [None]. *)

From Stdlib Require Import ZArith List Bool Lia QArith Permutation Sorted.
From Stdlib Require String Ascii.
Import ListNotations.
Open Scope Z_scope.

(** ** timeman.h *)

Definition TIME : Z := 1.
Definition DEPTH : Z := 2.
Definition MOVETIME : Z := 4.
Definition TIME_FACTOR : Q := 85 # 100.
Definition MAX_TIME_FACTOR : Q := 4 # 1.

(** ** Containers

    [MoveList] and [ScoreList] are array lists; an index is an
    [unsigned int].  Reads outside the list are undefined in the source;
    here they yield the default element and writes outside are dropped. *)

Definition Move := Z.
Definition MoveList := list Move.
Definition ScoreList := list Z.

Fixpoint set_nth {A} (i : nat) (x : A) (l : list A) : list A :=
  match l, i with
  | [], _ => []
  | _ :: t, O => x :: t
  | h :: t, S i' => h :: set_nth i' x t
  end.

Definition swap {A} (i j : nat) (l : list A) : list A :=
  match nth_error l i, nth_error l j with
  | Some a, Some b => set_nth i b (set_nth j a l)
  | _, _ => l
  end.

(** ** Search state *)

Record SearchParameters := mkParams {
  ply : Z;
  nullMoveCount : Z;
  timeLimit : Z;
  killers : list (Move * Move);
  historyTable : list (list (list Z));
  rootMoveNumber : Z
}.

Record SearchStatistics := mkStats {
  nodes : Z;
  hashProbes : Z; hashHits : Z; hashScoreCuts : Z;
  hashMoveAttempts : Z; hashMoveCuts : Z;
  failHighs : Z; firstFailHighs : Z;
  qsNodes : Z;
  qsFailHighs : Z; qsFirstFailHighs : Z
}.

(** [x++] on a [uint64_t]. *)
Definition incr64 (x : Z) : Z := (x + 1) mod 2 ^ 64.

Definition SearchStatistics_reset : SearchStatistics :=
  mkStats 0 0 0 0 0 0 0 0 0 0 0.

(** [SearchPV]: the first [pvLength] cells of [pv]. *)
Definition SearchPV := list Move.

Inductive NodeType := PV_NODE | CUT_NODE | ALL_NODE.

Definition NodeType_eqb (a b : NodeType) : bool :=
  match a, b with
  | PV_NODE, PV_NODE | CUT_NODE, CUT_NODE | ALL_NODE, ALL_NODE => true
  | _, _ => false
  end.

Record HashEntry := mkEntry {
  entry_score : Z;
  entry_depth : Z;
  entry_m : Move;
  entry_nodeType : NodeType
}.

(** Lines written to [cout] and [cerr]. *)
Inductive Output :=
| InfoLine (depth score : Z) (elapsed : Q) (nodeCount : Z) (pv : String.string)
| BestMoveLine (m : String.string)
| Type1Error (m : String.string)
| Statistics (s : SearchStatistics).

(** ** What the search takes from the rest of the engine *)

Class Externals := {
  Board : Type;
  Hash : Type;
  (* constants *)
  NULL_MOVE : Move;
  WHITE : Z;
  MATE_SCORE : Z;
  INFTY : Z;
  MAX_DEPTH : Z;
  MAX_POS_SCORE : Z;
  PAWN_VALUE : Z;
  KNIGHT_VALUE : Z;
  QUEEN_VALUE : Z;
  PAWN_VALUE_EG : Z;
  PAWNS : Z; KNIGHTS : Z; ROOKS : Z; QUEENS : Z;
  ONE_SECOND : Z;
  MAX_TIME : Z;
  (* moves *)
  isCapture : Move -> bool;
  isPromotion : Move -> bool;
  getPromotion : Move -> Z;
  getStartSq : Move -> Z;
  getEndSq : Move -> Z;
  moveToString : Move -> String.string;
  (* Board *)
  getPlayerToMove : Board -> Z;
  getMoveNumber : Board -> Z;
  isDraw : Board -> bool;
  isInCheck : Board -> Z -> bool;
  evaluate : Board -> Z;
  evaluateMaterial : Board -> Z;
  evaluatePositional : Board -> Z;
  getNonPawnMaterial : Board -> Z -> bool;
  getAllLegalMoves : Board -> Z -> MoveList;
  getAllPseudoLegalMoves : Board -> Z -> MoveList;
  getPseudoLegalCheckEscapes : Board -> Z -> MoveList;
  getPseudoLegalCaptures : Board -> Z -> bool -> MoveList;
  getPseudoLegalPromotions : Board -> Z -> MoveList;
  getPseudoLegalChecks : Board -> Z -> MoveList;
  getSEE : Board -> Z -> Z -> Z;
  getMVVLVAScore : Board -> Z -> Move -> Z;
  getExchangeScore : Board -> Z -> Move -> Z;
  valueOfPiece : Board -> Z -> Z;
  getPieceOnSquare : Board -> Z -> Z -> Z;
  isCheckMove : Board -> Move -> Z -> bool;
  (* [None] when the call returns false *)
  doPseudoLegalMove : Board -> Move -> Z -> option Board;
  doHashMove : Board -> Move -> Z -> option Board;
  doMove : Board -> Move -> Z -> Board;
  doNullMove : Board -> Board;
  (* Hash *)
  tt_get : Hash -> Board -> option HashEntry;
  tt_add : Hash -> Board -> Z -> Move -> Z -> NodeType -> Z -> Hash;
  (* clock *)
  getTimeElapsed : nat -> Q
}.

(** How a statement ends: it leaves the enclosing routine with a value,
    or control goes on to the next statement. *)
Inductive Flow (R A : Type) :=
| Return (r : R)
| Next (a : A).
Arguments Return {R A} r.
Arguments Next {R A} a.

Section Search.
Context {E : Externals}.

Record World := mkWorld {
  searchParams : SearchParameters;
  searchStats : SearchStatistics;
  transpositionTable : Hash;
  isStop : bool;
  clockReads : nat;
  output : list Output
}.

(** *** Field updates *)

Definition with_params (f : SearchParameters -> SearchParameters) (w : World) : World :=
  mkWorld (f (searchParams w)) (searchStats w) (transpositionTable w)
          (isStop w) (clockReads w) (output w).

Definition with_stats (f : SearchStatistics -> SearchStatistics) (w : World) : World :=
  mkWorld (searchParams w) (f (searchStats w)) (transpositionTable w)
          (isStop w) (clockReads w) (output w).

Definition with_table (f : Hash -> Hash) (w : World) : World :=
  mkWorld (searchParams w) (searchStats w) (f (transpositionTable w))
          (isStop w) (clockReads w) (output w).

Definition set_isStop (v : bool) (w : World) : World :=
  mkWorld (searchParams w) (searchStats w) (transpositionTable w)
          v (clockReads w) (output w).

Definition tick (w : World) : World :=
  mkWorld (searchParams w) (searchStats w) (transpositionTable w)
          (isStop w) (S (clockReads w)) (output w).

Definition emit (o : Output) (w : World) : World :=
  mkWorld (searchParams w) (searchStats w) (transpositionTable w)
          (isStop w) (clockReads w) (output w ++ [o]).

Definition set_ply (v : Z) (p : SearchParameters) : SearchParameters :=
  mkParams v (nullMoveCount p) (timeLimit p) (killers p) (historyTable p) (rootMoveNumber p).
Definition set_nullMoveCount (v : Z) (p : SearchParameters) : SearchParameters :=
  mkParams (ply p) v (timeLimit p) (killers p) (historyTable p) (rootMoveNumber p).
Definition set_timeLimit (v : Z) (p : SearchParameters) : SearchParameters :=
  mkParams (ply p) (nullMoveCount p) v (killers p) (historyTable p) (rootMoveNumber p).
Definition set_killers (v : list (Move * Move)) (p : SearchParameters) : SearchParameters :=
  mkParams (ply p) (nullMoveCount p) (timeLimit p) v (historyTable p) (rootMoveNumber p).
Definition set_historyTable (v : list (list (list Z))) (p : SearchParameters) : SearchParameters :=
  mkParams (ply p) (nullMoveCount p) (timeLimit p) (killers p) v (rootMoveNumber p).
Definition set_rootMoveNumber (v : Z) (p : SearchParameters) : SearchParameters :=
  mkParams (ply p) (nullMoveCount p) (timeLimit p) (killers p) (historyTable p) v.

Definition inc_nodes (s : SearchStatistics) : SearchStatistics :=
  mkStats (incr64 (nodes s)) (hashProbes s) (hashHits s) (hashScoreCuts s)
          (hashMoveAttempts s) (hashMoveCuts s) (failHighs s) (firstFailHighs s)
          (qsNodes s) (qsFailHighs s) (qsFirstFailHighs s).
Definition inc_hashProbes (s : SearchStatistics) : SearchStatistics :=
  mkStats (nodes s) (incr64 (hashProbes s)) (hashHits s) (hashScoreCuts s)
          (hashMoveAttempts s) (hashMoveCuts s) (failHighs s) (firstFailHighs s)
          (qsNodes s) (qsFailHighs s) (qsFirstFailHighs s).
Definition inc_hashHits (s : SearchStatistics) : SearchStatistics :=
  mkStats (nodes s) (hashProbes s) (incr64 (hashHits s)) (hashScoreCuts s)
          (hashMoveAttempts s) (hashMoveCuts s) (failHighs s) (firstFailHighs s)
          (qsNodes s) (qsFailHighs s) (qsFirstFailHighs s).
Definition inc_hashScoreCuts (s : SearchStatistics) : SearchStatistics :=
  mkStats (nodes s) (hashProbes s) (hashHits s) (incr64 (hashScoreCuts s))
          (hashMoveAttempts s) (hashMoveCuts s) (failHighs s) (firstFailHighs s)
          (qsNodes s) (qsFailHighs s) (qsFirstFailHighs s).
Definition inc_hashMoveAttempts (s : SearchStatistics) : SearchStatistics :=
  mkStats (nodes s) (hashProbes s) (hashHits s) (hashScoreCuts s)
          (incr64 (hashMoveAttempts s)) (hashMoveCuts s) (failHighs s) (firstFailHighs s)
          (qsNodes s) (qsFailHighs s) (qsFirstFailHighs s).
Definition inc_hashMoveCuts (s : SearchStatistics) : SearchStatistics :=
  mkStats (nodes s) (hashProbes s) (hashHits s) (hashScoreCuts s)
          (hashMoveAttempts s) (incr64 (hashMoveCuts s)) (failHighs s) (firstFailHighs s)
          (qsNodes s) (qsFailHighs s) (qsFirstFailHighs s).
Definition inc_failHighs (s : SearchStatistics) : SearchStatistics :=
  mkStats (nodes s) (hashProbes s) (hashHits s) (hashScoreCuts s)
          (hashMoveAttempts s) (hashMoveCuts s) (incr64 (failHighs s)) (firstFailHighs s)
          (qsNodes s) (qsFailHighs s) (qsFirstFailHighs s).
Definition inc_firstFailHighs (s : SearchStatistics) : SearchStatistics :=
  mkStats (nodes s) (hashProbes s) (hashHits s) (hashScoreCuts s)
          (hashMoveAttempts s) (hashMoveCuts s) (failHighs s) (incr64 (firstFailHighs s))
          (qsNodes s) (qsFailHighs s) (qsFirstFailHighs s).
Definition inc_qsNodes (s : SearchStatistics) : SearchStatistics :=
  mkStats (nodes s) (hashProbes s) (hashHits s) (hashScoreCuts s)
          (hashMoveAttempts s) (hashMoveCuts s) (failHighs s) (firstFailHighs s)
          (incr64 (qsNodes s)) (qsFailHighs s) (qsFirstFailHighs s).
Definition inc_qsFailHighs (s : SearchStatistics) : SearchStatistics :=
  mkStats (nodes s) (hashProbes s) (hashHits s) (hashScoreCuts s)
          (hashMoveAttempts s) (hashMoveCuts s) (failHighs s) (firstFailHighs s)
          (qsNodes s) (incr64 (qsFailHighs s)) (qsFirstFailHighs s).
Definition inc_qsFirstFailHighs (s : SearchStatistics) : SearchStatistics :=
  mkStats (nodes s) (hashProbes s) (hashHits s) (hashScoreCuts s)
          (hashMoveAttempts s) (hashMoveCuts s) (failHighs s) (firstFailHighs s)
          (qsNodes s) (qsFailHighs s) (incr64 (qsFirstFailHighs s)).

(** *** SearchParameters::reset and resetHistoryTable *)

Definition zeroHistory : list (list (list Z)) :=
  repeat (repeat (repeat 0 64) 6) 2.

Definition SearchParameters_resetHistoryTable (p : SearchParameters) : SearchParameters :=
  set_historyTable zeroHistory p.

Definition SearchParameters_reset (p : SearchParameters) : SearchParameters :=
  SearchParameters_resetHistoryTable
    (set_killers (repeat (NULL_MOVE, NULL_MOVE) (Z.to_nat MAX_DEPTH))
       (set_nullMoveCount 0 (set_ply 0 p))).

(** [searchParams.killers[p][s]] and [searchParams.historyTable[c][pc][sq]]. *)
Definition killer (p : SearchParameters) (s : nat) : Move :=
  let k := nth (Z.to_nat (ply p)) (killers p) (NULL_MOVE, NULL_MOVE) in
  match s with O => fst k | _ => snd k end.

Definition history (p : SearchParameters) (c pc sq : Z) : Z :=
  nth (Z.to_nat sq) (nth (Z.to_nat pc) (nth (Z.to_nat c) (historyTable p) []) []) 0.

Definition add_history (c pc sq d : Z) (p : SearchParameters) : SearchParameters :=
  let t := historyTable p in
  let tc := nth (Z.to_nat c) t [] in
  let tp := nth (Z.to_nat pc) tc [] in
  let v := nth (Z.to_nat sq) tp 0 in
  set_historyTable
    (set_nth (Z.to_nat c)
       (set_nth (Z.to_nat pc) (set_nth (Z.to_nat sq) (v + d) tp) tc) t) p.

(** *** nextMove *)

(** The scan [for (i = index + 1; i < moves.size(); i++)]; [n] counts the
    iterations that remain. *)
Fixpoint scanBest (scores : ScoreList) (i n : nat) (bestIndex : nat) (bestScore : Z) : nat :=
  match n with
  | O => bestIndex
  | S n' =>
      if nth i scores 0 >? bestScore
      then scanBest scores (S i) n' i (nth i scores 0)
      else scanBest scores (S i) n' bestIndex bestScore
  end.

Definition nextMove (moves : MoveList) (scores : ScoreList) (index : nat)
  : Move * MoveList * ScoreList :=
  if (length moves <=? index)%nat then (NULL_MOVE, moves, scores)
  else
    let bestIndex :=
      scanBest scores (S index) (length moves - S index) index (nth index scores 0) in
    let moves' := swap bestIndex index moves in
    let scores' := swap bestIndex index scores in
    (nth index moves' NULL_MOVE, moves', scores').

(** [n] successive calls [nextMove(moves, scores, index)],
    [nextMove(moves, scores, index + 1)], ... on the same two lists, the way
    the move loops make them: the moves returned, in order, and the lists
    as the last call leaves them. *)
Fixpoint nextMoves (n index : nat) (moves : MoveList) (scores : ScoreList)
  : list Move * MoveList * ScoreList :=
  match n with
  | O => ([], moves, scores)
  | S n' =>
      let '(m, moves', scores') := nextMove moves scores index in
      let '(ms, moves'', scores'') := nextMoves n' (S index) moves' scores' in
      (m :: ms, moves'', scores'')
  end.

(** *** changePV *)

Definition changePV (best : Move) (child : SearchPV) : SearchPV := best :: child.

(** *** Control flow of a routine body

    A computation [M R A] runs on a [World]; it runs out of fuel ([None]),
    leaves the enclosing routine with [Return r], or goes on with a value. *)

Definition M (R A : Type) := World -> option (Flow R A * World).

Definition ret {R A} (a : A) : M R A := fun w => Some (Next a, w).
Definition leave {R A} (r : R) : M R A := fun w => Some (Return r, w).
Definition bind {R A B} (m : M R A) (f : A -> M R B) : M R B :=
  fun w =>
    match m w with
    | None => None
    | Some (Return r, w') => Some (Return r, w')
    | Some (Next a, w') => f a w'
    end.
Definition update {R} (f : World -> World) : M R unit :=
  fun w => Some (Next tt, f w).
Definition world {R} : M R World := fun w => Some (Next w, w).

(** A routine, seen from its caller. *)
Definition Fn (A : Type) := World -> option (A * World).

Definition call {R A} (f : Fn A) : M R A :=
  fun w => match f w with None => None | Some (a, w') => Some (Next a, w') end.

Definition routine {R} (m : M R R) : Fn R :=
  fun w =>
    match m w with
    | None => None
    | Some (Return r, w') => Some (r, w')
    | Some (Next r, w') => Some (r, w')
    end.

Notation "x <~ m ;; k" := (bind m (fun x => k))
  (at level 61, m at next level, right associativity).
Notation "' pat <~ m ;; k" := (bind m (fun x => match x with pat => k end))
  (at level 61, pat pattern, m at next level, right associativity).
Notation "m ;;; k" := (bind m (fun _ => k))
  (at level 61, right associativity).

(** *** scoreMate *)

Definition scoreMate (isInCheck : bool) (depth alpha beta : Z) (w : World) : Z :=
  let score := if isInCheck then - MATE_SCORE + ply (searchParams w) else 0 in
  if score >=? beta then beta
  else if score >? alpha then score else alpha.

(** *** quiescence and checkQuiescence *)

(** [quiescence] and [checkQuiescence] as their callers see them:
    board, colour, plies, alpha, beta. *)
Definition QFn := Board -> Z -> Z -> Z -> Z -> Fn Z.

(** A move that passed the pruning and legality tests of a quiescence loop
    (lines 703-715, 730-742, 756-769 and 799-811): the counters, the
    recursive call on the copy, the beta cutoff and the new [alpha].
    Yields the score, [alpha] and [j]. *)
Definition qsSearched (search : QFn) (copy : Board) (color plies beta alpha : Z) (j : nat)
  : M Z (Z * Z * nat) :=
  update (with_stats inc_nodes) ;;;
  update (with_stats inc_qsNodes) ;;;
  r <~ call (search copy (Z.lxor color 1) (plies + 1) (- beta) (- alpha)) ;;
  let score := - r in
  if score >=? beta then
    update (with_stats inc_qsFailHighs) ;;;
    (if Nat.eqb j 0 then update (with_stats inc_qsFirstFailHighs) else ret tt) ;;;
    leave beta
  else ret (score, (if score >? alpha then score else alpha), S j).

(** The loop over [legalMoves] of [checkQuiescence]; yields [score] and
    [alpha]. *)
Fixpoint escapesLoop (rec : QFn) (b : Board) (color plies beta : Z)
    (ms : MoveList) (score alpha : Z) (j : nat) : M Z (Z * Z) :=
  match ms with
  | [] => ret (score, alpha)
  | m :: ms' =>
      match doPseudoLegalMove b m color with
      | None => escapesLoop rec b color plies beta ms' score alpha j
      | Some copy =>
          '(score', alpha', j') <~ qsSearched rec copy color plies beta alpha j ;;
          escapesLoop rec b color plies beta ms' score' alpha' j'
      end
  end.

Definition checkQuiescence_body (rec : QFn) (b : Board) (color plies alpha beta : Z) : M Z Z :=
  '(score, alpha) <~ escapesLoop rec b color plies beta
                       (getPseudoLegalCheckEscapes b color) (- INFTY) alpha 0 ;;
  if score =? - INFTY then
    w <~ world ;;
    let score := - MATE_SCORE + ply (searchParams w) + plies in
    if score >=? beta then leave beta
    else ret (if score >? alpha then score else alpha)
  else ret alpha.

(** The loop over [legalCaptures], driven by [nextMove]; [n] bounds the
    iterations by the length of the list, at which point [nextMove] has
    returned the null move. *)
Fixpoint capturesLoop (rec : QFn) (b : Board) (color plies beta standPat : Z)
    (n i : nat) (moves : MoveList) (scores : ScoreList) (alpha : Z) (j : nat)
  : M Z (Z * nat) :=
  let '(m, moves', scores') := nextMove moves scores i in
  if m =? NULL_MOVE then ret (alpha, j)
  else
    match n with
    | O => ret (alpha, j)
    | S n' =>
        if standPat + valueOfPiece b (getPieceOnSquare b (Z.lxor color 1) (getEndSq m))
           <? alpha - MAX_POS_SCORE
        then capturesLoop rec b color plies beta standPat n' (S i) moves' scores' alpha j
        else if (getExchangeScore b color m <? 0)
                && (getSEE b color (getEndSq m) <? - MAX_POS_SCORE)
        then capturesLoop rec b color plies beta standPat n' (S i) moves' scores' alpha j
        else
          match doPseudoLegalMove b m color with
          | None => capturesLoop rec b color plies beta standPat n' (S i) moves' scores' alpha j
          | Some copy =>
              '(_, alpha', j') <~ qsSearched rec copy color plies beta alpha j ;;
              capturesLoop rec b color plies beta standPat n' (S i) moves' scores' alpha' j'
          end
    end.

Fixpoint promotionsLoop (rec : QFn) (b : Board) (color plies beta : Z)
    (ms : MoveList) (alpha : Z) (j : nat) : M Z (Z * nat) :=
  match ms with
  | [] => ret (alpha, j)
  | m :: ms' =>
      if getSEE b color (getEndSq m) <? 0
      then promotionsLoop rec b color plies beta ms' alpha j
      else
        match doPseudoLegalMove b m color with
        | None => promotionsLoop rec b color plies beta ms' alpha j
        | Some copy =>
            '(_, alpha', j') <~ qsSearched rec copy color plies beta alpha j ;;
            promotionsLoop rec b color plies beta ms' alpha' j'
        end
  end.

(** The loop over the pseudo-legal checks; [check] is [checkQuiescence]. *)
Fixpoint checksLoop (check : QFn) (b : Board) (color plies beta : Z)
    (ms : MoveList) (alpha : Z) (j : nat) : M Z (Z * nat) :=
  match ms with
  | [] => ret (alpha, j)
  | m :: ms' =>
      match doPseudoLegalMove b m color with
      | None => checksLoop check b color plies beta ms' alpha j
      | Some copy =>
          '(_, alpha', j') <~ qsSearched check copy color plies beta alpha j ;;
          checksLoop check b color plies beta ms' alpha' j'
      end
  end.

Definition quiescence_body (rec : QFn) (b : Board) (color plies alpha beta : Z) : M Z Z :=
  let check : QFn := fun b c p a bt => routine (checkQuiescence_body rec b c p a bt) in
  if isInCheck b color then
    r <~ call (check b color plies alpha beta) ;; leave r
  else
    let standPat := if color =? WHITE then evaluateMaterial b else - evaluateMaterial b in
    if standPat >=? beta + MAX_POS_SCORE then leave beta
    else if standPat <? alpha - 2 * MAX_POS_SCORE - QUEEN_VALUE then leave alpha
    else
      let standPat :=
        standPat + (if color =? WHITE then evaluatePositional b else - evaluatePositional b) in
      let alpha := if alpha <? standPat then standPat else alpha in
      if standPat >=? beta then leave beta
      else if standPat <? alpha - MAX_POS_SCORE - QUEEN_VALUE then leave alpha
      else
        let legalCaptures := getPseudoLegalCaptures b color false in
        let scores := map (getMVVLVAScore b color) legalCaptures in
        '(alpha, j) <~ capturesLoop rec b color plies beta standPat
                         (length legalCaptures) 0 legalCaptures scores alpha 0 ;;
        '(alpha, j) <~ promotionsLoop rec b color plies beta
                         (getPseudoLegalPromotions b color) alpha j ;;
        '(alpha, j) <~ (if plies <=? 0
                        then checksLoop check b color plies beta
                               (getPseudoLegalChecks b color) alpha j
                        else ret (alpha, j)) ;;
        ret alpha.

Fixpoint quiescence (fuel : nat) : QFn :=
  fun b color plies alpha beta =>
    match fuel with
    | O => fun _ => None
    | S n => routine (quiescence_body (quiescence n) b color plies alpha beta)
    end.

Definition checkQuiescence (fuel : nat) : QFn :=
  fun b color plies alpha beta =>
    routine (checkQuiescence_body (quiescence fuel) b color plies alpha beta).

(** The calls of the quiescence search and the calls each of them can
    make, read off [quiescence] and [checkQuiescence]: the call made, the
    move applied to the copy ([None] for the call at line 656, which
    passes the position on as it is) and the call reached.  Pruning and
    cutoffs can only skip some of these. *)
Inductive QCall :=
| Quiesce (b : Board) (color plies : Z)
| CheckQuiesce (b : Board) (color plies : Z).

Inductive qstep : QCall -> option Move -> QCall -> Prop :=
| step_inCheck b color plies :
    isInCheck b color = true ->
    qstep (Quiesce b color plies) None (CheckQuiesce b color plies)
| step_capture b color plies m copy :
    isInCheck b color = false ->
    In m (getPseudoLegalCaptures b color false) ->
    doPseudoLegalMove b m color = Some copy ->
    qstep (Quiesce b color plies) (Some m) (Quiesce copy (Z.lxor color 1) (plies + 1))
| step_promotion b color plies m copy :
    isInCheck b color = false ->
    In m (getPseudoLegalPromotions b color) ->
    doPseudoLegalMove b m color = Some copy ->
    qstep (Quiesce b color plies) (Some m) (Quiesce copy (Z.lxor color 1) (plies + 1))
| step_check b color plies m copy :
    isInCheck b color = false ->
    plies <= 0 ->
    In m (getPseudoLegalChecks b color) ->
    doPseudoLegalMove b m color = Some copy ->
    qstep (Quiesce b color plies) (Some m) (CheckQuiesce copy (Z.lxor color 1) (plies + 1))
| step_escape b color plies m copy :
    In m (getPseudoLegalCheckEscapes b color) ->
    doPseudoLegalMove b m color = Some copy ->
    qstep (CheckQuiesce b color plies) (Some m) (Quiesce copy (Z.lxor color 1) (plies + 1)).

(** *** Tables of search.cpp *)

Definition IID_DEPTHS : list Z :=
  [0;
    0;  0;  0;  0;  1;  1;  1;  2;  2;  2;
    3;  3;  3;  4;  4;  4;  5;  5;  5;  6;
    6;  6;  7;  7;  7;  8;  8;  8;  9;  9;
    9; 10; 10; 10; 11; 11; 11; 12; 12; 12;
   13; 13; 13; 14; 14; 14; 15; 15; 15; 16;
   16; 16; 17; 17; 17; 18; 18; 18; 19; 19;
   19; 20; 20; 20; 21; 21; 21; 22; 22; 22;
   23; 23; 23; 24; 24; 24; 25; 25; 25; 26;
   26; 26; 27; 27; 27; 28; 28; 28; 29; 29;
   29; 30; 30; 30; 30; 30; 30; 30; 30; 30;
   30; 30; 30; 30; 30; 30; 30; 30; 30; 30;
   30; 30; 30; 30; 30; 30; 30; 30; 30; 30;
   30; 30; 30; 30; 30; 30; 30].

Definition FUTILITY_MARGIN : list Z :=
  [0; MAX_POS_SCORE; MAX_POS_SCORE + KNIGHT_VALUE; MAX_POS_SCORE + QUEEN_VALUE].

Definition REVERSE_FUTILITY_MARGIN : list Z :=
  [0; MAX_POS_SCORE; MAX_POS_SCORE + 2 * PAWN_VALUE].

(** *** PVS, probeTT and getBestMoveForSort *)

(** [PVS] as its callers see it: board, colour, depth, alpha, beta and the
    line behind [pvLine]; it yields the score, the board behind [b] (which
    the null move changes in place) and the line. *)
Definition PFn := Board -> Z -> Z -> Z -> Z -> SearchPV -> Fn (Z * Board * SearchPV).

(** [searchParams.ply++; score = -PVS(copy, color^1, depth, alpha, beta, &line);
    searchParams.ply--;] *)
Definition searchChild {R} (rec : PFn) (copy : Board) (color depth alpha beta : Z)
    (line : SearchPV) : M R (Z * Board * SearchPV) :=
  update (with_params (fun p => set_ply (ply p + 1) p)) ;;;
  '(r, copy', line') <~ call (rec copy (Z.lxor color 1) depth alpha beta line) ;;
  update (with_params (fun p => set_ply (ply p - 1) p)) ;;;
  ret (- r, copy', line').

(** The result of [probeTT]: the returned score and the three arguments it
    may overwrite, [hashed], [alpha] and the line behind [pvLine]. *)
Definition Probe := (Z * Move * Z * SearchPV)%type.

(** What [probeTT] does with the entry it found (lines 572-624). *)
Definition probeEntry (rec : PFn) (b : Board) (color : Z) (hashed : Move)
    (depth alpha beta : Z) (pvLine : SearchPV) (entry : HashEntry) : M Probe Probe :=
  if NodeType_eqb (entry_nodeType entry) ALL_NODE then
    if (entry_depth entry >=? depth) && (entry_score entry <=? alpha) then
      update (with_stats inc_hashScoreCuts) ;;;
      leave (alpha, hashed, alpha, pvLine)
    else ret (- INFTY, hashed, alpha, pvLine)
  else
    (if (entry_depth entry >=? depth)
        && NodeType_eqb (entry_nodeType entry) CUT_NODE
        && (entry_score entry >=? beta)
     then
       update (with_stats inc_hashScoreCuts) ;;;
       update (with_stats inc_failHighs) ;;;
       update (with_stats inc_firstFailHighs) ;;;
       leave (beta, entry_m entry, alpha, pvLine)
     else ret tt) ;;;
    match doHashMove b (entry_m entry) color with
    | Some copy =>
        update (with_stats inc_hashMoveAttempts) ;;;
        update (with_stats inc_nodes) ;;;
        '(score, _, line) <~
          searchChild rec copy color (depth - 1) (- beta) (- alpha) [] ;;
        if score >=? beta then
          update (with_stats inc_hashMoveCuts) ;;;
          leave (beta, entry_m entry, alpha, pvLine)
        else if score >? alpha then
          ret (- INFTY, entry_m entry, score, changePV (entry_m entry) line)
        else ret (- INFTY, entry_m entry, alpha, pvLine)
    | None =>
        update (emit (Type1Error (moveToString (entry_m entry)))) ;;;
        ret (- INFTY, NULL_MOVE, alpha, pvLine)
    end.

Definition probeTT_body (rec : PFn) (b : Board) (color : Z) (hashed : Move)
    (depth alpha beta : Z) (pvLine : SearchPV) : M Probe Probe :=
  w <~ world ;;
  match tt_get (transpositionTable w) b with
  | None => ret (- INFTY, hashed, alpha, pvLine)
  | Some entry =>
      update (with_stats inc_hashHits) ;;;
      probeEntry rec b color hashed depth alpha beta pvLine entry
  end.

Definition probeTT (rec : PFn) (b : Board) (color : Z) (hashed : Move)
    (depth alpha beta : Z) (pvLine : SearchPV) : Fn Probe :=
  routine (probeTT_body rec b color hashed depth alpha beta pvLine).

(** The loop of [getBestMoveForSort]; yields [tempMove]. *)
Fixpoint sortLoop (rec : PFn) (b : Board) (color depth beta : Z)
    (ms : MoveList) (i : nat) (alpha tempMove : Z) (line : SearchPV) : M Z Z :=
  match ms with
  | [] => ret tempMove
  | m :: ms' =>
      match doPseudoLegalMove b m color with
      | None => sortLoop rec b color depth beta ms' (S i) alpha tempMove line
      | Some copy =>
          '(score, line') <~
            (if negb (Nat.eqb i 0) then
               '(score, copy', line') <~
                 searchChild rec copy color (depth - 1) (- alpha - 1) (- alpha) line ;;
               if (alpha <? score) && (score <? beta) then
                 '(score', _, line'') <~
                   searchChild rec copy' color (depth - 1) (- beta) (- alpha) line' ;;
                 ret (score', line'')
               else ret (score, line')
             else
               '(score, _, line') <~
                 searchChild rec copy color (depth - 1) (- beta) (- alpha) line ;;
               ret (score, line')) ;;
          if score >? alpha
          then sortLoop rec b color depth beta ms' (S i) score (Z.of_nat i) line'
          else sortLoop rec b color depth beta ms' (S i) alpha tempMove line'
      end
  end.

Definition getBestMoveForSort (rec : PFn) (b : Board) (legalMoves : MoveList) (depth : Z)
  : Fn Z :=
  routine (sortLoop rec b (getPlayerToMove b) depth MATE_SCORE
             legalMoves 0 (- MATE_SCORE) (-1) []).

(** Null-move pruning (lines 322-349). *)
Definition nullMoveCondition (depth : Z) (isPVNode : bool) (nullMoves staticEval beta : Z)
    (inCheck nonPawnMaterial : bool) : bool :=
  (depth >=? 3) && negb isPVNode && (nullMoves <? 2)
  && (staticEval >=? beta) && negb inCheck && nonPawnMaterial.

Definition nullMoveReduction (depth staticEval beta : Z) : Z :=
  let reduction := if depth >=? 11 then 4 else if depth >=? 6 then 3 else 2 in
  Z.min (depth - 2) (reduction + Z.quot (staticEval - beta) PAWN_VALUE).

Definition nullMovePruning (rec : PFn) (b : Board) (color depth alpha beta : Z)
    (isPVNode inCheck : bool) (staticEval : Z) (pvLine line : SearchPV)
  : M (Z * Board * SearchPV) (Board * SearchPV) :=
  w <~ world ;;
  if nullMoveCondition depth isPVNode (nullMoveCount (searchParams w)) staticEval beta
       inCheck (getNonPawnMaterial b color)
  then
    let reduction := nullMoveReduction depth staticEval beta in
    update (with_params (fun p => set_nullMoveCount (nullMoveCount p + 1) p)) ;;;
    '(nullScore, b', line') <~
      searchChild rec (doNullMove b) color (depth - 1 - reduction) (- beta) (- alpha) line ;;
    update (with_params (fun p => set_nullMoveCount (nullMoveCount p - 1) p)) ;;;
    if nullScore >=? beta then leave (beta, doNullMove b', pvLine)
    else ret (doNullMove b', line')
  else ret (b, line).

(** Removal of the hash move (lines 369-376): [legalMoves.remove(i)] at the
    first index [i] that holds it; the moves behind it move up. *)
Fixpoint removeFirst (hashed : Move) (l : MoveList) : MoveList :=
  match l with
  | [] => []
  | m :: t => if m =? hashed then t else m :: removeFirst hashed t
  end.

(** Move scoring (lines 382-439).  The first loop scores the captures at
    the head of the list and stops at the first quiet move; the second
    scores everything from there on. *)
Fixpoint scoreHead (f : Move -> Z) (l : MoveList) : ScoreList * MoveList :=
  match l with
  | [] => ([], [])
  | m :: t =>
      if isCapture m
      then let '(sc, rest) := scoreHead f t in (f m :: sc, rest)
      else ([], l)
  end.

Definition scoreMoves (captureScore quietScore : Move -> Z) (l : MoveList) : ScoreList :=
  let '(sc, rest) := scoreHead captureScore l in sc ++ map quietScore rest.

Definition historyScore (p : SearchParameters) (b : Board) (color : Z) (m : Move) : Z :=
  - MATE_SCORE + history p color (getPieceOnSquare b color (getStartSq m)) (getEndSq m).

Definition quietScoreSEE (p : SearchParameters) (b : Board) (color : Z) (m : Move) : Z :=
  if m =? killer p 0 then 0
  else if m =? killer p 1 then -1
  else if getPromotion m =? QUEENS then MAX_POS_SCORE
  else historyScore p b color m.

Definition quietScoreMVVLVA (p : SearchParameters) (b : Board) (color : Z) (m : Move) : Z :=
  if m =? killer p 0 then PAWNS - KNIGHTS
  else if m =? killer p 1 then PAWNS - KNIGHTS - 1
  else if getPromotion m =? QUEENS then 8 * ROOKS
  else historyScore p b color m.

(** The variables the move loop of [PVS] carries from one iteration to
    the next. *)
Record LoopVars := mkLoop {
  lv_alpha : Z;
  lv_toHash : Move;
  lv_movesSearched : Z;
  lv_score : Z;
  lv_line : SearchPV;
  lv_pvLine : SearchPV
}.

Definition futilityCondition (b : Board) (color depth alpha staticEval : Z)
    (isPVNode inCheck : bool) (m : Move) : bool :=
  negb isPVNode
  && ((depth <=? 3) && (staticEval <=? alpha - nth (Z.to_nat depth) FUTILITY_MARGIN 0))
  && negb inCheck && negb (isCapture m) && (Z.abs alpha <? QUEEN_VALUE)
  && negb (isPromotion m) && negb (isCheckMove b m color).

Definition lmrCondition (p : SearchParameters) (copy : Board) (color depth alpha prevAlpha : Z)
    (movesSearched : Z) (isPVNode inCheck : bool) (m : Move) : bool :=
  negb isPVNode && negb inCheck && negb (isCapture m) && (depth >=? 3)
  && (movesSearched >? 2) && (alpha <=? prevAlpha)
  && negb (m =? killer p 0) && negb (m =? killer p 1)
  && negb (isPromotion m) && negb (isInCheck copy (Z.lxor color 1)).

(** [(int) (((double) depth - 3.0) / 4.0 + ((double) movesSearched) / 9.5)]:
    the sum is [(19 (depth - 3) + 8 movesSearched) / 76]; when it is a whole
    number both quotients are multiples of 1/4 and exact in binary floating
    point, otherwise it is at least 1/76 away from one, so the truncation
    of the double is the truncation of the exact value. *)
Definition lmrReduction (depth movesSearched : Z) : Z :=
  Z.min (depth - 2) (Z.quot (19 * (depth - 3) + 8 * movesSearched) 76).

(** [timeSoFar * ONE_SECOND > searchParams.timeLimit] *)
Definition timeExceeded (timeSoFar : Q) (p : SearchParameters) : bool :=
  negb (Qle_bool (timeSoFar * inject_Z ONE_SECOND) (inject_Z (timeLimit p))).

Definition recordKiller (m : Move) (p : SearchParameters) : SearchParameters :=
  if m =? killer p 0 then p
  else set_killers (set_nth (Z.to_nat (ply p)) (m, killer p 0) (killers p)) p.

(** One iteration of the move loop of [PVS] (lines 449-539), for the
    move [m] that [nextMove] picked: it leaves [PVS], or yields the loop
    variables for the next iteration. *)
Definition searchMove (rec : PFn) (b : Board) (color depth beta prevAlpha staticEval : Z)
    (isPVNode inCheck : bool) (m : Move) (v : LoopVars)
  : M (Z * Board * SearchPV) LoopVars :=
  w <~ world ;;
  let timeSoFar := getTimeElapsed (clockReads w) in
  update tick ;;;
  (if timeExceeded timeSoFar (searchParams w)
   then update (set_isStop true) else ret tt) ;;;
  w <~ world ;;
  if isStop w then leave (- INFTY, b, lv_pvLine v)
  else
    let alpha := lv_alpha v in
    if futilityCondition b color depth alpha staticEval isPVNode inCheck m then
      ret (mkLoop alpha (lv_toHash v) (lv_movesSearched v) alpha
             (lv_line v) (lv_pvLine v))
    else
      match doPseudoLegalMove b m color with
      | None => ret v
      | Some copy =>
          update (with_stats inc_nodes) ;;;
          let movesSearched := lv_movesSearched v in
          let reduction :=
            if lmrCondition (searchParams w) copy color depth alpha prevAlpha
                 movesSearched isPVNode inCheck m
            then lmrReduction depth movesSearched else 0 in
          '(score, line) <~
            (if negb (movesSearched =? 0) then
               '(score, copy', line') <~
                 searchChild rec copy color (depth - 1 - reduction)
                   (- alpha - 1) (- alpha) (lv_line v) ;;
               if (alpha <? score) && (score <? beta) then
                 '(score', _, line'') <~
                   searchChild rec copy' color (depth - 1) (- beta) (- alpha) line' ;;
                 ret (score', line'')
               else ret (score, line')
             else
               '(score, _, line') <~
                 searchChild rec copy color (depth - 1) (- beta) (- alpha) (lv_line v) ;;
               ret (score, line')) ;;
          if score >=? beta then
            update (with_stats inc_failHighs) ;;;
            (if movesSearched =? 0
             then update (with_stats inc_firstFailHighs) else ret tt) ;;;
            update (fun w =>
              with_table (fun t => tt_add t b depth m beta CUT_NODE
                                     (rootMoveNumber (searchParams w))) w) ;;;
            (if negb (isCapture m) then
               update (with_params (recordKiller m)) ;;;
               update (with_params
                 (add_history color (getPieceOnSquare b color (getStartSq m))
                    (getEndSq m) (depth * depth)))
             else ret tt) ;;;
            leave (beta, b, lv_pvLine v)
          else if score >? alpha then
            ret (mkLoop score m (movesSearched + 1) score line (changePV m line))
          else
            ret (mkLoop alpha (lv_toHash v) (movesSearched + 1) score line (lv_pvLine v))
      end.

(** The move loop of [PVS] (lines 447-448 and 540), driven by [nextMove];
    [n] bounds the iterations by the length of the list, at which point
    [nextMove] has returned the null move. *)
Fixpoint movesLoop (rec : PFn) (b : Board) (color depth beta prevAlpha staticEval : Z)
    (isPVNode inCheck : bool) (n i : nat) (moves : MoveList) (scores : ScoreList)
    (v : LoopVars) : M (Z * Board * SearchPV) LoopVars :=
  let '(m, moves', scores') := nextMove moves scores i in
  if m =? NULL_MOVE then ret v
  else
    match n with
    | O => ret v
    | S n' =>
        v' <~ searchMove rec b color depth beta prevAlpha staticEval isPVNode inCheck m v ;;
        movesLoop rec b color depth beta prevAlpha staticEval isPVNode inCheck
          n' (S i) moves' scores' v'
    end.

(** Reverse futility pruning (lines 355-357). *)
Definition reverseFutilityCondition (b : Board) (color depth beta staticEval : Z)
    (isPVNode inCheck : bool) : bool :=
  negb isPVNode && negb inCheck
  && ((depth <=? 2)
      && (staticEval - nth (Z.to_nat depth) REVERSE_FUTILITY_MARGIN 0 >=? beta))
  && getNonPawnMaterial b color.

(** Scoring of the move list and internal iterative deepening
    (lines 378-439); yields [scores]. *)
Definition orderMoves (rec : PFn) (b : Board) (color depth alpha beta : Z)
    (isPVNode inCheck : bool) (hashed : Move) (pvLine : SearchPV) (legalMoves : MoveList)
  : M (Z * Board * SearchPV) ScoreList :=
  w <~ world ;;
  if (depth >=? 3) || isPVNode then
    let scores := scoreMoves (fun m => getSEE b color (getEndSq m))
                    (quietScoreSEE (searchParams w) b color) legalMoves in
    if (depth >=? 5) && (hashed =? NULL_MOVE) then
      bestIndex <~ call (getBestMoveForSort rec b legalMoves
                           (nth (Z.to_nat depth) IID_DEPTHS 0)) ;;
      if bestIndex =? -1 then
        w <~ world ;; leave (scoreMate inCheck depth alpha beta w, b, pvLine)
      else ret (set_nth (Z.to_nat bestIndex) INFTY scores)
    else ret scores
  else
    ret (scoreMoves (getMVVLVAScore b color)
           (quietScoreMVVLVA (searchParams w) b color) legalMoves).

(** What follows the move loop (lines 542-561). *)
Definition finishNode (b : Board) (color depth beta prevAlpha : Z) (inCheck : bool)
    (v : LoopVars) : M (Z * Board * SearchPV) (Z * Board * SearchPV) :=
  let alpha := lv_alpha v in
  let toHash := lv_toHash v in
  let pvLine := lv_pvLine v in
  if lv_score v =? - INFTY then
    w <~ world ;; leave (scoreMate inCheck depth alpha beta w, b, pvLine)
  else
    (if negb (toHash =? NULL_MOVE) && (prevAlpha <? alpha) && (alpha <? beta) then
       update (fun w =>
         with_table (fun t => tt_add t b depth toHash alpha PV_NODE
                                (rootMoveNumber (searchParams w))) w) ;;;
       (if negb (isCapture toHash) then
          update (with_params
            (add_history color (getPieceOnSquare b color (getStartSq toHash))
               (getEndSq toHash) (depth * depth)))
        else ret tt)
     else if alpha <=? prevAlpha then
       update (fun w =>
         with_table (fun t => tt_add t b depth NULL_MOVE alpha ALL_NODE
                                (rootMoveNumber (searchParams w))) w)
     else ret tt) ;;;
    ret (alpha, b, pvLine).

(** The move list of a node (lines 359-360) and what is left of it once
    the hash move has been taken out (lines 369-376). *)
Definition generated (b : Board) (color : Z) (inCheck : bool) : MoveList :=
  if inCheck then getPseudoLegalCheckEscapes b color else getAllPseudoLegalMoves b color.

Definition candidates (b : Board) (color : Z) (inCheck : bool) (hashed : Move) : MoveList :=
  if negb (hashed =? NULL_MOVE)
  then removeFirst hashed (generated b color inCheck)
  else generated b color inCheck.

(** Lines 359-561: move generation, ordering, the move loop and the
    final stores. *)
Definition searchMoves (rec : PFn) (b : Board) (color depth alpha beta prevAlpha staticEval : Z)
    (isPVNode inCheck : bool) (hashed : Move) (pvLine line : SearchPV)
  : M (Z * Board * SearchPV) (Z * Board * SearchPV) :=
  if Nat.eqb (length (generated b color inCheck)) 0 then
    w <~ world ;; leave (scoreMate inCheck depth alpha beta w, b, pvLine)
  else
    let legalMoves := candidates b color inCheck hashed in
    scores <~ orderMoves rec b color depth alpha beta isPVNode inCheck hashed pvLine
                legalMoves ;;
    v <~ movesLoop rec b color depth beta prevAlpha staticEval isPVNode inCheck
           (length legalMoves) 0 legalMoves scores
           (mkLoop alpha NULL_MOVE (if hashed =? NULL_MOVE then 0 else 1)
              (- INFTY) line pvLine) ;;
    finishNode b color depth beta prevAlpha inCheck v.

Definition PVS_body (qs : QFn) (rec : PFn) (b : Board) (color depth alpha beta : Z)
    (pvLine : SearchPV) : M (Z * Board * SearchPV) (Z * Board * SearchPV) :=
  if depth <=? 0 then
    r <~ call (qs b color 0 alpha beta) ;;
    leave (r, b, [])
  else if isDraw b then
    if 0 >=? beta then leave (beta, b, pvLine)
    else if 0 >? alpha then leave (0, b, pvLine)
    else leave (alpha, b, pvLine)
  else
    let prevAlpha := alpha in
    let isPVNode := beta - alpha >? 1 in
    let inCheck := isInCheck b color in
    update (with_stats inc_hashProbes) ;;;
    '(hashScore, hashed, alpha, pvLine) <~
      call (probeTT rec b color NULL_MOVE depth alpha beta pvLine) ;;
    if negb (hashScore =? - INFTY) then leave (hashScore, b, pvLine)
    else
      let staticEval := if color =? WHITE then evaluate b else - evaluate b in
      '(b, line) <~ nullMovePruning rec b color depth alpha beta isPVNode inCheck
                      staticEval pvLine [] ;;
      if reverseFutilityCondition b color depth beta staticEval isPVNode inCheck
      then leave (beta, b, pvLine)
      else searchMoves rec b color depth alpha beta prevAlpha staticEval
             isPVNode inCheck hashed pvLine line.

Fixpoint PVS (fuel : nat) : PFn :=
  fun b color depth alpha beta pvLine =>
    match fuel with
    | O => fun _ => None
    | S n => routine (PVS_body (quiescence n) (PVS n) b color depth alpha beta pvLine)
    end.

(** *** The iterative-deepening driver *)

(** What [getBestMoveAtDepth] hands back: the returned index ([-1] is the
    initial [tempMove]) and the values behind [bestScore], [isMate] and
    [pvLine]. *)
Record RootResult := mkRoot {
  root_index : Z;
  root_bestScore : Z;
  root_isMate : bool;
  root_pvLine : SearchPV
}.

(** The variables the loop of [getBestMoveAtDepth] carries. *)
Record RootVars := mkRootVars {
  rv_alpha : Z;
  rv_tempMove : Z;
  rv_line : SearchPV;
  rv_pvLine : SearchPV
}.

(** One iteration of the loop of [getBestMoveAtDepth] (lines 191-220),
    for the move at index [i]. *)
Definition rootMove (rec : PFn) (b : Board) (color depth beta bestScore : Z) (isMate : bool)
    (m : Move) (i : nat) (v : RootVars) : M RootResult RootVars :=
  w <~ world ;;
  if isStop w then leave (mkRoot (rv_tempMove v) bestScore isMate (rv_pvLine v))
  else
    let alpha := rv_alpha v in
    let copy := doMove b m color in
    update (with_stats inc_nodes) ;;;
    '(score, line') <~
      (if negb (Nat.eqb i 0) then
         '(score, copy', line') <~
           searchChild rec copy color (depth - 1) (- alpha - 1) (- alpha) (rv_line v) ;;
         if (alpha <? score) && (score <? beta) then
           '(score', _, line'') <~
             searchChild rec copy' color (depth - 1) (- beta) (- alpha) line' ;;
           ret (score', line'')
         else ret (score, line')
       else
         '(score, _, line') <~
           searchChild rec copy color (depth - 1) (- beta) (- alpha) (rv_line v) ;;
         ret (score, line')) ;;
    if score >? alpha
    then ret (mkRootVars score (Z.of_nat i) line' (changePV m line'))
    else ret (mkRootVars alpha (rv_tempMove v) line' (rv_pvLine v)).

(** The loop of [getBestMoveAtDepth] (line 190). *)
Fixpoint rootLoop (rec : PFn) (b : Board) (color depth beta bestScore : Z) (isMate : bool)
    (ms : MoveList) (i : nat) (v : RootVars) : M RootResult RootVars :=
  match ms with
  | [] => ret v
  | m :: ms' =>
      v' <~ rootMove rec b color depth beta bestScore isMate m i v ;;
      rootLoop rec b color depth beta bestScore isMate ms' (S i) v'
  end.

Definition getBestMoveAtDepth (rec : PFn) (b : Board) (legalMoves : MoveList) (depth : Z)
    (bestScore : Z) (isMate : bool) (pvLine : SearchPV) : Fn RootResult :=
  routine (
    let color := getPlayerToMove b in
    update (with_params SearchParameters_reset) ;;;
    v <~ rootLoop rec b color depth MATE_SCORE bestScore isMate legalMoves 0
           (mkRootVars (- MATE_SCORE) (-1) [] pvLine) ;;
    let alpha := rv_alpha v in
    ret (mkRoot (rv_tempMove v) alpha
           (if alpha >=? MATE_SCORE - MAX_DEPTH then true else isMate) (rv_pvLine v))).

(** The separator [" "] of [retrievePV]. *)
Definition space : String.string :=
  String.String (Ascii.Ascii false false false false false true false false)
    String.EmptyString.

(** [retrievePV] *)
Definition retrievePV (pvLine : SearchPV) : String.string :=
  fold_left (fun acc m => String.append acc (String.append space (moveToString m)))
    (tl pvLine) (moveToString (nth 0 pvLine NULL_MOVE)).

(** [(uint64_t) x] for a non-negative [x]. *)
Definition truncQ (q : Q) : Z := Z.quot (Qnum q) (Zpos (Qden q)).

(** The time limit set at lines 137-138. *)
Definition initialTimeLimit (mode value : Z) : Z :=
  if mode =? TIME then truncQ (MAX_TIME_FACTOR * inject_Z value) else MAX_TIME.

(** The condition of the [do ... while] at lines 165-167. *)
Definition continueSearch (mode value : Z) (timeSoFar : Q) (rootDepth : Z) : bool :=
  ((mode =? TIME)
   && negb (Qle_bool (inject_Z value * TIME_FACTOR) (timeSoFar * inject_Z ONE_SECOND))
   && (rootDepth <=? MAX_DEPTH))
  || ((mode =? DEPTH) && (rootDepth <=? value)).

(** The body of the [do ... while] (lines 145-167); [n] bounds the number
    of iterations.  Yields the move behind [bestMove]. *)
Fixpoint deepen (fuel n : nat) (b : Board) (mode value : Z) (legalMoves : MoveList)
    (bestMove : Move) (bestScore : Z) (isMate : bool) (rootDepth : Z) : M Move Move :=
  match n with
  | O => fun _ => None
  | S n' =>
      r <~ call (getBestMoveAtDepth (PVS fuel) b legalMoves rootDepth bestScore isMate []) ;;
      if root_index r =? -1 then ret bestMove
      else
        let legalMoves := swap 0 (Z.to_nat (root_index r)) legalMoves in
        let bestMove := nth 0 legalMoves NULL_MOVE in
        w <~ world ;;
        let timeSoFar := getTimeElapsed (clockReads w) in
        update tick ;;;
        update (emit (InfoLine rootDepth
                        (Z.quot (root_bestScore r * 100) PAWN_VALUE_EG)
                        (timeSoFar * inject_Z ONE_SECOND)
                        (nodes (searchStats w)) (retrievePV (root_pvLine r)))) ;;;
        if root_isMate r then ret bestMove
        else
          let rootDepth := rootDepth + 1 in
          if continueSearch mode value timeSoFar rootDepth
          then deepen fuel n' b mode value legalMoves bestMove
                 (root_bestScore r) (root_isMate r) rootDepth
          else ret bestMove
  end.

(** [getBestMove]; [bestScore] stands for the value of the uninitialised
    local of that name.  Yields the move stored through [bestMove]. *)
Definition getBestMove (fuel n : nat) (b : Board) (mode value : Z) (bestScore : Z)
  : Fn Move :=
  routine (
    update (with_params SearchParameters_reset) ;;;
    update (with_stats (fun _ => SearchStatistics_reset)) ;;;
    update (with_params (set_rootMoveNumber (getMoveNumber b mod 256))) ;;;
    let color := getPlayerToMove b in
    let legalMoves := getAllLegalMoves b color in
    let bestMove := nth 0 legalMoves NULL_MOVE in
    update (with_params (set_timeLimit (initialTimeLimit mode value))) ;;;
    update tick ;;;
    bestMove <~ call (routine (deepen fuel n b mode value legalMoves bestMove
                                 bestScore false 1)) ;;
    w <~ world ;;
    update (emit (Statistics (searchStats w))) ;;;
    update (with_params SearchParameters_resetHistoryTable) ;;;
    update (set_isStop true) ;;;
    update (emit (BestMoveLine (moveToString bestMove))) ;;;
    ret bestMove).

End Search.

(** ** Assertions about routines *)

Section Assertions.
Context {E : Externals}.

(** [post m w Qr Qn]: if [m] runs to an end from [w], then [Qr] holds when
    it leaves the routine and [Qn] when it goes on. *)
Definition post {R A} (m : M R A) (w : World)
    (Qr : R -> World -> Prop) (Qn : A -> World -> Prop) : Prop :=
  match m w with
  | None => True
  | Some (Return r, w') => Qr r w'
  | Some (Next a, w') => Qn a w'
  end.

(** [runs m w]: [m] comes to an end from [w]. *)
Definition runs {R A} (m : M R A) (w : World) : Prop := m w <> None.

(** A score of [PVS]: inside the window, or the [-INFTY] of a stopped
    search. *)
Definition inWindowOrStopped (alpha beta : Z) (x : Z * Board * SearchPV) (w : World) : Prop :=
  alpha <= fst (fst x) <= beta \/ (fst (fst x) = - INFTY /\ isStop w = true).

Definition cutOrStopped (beta : Z) (x : Z * Board * SearchPV) (w : World) : Prop :=
  fst (fst x) = beta \/ (fst (fst x) = - INFTY /\ isStop w = true).

(** Worlds that differ in the number of clock readings only. *)
Definition sameButClock (w w' : World) : Prop :=
  searchParams w' = searchParams w /\ searchStats w' = searchStats w /\
  transpositionTable w' = transpositionTable w /\ isStop w' = isStop w /\
  output w' = output w.

End Assertions.

(** The depths of the [info] lines among the output. *)
Fixpoint infoDepths (out : list Output) : list Z :=
  match out with
  | [] => []
  | InfoLine d _ _ _ _ :: t => d :: infoDepths t
  | _ :: t => infoDepths t
  end.

(** [getPercentage]: the arguments are [uint64_t], the product wraps,
    and the quotient is turned into a [double] and divided by 100; the
    result stands for the rational number that division rounds. *)
Definition getPercentage (numerator denominator : Z) : Q :=
  if denominator =? 0 then 0
  else
    let tenThousandths := Z.quot ((numerator * 10000) mod 2 ^ 64) denominator in
    inject_Z tenThousandths / 100.

(** [d; d + 1; ...], [k] of them. *)
Fixpoint countUp (d : Z) (k : nat) : list Z :=
  match k with
  | O => []
  | S k' => d :: countUp (d + 1) k'
  end.

(** ** A small game tree

    A handful of positions, numbered, with their move lists written out:
    - 0 -> 1 -> 2: two quiet moves in a row (moves 10 and 11);
    - 3: White is far behind and has the quiet moves 12 and 13;
    - 4: a position whose table entry carries a move that cannot be played;
    - 5: the only pseudo-legal move, 18, turns out to be illegal;
    - 9 / 10: White is far ahead; passing leads to 10 and back;
    - 30: a root with the quiet moves 31 (to the dead end 2) and 32 (to 1);
    - 20 -> 21 -> 22 -> 23 -> 24: a capture that gives check (101), a quiet
      king step out of check (14), a second capture with check (102) and
      a second quiet escape (15).
    Moves 100-199 are captures, 200-299 promotions.  The table is an
    association list.  The clock shows 0 s for its first five readings and
    100 s afterwards. *)

Module Toy.

Definition moveTo (b : nat) (m : Move) : option nat :=
  match b with
  | 0%nat => if m =? 10 then Some 1%nat else None
  | 1%nat => if m =? 11 then Some 2%nat else None
  | 3%nat => if m =? 12 then Some 7%nat else if m =? 13 then Some 8%nat else None
  | 9%nat => if m =? 17 then Some 2%nat else None
  | 10%nat => if m =? 16 then Some 2%nat else None
  | 20%nat => if m =? 101 then Some 21%nat else None
  | 21%nat => if m =? 14 then Some 22%nat else None
  | 22%nat => if m =? 102 then Some 23%nat else None
  | 23%nat => if m =? 15 then Some 24%nat else None
  | 30%nat => if m =? 31 then Some 2%nat else if m =? 32 then Some 1%nat else None
  | _ => None
  end.

Definition quietMoves (b : nat) : MoveList :=
  match b with
  | 0%nat => [10]
  | 1%nat => [11]
  | 3%nat => [12; 13]
  | 5%nat => [18]
  | 9%nat => [17]
  | 10%nat => [16]
  | 30%nat => [31; 32]
  | _ => []
  end.

Definition captures (b : nat) : MoveList :=
  match b with
  | 20%nat => [101]
  | 22%nat => [102]
  | _ => []
  end.

Definition escapes (b : nat) : MoveList :=
  match b with
  | 21%nat => [14]
  | 23%nat => [15]
  | _ => []
  end.

Definition inCheck (b : nat) : bool :=
  match b with
  | 21%nat | 23%nat => true
  | _ => false
  end.

Definition eval (b : nat) : Z :=
  match b with
  | 3%nat => -1000
  | 9%nat | 10%nat => 500
  | _ => 0
  end.

Definition toMove (b : nat) : Z :=
  match b with
  | 1%nat | 10%nat | 21%nat | 23%nat => 1
  | _ => 0
  end.

Definition pass (b : nat) : nat :=
  match b with
  | 9%nat => 10%nat
  | 10%nat => 9%nat
  | _ => b
  end.

Fixpoint lookup (t : list (nat * HashEntry)) (b : nat) : option HashEntry :=
  match t with
  | [] => None
  | (k, e) :: t' => if Nat.eqb k b then Some e else lookup t' b
  end.

Definition moveName (m : Move) : String.string :=
  String.String (Ascii.ascii_of_nat (Z.to_nat (m mod 128))) String.EmptyString.

#[export] Instance game : Externals := {|
  Board := nat;
  Hash := list (nat * HashEntry);
  NULL_MOVE := 0;
  WHITE := 0;
  MATE_SCORE := 32766;
  INFTY := 32767;
  MAX_DEPTH := 127;
  MAX_POS_SCORE := 120;
  PAWN_VALUE := 100;
  KNIGHT_VALUE := 320;
  QUEEN_VALUE := 975;
  PAWN_VALUE_EG := 100;
  PAWNS := 0; KNIGHTS := 1; ROOKS := 3; QUEENS := 4;
  ONE_SECOND := 1000;
  MAX_TIME := 2 ^ 62;
  isCapture := fun m => (100 <=? m) && (m <? 200);
  isPromotion := fun m => (200 <=? m) && (m <? 300);
  getPromotion := fun m => if (200 <=? m) && (m <? 300) then 4 else 0;
  getStartSq := fun m => 0;
  getEndSq := fun m => m mod 64;
  moveToString := moveName;
  getPlayerToMove := toMove;
  getMoveNumber := fun _ => 1;
  isDraw := fun _ => false;
  isInCheck := fun b _ => inCheck b;
  evaluate := eval;
  evaluateMaterial := eval;
  evaluatePositional := fun _ => 0;
  getNonPawnMaterial := fun _ _ => true;
  getAllLegalMoves := fun b _ => quietMoves b ++ captures b ++ escapes b;
  getAllPseudoLegalMoves := fun b _ => captures b ++ quietMoves b;
  getPseudoLegalCheckEscapes := fun b _ => escapes b;
  getPseudoLegalCaptures := fun b _ _ => captures b;
  getPseudoLegalPromotions := fun _ _ => [];
  getPseudoLegalChecks := fun _ _ => [];
  getSEE := fun _ _ _ => 0;
  getMVVLVAScore := fun _ _ _ => 0;
  getExchangeScore := fun _ _ _ => 0;
  valueOfPiece := fun _ _ => 100;
  getPieceOnSquare := fun _ _ _ => 0;
  isCheckMove := fun _ _ _ => false;
  doPseudoLegalMove := fun b m _ => moveTo b m;
  doHashMove := fun b m _ => moveTo b m;
  doMove := fun b m _ => match moveTo b m with Some b' => b' | None => b end;
  doNullMove := pass;
  tt_get := lookup;
  tt_add := fun t b depth m score nt age => (b, mkEntry score depth m nt) :: t;
  getTimeElapsed := fun n => if (n <? 5)%nat then 0%Q else 100%Q
|}.

(** A world at the start of a search: the clock has been read [reads]
    times and the limit is [limit] milliseconds. *)
Definition start (limit : Z) (reads : nat) (t : list (nat * HashEntry)) : World :=
  mkWorld (set_timeLimit limit
             (SearchParameters_reset (mkParams 0 0 0 [] [] 0)))
          SearchStatistics_reset t false reads [].

End Toy.

(** ** A second game tree, with checks and a promotion

    - 0: White, not in check, has the capture 101 (to 1), the promotion
      201 (to 2) and the quiet check 41 (to 3);
    - 3: Black, in check, has the one escape 42 (to 4), a quiet move that
      gives check in turn;
    - 4: White, in check, has the one escape 43 (to 5), a quiet move;
    - 5: Black, not in check, has the capture 102 (to 6);
    - 1, 2 and 6 have no move.
    Moves 100-199 are captures, 200-299 promotions. *)

Module Crossfire.

Definition moveTo (b : nat) (m : Move) : option nat :=
  match b with
  | 0%nat => if m =? 101 then Some 1%nat
             else if m =? 201 then Some 2%nat
             else if m =? 41 then Some 3%nat else None
  | 3%nat => if m =? 42 then Some 4%nat else None
  | 4%nat => if m =? 43 then Some 5%nat else None
  | 5%nat => if m =? 102 then Some 6%nat else None
  | _ => None
  end.

Definition captures (b : nat) : MoveList :=
  match b with
  | 0%nat => [101]
  | 5%nat => [102]
  | _ => []
  end.

Definition promotions (b : nat) : MoveList :=
  match b with
  | 0%nat => [201]
  | _ => []
  end.

Definition checks (b : nat) : MoveList :=
  match b with
  | 0%nat => [41]
  | _ => []
  end.

Definition escapes (b : nat) : MoveList :=
  match b with
  | 3%nat => [42]
  | 4%nat => [43]
  | _ => []
  end.

Definition inCheck (b : nat) : bool :=
  match b with
  | 3%nat | 4%nat => true
  | _ => false
  end.

Definition eval (b : nat) : Z :=
  match b with
  | 1%nat => 100
  | 2%nat => 900
  | 6%nat => -100
  | _ => 0
  end.

Definition toMove (b : nat) : Z :=
  match b with
  | 1%nat | 2%nat | 3%nat | 5%nat => 1
  | _ => 0
  end.

(** Pieces on the board, a pawn counting twice, and the cross-checks
    still to come. *)
Definition material (b : nat) : nat :=
  match b with
  | 0%nat | 3%nat | 4%nat | 5%nat => 3
  | 1%nat | 2%nat | 6%nat => 2
  | _ => 0
  end.

Definition evasions (b : nat) : nat :=
  match b with
  | 3%nat => 1
  | _ => 0
  end.

#[export] Instance game : Externals := {|
  Board := nat;
  Hash := list (nat * HashEntry);
  NULL_MOVE := 0;
  WHITE := 0;
  MATE_SCORE := 32766;
  INFTY := 32767;
  MAX_DEPTH := 127;
  MAX_POS_SCORE := 120;
  PAWN_VALUE := 100;
  KNIGHT_VALUE := 320;
  QUEEN_VALUE := 975;
  PAWN_VALUE_EG := 100;
  PAWNS := 0; KNIGHTS := 1; ROOKS := 3; QUEENS := 4;
  ONE_SECOND := 1000;
  MAX_TIME := 2 ^ 62;
  isCapture := fun m => (100 <=? m) && (m <? 200);
  isPromotion := fun m => (200 <=? m) && (m <? 300);
  getPromotion := fun m => if (200 <=? m) && (m <? 300) then 4 else 0;
  getStartSq := fun m => 0;
  getEndSq := fun m => m mod 64;
  moveToString := Toy.moveName;
  getPlayerToMove := toMove;
  getMoveNumber := fun _ => 1;
  isDraw := fun _ => false;
  isInCheck := fun b _ => inCheck b;
  evaluate := eval;
  evaluateMaterial := eval;
  evaluatePositional := fun _ => 0;
  getNonPawnMaterial := fun _ _ => true;
  getAllLegalMoves := fun b _ => captures b ++ promotions b ++ checks b ++ escapes b;
  getAllPseudoLegalMoves := fun b _ => captures b ++ promotions b ++ checks b;
  getPseudoLegalCheckEscapes := fun b _ => escapes b;
  getPseudoLegalCaptures := fun b _ _ => captures b;
  getPseudoLegalPromotions := fun b _ => promotions b;
  getPseudoLegalChecks := fun b _ => checks b;
  getSEE := fun _ _ _ => 0;
  getMVVLVAScore := fun _ _ _ => 0;
  getExchangeScore := fun _ _ _ => 0;
  valueOfPiece := fun _ _ => 100;
  getPieceOnSquare := fun _ _ _ => 0;
  isCheckMove := fun _ m _ => (m =? 41) || (m =? 42);
  doPseudoLegalMove := fun b m _ => moveTo b m;
  doHashMove := fun b m _ => moveTo b m;
  doMove := fun b m _ => match moveTo b m with Some b' => b' | None => b end;
  doNullMove := fun b => b;
  tt_get := Toy.lookup;
  tt_add := fun t b depth m score nt age => (b, mkEntry score depth m nt) :: t;
  getTimeElapsed := fun n => 0%Q
|}.

(** A world at the start of a search, with the limit of the modes without
    a time budget. *)
Definition start : World :=
  mkWorld (set_timeLimit (2 ^ 62) (SearchParameters_reset (mkParams 0 0 0 [] [] 0)))
          SearchStatistics_reset [] false 0 [].

End Crossfire.

(** ** A game of cross-checks without end

    The side to move is in check in every position, and its one escape
    is a quiet move that gives check in turn: position [n] leads to
    position [n + 1]. *)

Module Treadmill.

#[export] Instance game : Externals := {|
  Board := nat;
  Hash := list (nat * HashEntry);
  NULL_MOVE := 0;
  WHITE := 0;
  MATE_SCORE := 32766;
  INFTY := 32767;
  MAX_DEPTH := 127;
  MAX_POS_SCORE := 120;
  PAWN_VALUE := 100;
  KNIGHT_VALUE := 320;
  QUEEN_VALUE := 975;
  PAWN_VALUE_EG := 100;
  PAWNS := 0; KNIGHTS := 1; ROOKS := 3; QUEENS := 4;
  ONE_SECOND := 1000;
  MAX_TIME := 2 ^ 62;
  isCapture := fun _ => false;
  isPromotion := fun _ => false;
  getPromotion := fun _ => 0;
  getStartSq := fun _ => 0;
  getEndSq := fun _ => 0;
  moveToString := Toy.moveName;
  getPlayerToMove := fun b => Z.of_nat (b mod 2);
  getMoveNumber := fun _ => 1;
  isDraw := fun _ => false;
  isInCheck := fun _ _ => true;
  evaluate := fun _ => 0;
  evaluateMaterial := fun _ => 0;
  evaluatePositional := fun _ => 0;
  getNonPawnMaterial := fun _ _ => true;
  getAllLegalMoves := fun _ _ => [1];
  getAllPseudoLegalMoves := fun _ _ => [1];
  getPseudoLegalCheckEscapes := fun _ _ => [1];
  getPseudoLegalCaptures := fun _ _ _ => [];
  getPseudoLegalPromotions := fun _ _ => [];
  getPseudoLegalChecks := fun _ _ => [];
  getSEE := fun _ _ _ => 0;
  getMVVLVAScore := fun _ _ _ => 0;
  getExchangeScore := fun _ _ _ => 0;
  valueOfPiece := fun _ _ => 0;
  getPieceOnSquare := fun _ _ _ => 0;
  isCheckMove := fun _ _ _ => true;
  doPseudoLegalMove := fun b _ _ => Some (S b);
  doHashMove := fun b _ _ => Some (S b);
  doMove := fun b _ _ => S b;
  doNullMove := fun b => b;
  tt_get := Toy.lookup;
  tt_add := fun t b depth m score nt age => (b, mkEntry score depth m nt) :: t;
  getTimeElapsed := fun n => 0%Q
|}.

Definition start : World :=
  mkWorld (set_timeLimit (2 ^ 62) (SearchParameters_reset (mkParams 0 0 0 [] [] 0)))
          SearchStatistics_reset [] false 0 [].

End Treadmill.

(** ** What a search keeps *)

Section Frames.
Context {E : Externals}.

(** [keeps Rel m]: whenever [m] runs from a world [w] to a world [w'],
    [Rel w w']; [fnKeeps] is the same for a routine. *)
Definition keeps {R A} (Rel : World -> World -> Prop) (m : M R A) : Prop :=
  forall w f w', m w = Some (f, w') -> Rel w w'.

Definition fnKeeps {A} (Rel : World -> World -> Prop) (f : Fn A) : Prop :=
  forall w a w', f w = Some (a, w') -> Rel w w'.

(** [total m]: [m] comes to an end from every world; [fnTotal] is the
    same for a routine, and [totalBelow rec depth] says it of every call
    of [rec] at a depth below [depth]. *)
Definition total {R A} (m : M R A) : Prop := forall w, m w <> None.

Definition fnTotal {A} (f : Fn A) : Prop := forall w, f w <> None.

Definition totalBelow (rec : PFn) (depth : Z) : Prop :=
  forall b color depth' alpha beta line,
    depth' < depth -> fnTotal (rec b color depth' alpha beta line).

(** The same for every call of a quiescence routine and of [PVS]. *)
Definition qKeeps (Rel : World -> World -> Prop) (search : QFn) : Prop :=
  forall b color plies alpha beta, fnKeeps Rel (search b color plies alpha beta).

Definition pKeeps (Rel : World -> World -> Prop) (search : PFn) : Prop :=
  forall b color depth alpha beta line, fnKeeps Rel (search b color depth alpha beta line).

(** A relation between the world before and the world after that every
    write of [PVS] respects: the counters, the clock, the stop flag, the
    diagnostic of [probeTT], the three stores into the table (lines 520,
    548, 558), the killer and history updates, and the two brackets
    [ply++ ... ply--] and [nullMoveCount++ ... nullMoveCount--]. *)
Record Frame (Rel : World -> World -> Prop) : Prop := mkFrame {
  frame_refl : forall w, Rel w w;
  frame_trans : forall w1 w2 w3, Rel w1 w2 -> Rel w2 w3 -> Rel w1 w3;
  frame_stats : forall f w, Rel w (with_stats f w);
  frame_tick : forall w, Rel w (tick w);
  frame_stop : forall w, Rel w (set_isStop true w);
  frame_diagnostic : forall s w, Rel w (emit (Type1Error s) w);
  frame_store : forall w b depth m score nt,
    0 < depth -> (nt = ALL_NODE <-> m = NULL_MOVE) ->
    Rel w (with_table (fun t => tt_add t b depth m score nt
                                  (rootMoveNumber (searchParams w))) w);
  frame_killer : forall m w, m <> NULL_MOVE -> Rel w (with_params (recordKiller m) w);
  frame_history : forall c pc sq d w,
    Rel w (with_params (add_history c pc sq (d * d)) w);
  frame_ply : forall w w',
    Rel (with_params (fun p => set_ply (ply p + 1) p) w) w' ->
    Rel w (with_params (fun p => set_ply (ply p - 1) p) w');
  frame_nullMoves : forall w w',
    Rel (with_params (fun p => set_nullMoveCount (nullMoveCount p + 1) p) w) w' ->
    Rel w (with_params (fun p => set_nullMoveCount (nullMoveCount p - 1) p) w')
}.

(** A property of the search parameters that holds afterwards if it held
    before. *)
Definition preserves (P : SearchParameters -> Prop) (w w' : World) : Prop :=
  P (searchParams w) -> P (searchParams w').

(** Nothing but the statistics differs. *)
Definition onlyStats (w w' : World) : Prop :=
  searchParams w' = searchParams w /\ transpositionTable w' = transpositionTable w /\
  isStop w' = isStop w /\ clockReads w' = clockReads w /\ output w' = output w.

(** The counters of the main search are what they were. *)
Definition mainCountersKept (w w' : World) : Prop :=
  hashProbes (searchStats w') = hashProbes (searchStats w) /\
  hashHits (searchStats w') = hashHits (searchStats w) /\
  hashScoreCuts (searchStats w') = hashScoreCuts (searchStats w) /\
  hashMoveAttempts (searchStats w') = hashMoveAttempts (searchStats w) /\
  hashMoveCuts (searchStats w') = hashMoveCuts (searchStats w) /\
  failHighs (searchStats w') = failHighs (searchStats w) /\
  firstFailHighs (searchStats w') = firstFailHighs (searchStats w).

(** The four counters the quiescence search writes. *)
Definition quiescenceCounters : list (SearchStatistics -> SearchStatistics) :=
  [inc_nodes; inc_qsNodes; inc_qsFailHighs; inc_qsFirstFailHighs].

(** [ply] and the null-move counter are what they were. *)
Definition samePly (w w' : World) : Prop :=
  ply (searchParams w') = ply (searchParams w) /\
  nullMoveCount (searchParams w') = nullMoveCount (searchParams w).

(** The two killer slots of every ply differ, unless both are empty. *)
Definition killersDistinct (p : SearchParameters) : Prop :=
  Forall (fun k : Move * Move => fst k <> snd k \/ k = (NULL_MOVE, NULL_MOVE)) (killers p).

(** The killer slots of the plies below the current one are what they
    were, and so is the ply. *)
Definition shallowerKillersKept (w w' : World) : Prop :=
  ply (searchParams w') = ply (searchParams w) /\
  forall i, (i < Z.to_nat (ply (searchParams w)))%nat ->
    nth i (killers (searchParams w')) (NULL_MOVE, NULL_MOVE)
    = nth i (killers (searchParams w)) (NULL_MOVE, NULL_MOVE).

(** No history counter is negative. *)
Definition historyNonNegative (p : SearchParameters) : Prop :=
  Forall (Forall (Forall (fun v : Z => 0 <= v))) (historyTable p).

(** [t'] is [t] after some stores, each at a positive depth, stamped with
    [age], and carrying the null move exactly when it is an all-node. *)
Inductive storedOnto (age : Z) (t : Hash) : Hash -> Prop :=
| stored_nothing : storedOnto age t t
| stored_entry t' b depth m score nt :
    storedOnto age t t' ->
    0 < depth -> (nt = ALL_NODE <-> m = NULL_MOVE) ->
    storedOnto age t (tt_add t' b depth m score nt age).

Definition storesEntries (w w' : World) : Prop :=
  rootMoveNumber (searchParams w') = rootMoveNumber (searchParams w) /\
  storedOnto (rootMoveNumber (searchParams w)) (transpositionTable w) (transpositionTable w').

(** The lines [l] are diagnostics of [probeTT]. *)
Definition diagnostics (l : list Output) : Prop :=
  Forall (fun o => exists s, o = Type1Error s) l.

(** What the search proper never undoes: the time limit, the age stamp
    and the size of the killer table stay, a set stop flag stays set, the
    clock is only read on, and the output only grows, by diagnostics. *)
Definition settingsKept (w w' : World) : Prop :=
  timeLimit (searchParams w') = timeLimit (searchParams w) /\
  rootMoveNumber (searchParams w') = rootMoveNumber (searchParams w) /\
  length (killers (searchParams w')) = length (killers (searchParams w)) /\
  (isStop w = true -> isStop w' = true) /\
  (clockReads w <= clockReads w')%nat /\
  exists l, output w' = output w ++ l /\ diagnostics l.

End Frames.

(** ** The best move so far *)

Section BestSoFar.
Context {E : Externals}.

(** The index of the best move and the line of a root loop that has gone
    through the first [i] of [moves]: no move has raised alpha and the
    line is the one given, [pvLine], or the index is that of one of those
    [i] moves and the line starts with it. *)
Definition bestSoFar (moves : MoveList) (pvLine : SearchPV) (i : nat)
    (tempMove : Z) (line : SearchPV) : Prop :=
  (tempMove = -1 /\ line = pvLine) \/
  (0 <= tempMove < Z.of_nat i /\
   exists rest, line = nth (Z.to_nat tempMove) moves NULL_MOVE :: rest).

(** The same for the loop of [getBestMoveForSort], which keeps no line
    but looks at moves that can be played only. *)
Definition bestPlayable (b : Board) (color : Z) (moves : MoveList) (i : nat)
    (tempMove : Z) : Prop :=
  tempMove = -1 \/
  (0 <= tempMove < Z.of_nat i /\
   doPseudoLegalMove b (nth (Z.to_nat tempMove) moves NULL_MOVE) color <> None).

(** What the loop of [getBestMove] that starts at [rootDepth] leaves: the
    time limit and the age are kept, and the [info] lines added report the
    depths [rootDepth], [rootDepth + 1], ... up to a last one that is the
    first, or one the mode allows. *)
Definition reported (rootDepth mode value : Z) (w w' : World) : Prop :=
  timeLimit (searchParams w') = timeLimit (searchParams w) /\
  rootMoveNumber (searchParams w') = rootMoveNumber (searchParams w) /\
  exists l k,
    output w' = output w ++ l /\ infoDepths l = countUp rootDepth k /\
    ((k <= 1)%nat \/
     (mode = TIME /\ rootDepth + Z.of_nat k - 1 <= MAX_DEPTH) \/
     (mode = DEPTH /\ rootDepth + Z.of_nat k - 1 <= value)).

(** The two values of [standPat] in [quiescence]: the material balance
    (line 661) and the full evaluation (line 670), from the side of
    [color]. *)
Definition materialFor (b : Board) (color : Z) : Z :=
  if color =? WHITE then evaluateMaterial b else - evaluateMaterial b.

Definition standPatFor (b : Board) (color : Z) : Z :=
  materialFor b color
  + (if color =? WHITE then evaluatePositional b else - evaluatePositional b).

(** What the termination of the quiescence search takes from the game:
    a count of the material that a capture or a promotion made out of
    check lowers and that a check or a check escape does not raise, and,
    for the check escapes that keep the material and give check in turn,
    a count of those still to come, never above [limit]. *)
Record Dwindles (material evasions : Board -> nat) (limit : nat) : Prop := mkDwindles {
  capture_takes : forall b color m copy,
    isInCheck b color = false ->
    In m (getPseudoLegalCaptures b color false) ->
    doPseudoLegalMove b m color = Some copy ->
    (material copy < material b)%nat;
  promotion_takes : forall b color m copy,
    isInCheck b color = false ->
    In m (getPseudoLegalPromotions b color) ->
    doPseudoLegalMove b m color = Some copy ->
    (material copy < material b)%nat;
  check_keeps : forall b color m copy,
    isInCheck b color = false ->
    In m (getPseudoLegalChecks b color) ->
    doPseudoLegalMove b m color = Some copy ->
    (material copy <= material b)%nat;
  escape_keeps : forall b color m copy,
    In m (getPseudoLegalCheckEscapes b color) ->
    doPseudoLegalMove b m color = Some copy ->
    (material copy <= material b)%nat /\
    (material copy = material b ->
     isInCheck copy (Z.lxor color 1) = true ->
     (evasions copy < evasions b)%nat);
  evasions_bounded : forall b, (evasions b <= limit)%nat
}.

(** The plies at which [quiescence] still generates checks, counted from
    [plies] on. *)
Definition checksLeft (plies : Z) : nat := Z.to_nat (1 - plies).

(** The fuel a call of the quiescence search needs at most. *)
Definition quiescenceRank (material evasions : Board -> nat) (limit : nat) (x : QCall) : nat :=
  match x with
  | Quiesce b color plies =>
      (2 * limit + 3) * (material b + checksLeft plies)
      + (if isInCheck b color then 2 * evasions b + 2 else 0)
  | CheckQuiesce b color plies =>
      (2 * limit + 3) * (material b + checksLeft plies) + 2 * evasions b + 1
  end.

(** The same for a call with [plies = 0] on a board of at most [top]
    material. *)
Definition quiescenceFuel (top limit : nat) : nat :=
  (2 * limit + 3) * (top + 1) + 2 * limit + 2.

(** The line a call of [rec] hands back is no longer than the longer of
    the line it was given and its depth. *)
Definition lineBound (rec : PFn) : Prop :=
  forall b color depth alpha beta line w r w',
    rec b color depth alpha beta line w = Some (r, w') ->
    (length (snd r) <= Nat.max (length line) (Z.to_nat depth))%nat.

(** The lines the move loop of a node at [depth] carries: the line of
    the children and the line of the node, the latter within [limit]. *)
Definition linesWithin (depth : Z) (limit : nat) (v : LoopVars) : Prop :=
  (length (lv_line v) <= Z.to_nat depth - 1)%nat /\ (length (lv_pvLine v) <= limit)%nat.

(** The deepest root depth the loop of [getBestMove] can reach: the
    condition at lines 165-167 lets it go beyond 1 in the modes [TIME] and
    [DEPTH] only. *)
Definition deepestRoot (mode value : Z) : Z :=
  Z.max 1 (if mode =? TIME then MAX_DEPTH else if mode =? DEPTH then value else 1).

End BestSoFar.

(** * Properties *)

(** ** scoreMate *)

Section ScoreMate.
Context {E : Externals}.

(** C4.  [scoreMate (isInCheck, depth, alpha, beta)]: the score before
    clamping is [-MATE_SCORE + ply] when in check ([ply] being
    [searchParams.ply]) and [0] otherwise; the value returned is [beta] if
    that score is at least [beta], the score itself if it is below [beta]
    and above [alpha], and [alpha] otherwise. *)
Theorem scoreMate_clamps :
  forall (inCheck : bool) (depth alpha beta : Z) (w : World),
    exists score : Z,
      (inCheck = true -> score = - MATE_SCORE + ply (searchParams w)) /\
      (inCheck = false -> score = 0) /\
      (beta <= score -> scoreMate inCheck depth alpha beta w = beta) /\
      (score < beta -> alpha < score -> scoreMate inCheck depth alpha beta w = score) /\
      (score < beta -> score <= alpha -> scoreMate inCheck depth alpha beta w = alpha).
Proof.
  intros inCheck depth alpha beta w.
  exists (if inCheck then - MATE_SCORE + ply (searchParams w) else 0).
  unfold scoreMate.
  set (score := if inCheck then _ else _).
  repeat split.
  - intros ->. reflexivity.
  - intros ->. reflexivity.
  - intros Hge. destruct (Z.geb_spec score beta); [reflexivity | lia].
  - intros Hlt Hgt. destruct (Z.geb_spec score beta); [lia |].
    destruct (Z.gtb_spec score alpha); [reflexivity | lia].
  - intros Hlt Hle. destruct (Z.geb_spec score beta); [lia |].
    destruct (Z.gtb_spec score alpha); [lia | reflexivity].
Qed.

(** With a proper window the value returned lies inside it. *)
Lemma scoreMate_bounds :
  forall (inCheck : bool) (depth alpha beta : Z) (w : World),
    alpha <= beta ->
    alpha <= scoreMate inCheck depth alpha beta w <= beta.
Proof.
  intros inCheck depth alpha beta w H. unfold scoreMate.
  destruct (Z.geb_spec (if inCheck then - MATE_SCORE + ply (searchParams w) else 0) beta);
    [lia |].
  destruct (Z.gtb_spec (if inCheck then - MATE_SCORE + ply (searchParams w) else 0) alpha);
    lia.
Qed.

End ScoreMate.

(** ** SearchParameters::reset at every root depth *)

Section Reset.
Context {E : Externals}.





End Reset.

(** ** The budget of the driver *)

Section Budget.
Context {E : Externals}.

Lemma initialTimeLimit_TIME : forall value : Z, initialTimeLimit TIME value = 4 * value.
Proof.
  intros value. unfold initialTimeLimit, truncQ. simpl.
  rewrite Z.quot_1_r. destruct value; reflexivity.
Qed.

(** C9, as the source has it.  Mode [MOVETIME] is none of the two modes
    [getBestMove] tests for: the time limit is the sentinel [MAX_TIME],
    and the loop condition is false whatever the clock and the depth, so
    the loop body runs once, at root depth 1.  Only mode [TIME] has the
    limit [MAX_TIME_FACTOR * value] and goes on while
    [elapsed * ONE_SECOND < value * TIME_FACTOR] and
    [rootDepth <= MAX_DEPTH]. *)
Theorem movetime_single_iteration :
  forall (value : Z) (timeSoFar : Q) (rootDepth : Z),
    initialTimeLimit MOVETIME value = MAX_TIME /\
    continueSearch MOVETIME value timeSoFar rootDepth = false /\
    (forall (fuel n : nat) (b : Board) (legalMoves : MoveList) (bestMove : Move)
            (bestScore : Z) (isMate : bool) (w : World),
       deepen fuel (S (S n)) b MOVETIME value legalMoves bestMove bestScore isMate rootDepth w
       = deepen fuel 1 b MOVETIME value legalMoves bestMove bestScore isMate rootDepth w) /\
    initialTimeLimit TIME value = 4 * value /\
    (continueSearch TIME value timeSoFar rootDepth = true <->
     (timeSoFar * inject_Z ONE_SECOND < inject_Z value * TIME_FACTOR)%Q /\
     rootDepth <= MAX_DEPTH).
Proof.
  intros value timeSoFar rootDepth.
  split; [reflexivity |]. split; [reflexivity |]. split; [| split].
  - intros fuel n b legalMoves bestMove bestScore isMate w.
    cbn [deepen]. unfold bind.
    destruct (call _ w) as [[[r | r] w1] |]; reflexivity.
  - apply initialTimeLimit_TIME.
  - unfold continueSearch. cbn [Z.eqb TIME DEPTH Pos.eqb andb orb].
    rewrite orb_false_r, andb_true_iff, negb_true_iff.
    rewrite Z.leb_le. split.
    + intros [Hq Hd]. split; [| exact Hd].
      apply Qnot_le_lt. intros Hle. apply Qle_bool_iff in Hle. congruence.
    + intros [Hq Hd]. split; [| exact Hd].
      destruct (Qle_bool _ _) eqn:Hb; [| reflexivity].
      apply Qle_bool_iff in Hb. exfalso. exact (Qlt_not_le _ _ Hq Hb).
Qed.

End Budget.

(** C9 as stated fails: with mode [MOVETIME] and a budget of 1000 the time
    limit is not the one of mode [TIME], and after the first iteration
    (no time elapsed, root depth 2) mode [TIME] goes on while mode
    [MOVETIME] stops.  From position 0, with the same clock, [getBestMove]
    reports depths 1 to 4 in mode [TIME] and depth 1 alone in mode
    [MOVETIME]. *)
Lemma movetime_is_not_time :
  @initialTimeLimit Toy.game MOVETIME 1000 = 2 ^ 62 /\
  @initialTimeLimit Toy.game TIME 1000 = 4000 /\
  @continueSearch Toy.game TIME 1000 0 2 = true /\
  @continueSearch Toy.game MOVETIME 1000 0 2 = false /\
  (exists w', @getBestMove Toy.game 8 8 0%nat TIME 1000 0 (Toy.start 0 0 []) = Some (10, w') /\
              infoDepths (output w') = [1; 2; 3; 4]) /\
  (exists w', @getBestMove Toy.game 8 8 0%nat MOVETIME 1000 0 (Toy.start 0 0 []) = Some (10, w') /\
              infoDepths (output w') = [1]).
Proof.
  repeat (split; [reflexivity |]).
  split; eexists; (split; [vm_compute; reflexivity | reflexivity]).
Qed.

(** ** The move picker *)

Section Lists.
Context {A : Type}.
Implicit Types (l : list A) (i j k : nat).

Lemma set_nth_length l i x : length (set_nth i x l) = length l.
Proof.
  revert i. induction l as [|h t IH]; intros [|i]; simpl; auto.
Qed.

Lemma nth_set_nth_same l i x d : (i < length l)%nat -> nth i (set_nth i x l) d = x.
Proof.
  revert i. induction l as [|h t IH]; intros [|i] Hi; simpl in *; try lia; auto.
  apply IH. lia.
Qed.

Lemma nth_set_nth_other l i k x d : i <> k -> nth k (set_nth i x l) d = nth k l d.
Proof.
  revert i k. induction l as [|h t IH]; intros [|i] [|k] Hik; simpl; auto; try lia.
Qed.

Lemma nth_error_in_range l i d : (i < length l)%nat -> nth_error l i = Some (nth i l d).
Proof.
  revert i. induction l as [|h t IH]; intros [|i] Hi; simpl in *; try lia; auto.
  apply IH. lia.
Qed.

Lemma swap_in_range l i j d :
  (i < length l)%nat -> (j < length l)%nat ->
  swap i j l = set_nth i (nth j l d) (set_nth j (nth i l d) l).
Proof.
  intros Hi Hj. unfold swap.
  rewrite (nth_error_in_range l i d Hi), (nth_error_in_range l j d Hj). reflexivity.
Qed.

Lemma swap_length l i j : length (swap i j l) = length l.
Proof.
  unfold swap. destruct (nth_error l i), (nth_error l j); auto.
  now rewrite !set_nth_length.
Qed.

Lemma nth_swap_left l i j d :
  (i < length l)%nat -> (j < length l)%nat -> nth i (swap i j l) d = nth j l d.
Proof.
  intros Hi Hj. rewrite (swap_in_range l i j d Hi Hj).
  apply nth_set_nth_same. now rewrite set_nth_length.
Qed.

Lemma nth_swap_right l i j d :
  (i < length l)%nat -> (j < length l)%nat -> nth j (swap i j l) d = nth i l d.
Proof.
  intros Hi Hj. rewrite (swap_in_range l i j d Hi Hj).
  destruct (Nat.eq_dec i j) as [-> | Hne].
  - apply nth_set_nth_same. now rewrite set_nth_length.
  - rewrite nth_set_nth_other by exact Hne. now apply nth_set_nth_same.
Qed.

Lemma nth_swap_other l i j k d :
  k <> i -> k <> j -> nth k (swap i j l) d = nth k l d.
Proof.
  intros Hi Hj. unfold swap.
  destruct (nth_error l i), (nth_error l j); auto.
  rewrite !nth_set_nth_other by auto. reflexivity.
Qed.

Lemma set_nth_exchange l j h x :
  nth_error l j = Some x -> Permutation (x :: set_nth j h l) (h :: l).
Proof.
  revert j. induction l as [|a t IH]; intros [|j] Hj; simpl in *; try discriminate.
  - inversion Hj; subst. apply perm_swap.
  - eapply perm_trans; [apply perm_swap |].
    eapply perm_trans; [apply perm_skip, IH, Hj |]. apply perm_swap.
Qed.

Lemma swap_Permutation l i j : Permutation (swap i j l) l.
Proof.
  unfold swap.
  destruct (nth_error l i) as [a|] eqn:Ha; [| reflexivity].
  destruct (nth_error l j) as [x|] eqn:Hx; [| reflexivity].
  revert i j Ha Hx. induction l as [|h t IH]; intros [|i] [|j] Ha Hx;
    simpl in *; try discriminate.
  - inversion Ha; inversion Hx; subst. reflexivity.
  - inversion Ha; subst. now apply set_nth_exchange.
  - inversion Hx; subst. now apply set_nth_exchange.
  - apply perm_skip. now apply IH.
Qed.

End Lists.

Section Pairs.
Context {A B : Type}.

Lemma combine_set_nth (m : list A) (s : list B) i a x :
  combine (set_nth i a m) (set_nth i x s) = set_nth i (a, x) (combine m s).
Proof.
  revert s i. induction m as [|h t IH]; intros [|y s] [|i]; simpl; auto.
  now rewrite IH.
Qed.

Lemma nth_error_combine (m : list A) (s : list B) i :
  nth_error (combine m s) i =
  match nth_error m i, nth_error s i with
  | Some a, Some x => Some (a, x)
  | _, _ => None
  end.
Proof.
  revert s i. induction m as [|h t IH]; intros [|y s] [|i]; simpl; auto.
  destruct (nth_error t i); reflexivity.
Qed.

Lemma combine_swap (m : list A) (s : list B) i j :
  length s = length m ->
  combine (swap i j m) (swap i j s) = swap i j (combine m s).
Proof.
  intros Hlen. unfold swap. rewrite !nth_error_combine.
  destruct (nth_error m i) as [a|] eqn:Ha, (nth_error s i) as [x|] eqn:Hx.
  - destruct (nth_error m j) as [a'|] eqn:Ha', (nth_error s j) as [x'|] eqn:Hx'.
    + now rewrite !combine_set_nth.
    + apply nth_error_None in Hx'. assert (nth_error m j <> None) by congruence.
      apply nth_error_Some in H. lia.
    + apply nth_error_None in Ha'. assert (nth_error s j <> None) by congruence.
      apply nth_error_Some in H. lia.
    + reflexivity.
  - apply nth_error_None in Hx. assert (nth_error m i <> None) by congruence.
    apply nth_error_Some in H. lia.
  - apply nth_error_None in Ha. assert (nth_error s i <> None) by congruence.
    apply nth_error_Some in H. lia.
  - reflexivity.
Qed.

End Pairs.

Section NextMove.
Context {E : Externals}.

Lemma scanBest_spec (scores : ScoreList) :
  forall (n i bi : nat) (bs : Z) (lo : nat),
    (lo <= bi < i)%nat -> bs = nth bi scores 0 ->
    (forall k, (lo <= k < i)%nat -> nth k scores 0 <= bs) ->
    (forall k, (lo <= k < bi)%nat -> nth k scores 0 < bs) ->
    let j := scanBest scores i n bi bs in
    (lo <= j < i + n)%nat /\
    (forall k, (lo <= k < i + n)%nat -> nth k scores 0 <= nth j scores 0) /\
    (forall k, (lo <= k < j)%nat -> nth k scores 0 < nth j scores 0).
Proof.
  induction n as [|n IH]; intros i bi bs lo Hbi Hbs Hmax Hfirst; simpl.
  - subst bs. rewrite Nat.add_0_r. repeat split; auto; lia.
  - replace (i + S n)%nat with (S i + n)%nat by lia.
    destruct (Z.gtb_spec (nth i scores 0) bs) as [Hgt | Hle].
    + apply IH; try lia; auto.
      * intros k Hk. destruct (Nat.eq_dec k i) as [-> | Hne]; [lia |].
        specialize (Hmax k). lia.
      * intros k Hk. specialize (Hmax k). lia.
    + apply IH; auto; try lia.
      intros k Hk. destruct (Nat.eq_dec k i) as [-> | Hne]; [lia |].
      apply Hmax. lia.
Qed.

(** What one call does when the index is inside the list. *)
Lemma nextMove_pick (moves : MoveList) (scores : ScoreList) (index : nat) :
  (index < length moves)%nat ->
  exists j : nat,
    (index <= j < length moves)%nat /\
    (forall k, (index <= k < length moves)%nat -> nth k scores 0 <= nth j scores 0) /\
    (forall k, (index <= k < j)%nat -> nth k scores 0 < nth j scores 0) /\
    nextMove moves scores index
    = (nth j moves NULL_MOVE, swap j index moves, swap j index scores).
Proof.
  intros Hlt. unfold nextMove.
  destruct (Nat.leb_spec (length moves) index) as [Hge | _]; [lia |].
  set (j := scanBest scores (S index) (length moves - S index) index (nth index scores 0)).
  destruct (scanBest_spec scores (length moves - S index) (S index) index
              (nth index scores 0) index) as (Hj & Hmax & Hfirst);
    try lia; auto.
  { intros k Hk. replace k with index by lia. lia. }
  fold j in Hj, Hmax, Hfirst.
  replace (S index + (length moves - S index))%nat with (length moves) in * by lia.
  exists j. repeat split; auto; try lia.
  f_equal. f_equal. apply nth_swap_right; lia.
Qed.

Lemma nextMove_past_end (moves : MoveList) (scores : ScoreList) (index : nat) :
  (length moves <= index)%nat -> nextMove moves scores index = (NULL_MOVE, moves, scores).
Proof.
  intros Hge. unfold nextMove.
  destruct (Nat.leb_spec (length moves) index); [reflexivity | lia].
Qed.

Lemma skipn_cons_nth {A} (l : list A) (i : nat) (d : A) :
  (i < length l)%nat -> skipn i l = nth i l d :: skipn (S i) l.
Proof.
  revert i. induction l as [|h t IH]; intros [|i] Hi; simpl in *; try lia; auto.
  apply IH. lia.
Qed.

(** The successive calls of a move loop sort the rest of the list. *)
Lemma nextMoves_sorts :
  forall (n index : nat) (moves : MoveList) (scores : ScoreList),
    length scores = length moves ->
    (n + index = length moves)%nat ->
    (forall a b, (a < index)%nat -> (a <= b < length moves)%nat ->
                 nth b scores 0 <= nth a scores 0) ->
    forall ms fm fs, nextMoves n index moves scores = (ms, fm, fs) ->
      length fm = length moves /\ length fs = length moves /\
      (forall k, (k < index)%nat ->
                 nth k fm NULL_MOVE = nth k moves NULL_MOVE /\ nth k fs 0 = nth k scores 0) /\
      ms = skipn index fm /\
      Permutation (combine fm fs) (combine moves scores) /\
      (forall a b, (a <= b < length moves)%nat -> nth b fs 0 <= nth a fs 0).
Proof.
  induction n as [|n IH]; intros index moves scores Hlen Hn Hinv ms fm fs Hrun.
  - simpl in Hrun. inversion Hrun; subst. simpl in Hn. subst index.
    repeat split; auto.
    + now rewrite skipn_all.
    + intros a b Hab. apply Hinv; lia.
  - simpl in Hrun.
    destruct (nextMove_pick moves scores index) as (j & Hj & Hmax & _ & Hcall); [lia |].
    rewrite Hcall in Hrun.
    destruct (nextMoves n (S index) (swap j index moves) (swap j index scores))
      as [[ms' fm'] fs'] eqn:Hrest.
    inversion Hrun; subst ms fm' fs'. clear Hrun.
    assert (Hinv' : forall a b, (a < S index)%nat -> (a <= b < length (swap j index moves))%nat ->
                      nth b (swap j index scores) 0 <= nth a (swap j index scores) 0).
    { rewrite swap_length. intros a b Ha Hb.
      assert (Hval : forall k, (index <= k < length moves)%nat ->
                 exists k', (index <= k' < length moves)%nat /\
                            nth k (swap j index scores) 0 = nth k' scores 0).
      { intros k Hk. destruct (Nat.eq_dec k index) as [-> | Hki].
        - exists j. split; [lia |]. apply nth_swap_right; lia.
        - destruct (Nat.eq_dec k j) as [-> | Hkj].
          + exists index. split; [lia |]. apply nth_swap_left; lia.
          + exists k. split; [lia |]. now apply nth_swap_other. }
      destruct (Nat.eq_dec a index) as [-> | Hai].
      - rewrite (nth_swap_right scores j index 0) by lia.
        destruct (Hval b) as (k' & Hk' & ->); [lia |]. now apply Hmax.
      - rewrite (nth_swap_other scores j index a 0) by lia.
        destruct (Nat.lt_ge_cases b index) as [Hbi | Hbi].
        + rewrite (nth_swap_other scores j index b 0) by lia. apply Hinv; lia.
        + destruct (Hval b) as (k' & Hk' & ->); [lia |]. apply Hinv; lia. }
    destruct (IH (S index) (swap j index moves) (swap j index scores))
      with (ms := ms') (fm := fm) (fs := fs)
      as (Hlm & Hls & Hkeep & Hms & Hperm & Hsorted); auto.
    { now rewrite !swap_length. }
    { rewrite swap_length. lia. }
    rewrite swap_length in *.
    repeat split; auto.
    + destruct (Hkeep k) as [Hk _]; [lia |]. rewrite Hk. apply nth_swap_other; lia.
    + destruct (Hkeep k) as [_ Hk]; [lia |]. rewrite Hk. apply nth_swap_other; lia.
    + rewrite (skipn_cons_nth fm index NULL_MOVE) by lia. rewrite <- Hms. f_equal.
      destruct (Hkeep index) as [Hk _]; [lia |]. rewrite Hk.
      symmetry. apply nth_swap_right; lia.
    + eapply perm_trans; [exact Hperm |].
      rewrite combine_swap by exact Hlen. apply swap_Permutation.
Qed.

(** C8, as the source has it.  For a move list and a score list of the
    same length: with the index past the end, [nextMove] returns the null
    move and leaves both lists alone.  Otherwise it finds the smallest
    position [j] among [index .. size-1] whose score is maximal there,
    exchanges positions [j] and [index] in both lists and returns the
    move that was at [j]; so, for a list that holds no null move, it
    returns the null move exactly when the index is past the end.  Over
    the successive calls of a move loop the moves come out by
    non-increasing score, each with the score it was listed with, so a
    move scored 0 comes out before a move scored -1. *)
Theorem nextMove_selects_best :
  forall (moves : MoveList) (scores : ScoreList) (index : nat),
    length scores = length moves ->
    (~ In NULL_MOVE moves ->
     (fst (fst (nextMove moves scores index)) = NULL_MOVE <-> (length moves <= index)%nat)) /\
    ((length moves <= index)%nat -> nextMove moves scores index = (NULL_MOVE, moves, scores)) /\
    ((index < length moves)%nat ->
     exists j : nat,
       (index <= j < length moves)%nat /\
       (forall k, (index <= k < length moves)%nat -> nth k scores 0 <= nth j scores 0) /\
       (forall k, (index <= k < j)%nat -> nth k scores 0 < nth j scores 0) /\
       nextMove moves scores index
       = (nth j moves NULL_MOVE, swap j index moves, swap j index scores) /\
       nth index (swap j index moves) NULL_MOVE = nth j moves NULL_MOVE /\
       nth index (swap j index scores) 0 = nth j scores 0 /\
       nth j (swap j index moves) NULL_MOVE = nth index moves NULL_MOVE /\
       nth j (swap j index scores) 0 = nth index scores 0 /\
       (forall k, k <> index -> k <> j ->
          nth k (swap j index moves) NULL_MOVE = nth k moves NULL_MOVE /\
          nth k (swap j index scores) 0 = nth k scores 0)) /\
    (forall ms fm fs,
       nextMoves (length moves) 0 moves scores = (ms, fm, fs) ->
       ms = fm /\
       Permutation (combine fm fs) (combine moves scores) /\
       (forall a b, (a <= b < length moves)%nat -> nth b fs 0 <= nth a fs 0) /\
       (forall a b, (a < length moves)%nat -> (b < length moves)%nat ->
                    nth a fs 0 = 0 -> nth b fs 0 = -1 -> (a < b)%nat)).
Proof.
  intros moves scores index Hlen.
  split; [| split; [| split]].
  - intros Hnull. split.
    + intros Hm. destruct (Nat.lt_ge_cases index (length moves)) as [Hlt | Hge]; [| exact Hge].
      exfalso. destruct (nextMove_pick moves scores index Hlt) as (j & Hj & _ & _ & Hcall).
      rewrite Hcall in Hm. simpl in Hm. apply Hnull. rewrite <- Hm. apply nth_In. lia.
    + intros Hge. now rewrite nextMove_past_end.
  - apply nextMove_past_end.
  - intros Hlt. destruct (nextMove_pick moves scores index Hlt) as (j & Hj & Hmax & Hfirst & Hcall).
    exists j. repeat split; auto; try lia.
    + apply nth_swap_right; lia.
    + apply nth_swap_right; lia.
    + apply nth_swap_left; lia.
    + apply nth_swap_left; lia.
    + apply nth_swap_other; auto.
    + apply nth_swap_other; auto.
  - intros ms fm fs Hrun.
    destruct (nextMoves_sorts (length moves) 0 moves scores Hlen) with (ms := ms) (fm := fm) (fs := fs)
      as (_ & _ & _ & Hms & Hperm & Hsorted); auto; try lia.
    repeat split; auto.
    intros a b Ha Hb Hza Hzb.
    destruct (Nat.lt_ge_cases a b) as [Hab | Hba]; [exact Hab |].
    specialize (Hsorted b a). lia.
Qed.

End NextMove.

(** [nextMove_selects_best] for the three quiet moves 12, 13, 14 scored
    -1, 0 and 7. *)
Lemma nextMove_selects_best_witness :
  length [-1; 0; 7] = length [12; 13; 14] /\
  @nextMove Toy.game [12; 13; 14] [-1; 0; 7] 0 = (14, [14; 13; 12], [7; 0; -1]) /\
  (forall ms fm fs,
     @nextMoves Toy.game 3 0 [12; 13; 14] [-1; 0; 7] = (ms, fm, fs) ->
     ms = fm /\
     Permutation (combine fm fs) (combine [12; 13; 14] [-1; 0; 7]) /\
     (forall a b, (a <= b < 3)%nat -> nth b fs 0 <= nth a fs 0) /\
     (forall a b, (a < 3)%nat -> (b < 3)%nat ->
                  nth a fs 0 = 0 -> nth b fs 0 = -1 -> (a < b)%nat)).
Proof.
  split; [reflexivity |]. split; [reflexivity |].
  apply (@nextMove_selects_best Toy.game [12; 13; 14] [-1; 0; 7] 0%nat).
  reflexivity.
Defined.

(** C8 as stated fails on a list that holds the null move: the index is
    inside the list and the null move comes back. *)
Lemma nextMove_returns_listed_null :
  @nextMove Toy.game [0] [5] 0 = (@NULL_MOVE Toy.game, [0], [5]) /\
  ~ (length [0] <= 0)%nat.
Proof. split; [reflexivity | simpl; lia]. Qed.

(** ** Reasoning about routine bodies *)

Section Reasoning.
Context {E : Externals}.

Lemma post_bind {R A B} (m : M R A) (f : A -> M R B) w Qr Qn :
  post m w Qr (fun a w' => post (f a) w' Qr Qn) -> post (bind m f) w Qr Qn.
Proof.
  unfold post, bind. destruct (m w) as [[[r | a] w'] |]; auto.
Qed.

Lemma post_ret {R A} (a : A) w (Qr : R -> World -> Prop) Qn :
  Qn a w -> post (ret a) w Qr Qn.
Proof. auto. Qed.

Lemma post_leave {R A} (r : R) w Qr (Qn : A -> World -> Prop) :
  Qr r w -> post (leave r) w Qr Qn.
Proof. auto. Qed.

Lemma post_update {R} (f : World -> World) w (Qr : R -> World -> Prop) Qn :
  Qn tt (f w) -> post (update f) w Qr Qn.
Proof. auto. Qed.

Lemma post_world {R} w (Qr : R -> World -> Prop) Qn :
  Qn w w -> post world w Qr Qn.
Proof. auto. Qed.

Lemma post_call {R A} (f : Fn A) w (Qr : R -> World -> Prop) Qn :
  (forall a w', f w = Some (a, w') -> Qn a w') -> post (call f) w Qr Qn.
Proof.
  unfold post, call. intros H. destruct (f w) as [[a w'] |]; auto.
Qed.

Lemma post_weaken {R A} (m : M R A) w (Qr Qr' : R -> World -> Prop)
    (Qn Qn' : A -> World -> Prop) :
  post m w Qr Qn ->
  (forall r w', Qr r w' -> Qr' r w') ->
  (forall a w', Qn a w' -> Qn' a w') ->
  post m w Qr' Qn'.
Proof.
  unfold post. destruct (m w) as [[[r | a] w'] |]; auto.
Qed.

Lemma post_routine {R} (m : M R R) w (Q : R -> World -> Prop) :
  post m w Q Q -> forall r w', routine m w = Some (r, w') -> Q r w'.
Proof.
  unfold post, routine. intros H r w' Hrun.
  destruct (m w) as [[[x | x] w1] |]; inversion Hrun; subst; auto.
Qed.

Lemma post_searchChild {R} (rec : PFn) copy color depth alpha beta line w
    (Qr : R -> World -> Prop) (Qn : Z * Board * SearchPV -> World -> Prop) :
  (forall r w', Qn r w') -> post (searchChild rec copy color depth alpha beta line) w Qr Qn.
Proof.
  intros H. unfold post.
  destruct (searchChild rec copy color depth alpha beta line w) as [[[r | a] w'] |] eqn:Hrun;
    auto.
  unfold searchChild, bind, update, call, ret in Hrun.
  destruct (rec _ _ _ _ _ _ _) as [[[[r0 c0] l0] w0] |]; discriminate Hrun.
Qed.

End Reasoning.

(** Comparisons of [Z] as propositions. *)
Ltac to_Z :=
  repeat match goal with
  | H : context [(_ >=? _)] |- _ => rewrite Z.geb_leb in H
  | H : context [(_ >? _)] |- _ => rewrite Z.gtb_ltb in H
  | |- context [(_ >=? _)] => rewrite Z.geb_leb
  | |- context [(_ >? _)] => rewrite Z.gtb_ltb
  end;
  repeat match goal with
  | H : (_ <=? _) = true |- _ => apply Z.leb_le in H
  | H : (_ <=? _) = false |- _ => apply Z.leb_gt in H
  | H : (_ <? _) = true |- _ => apply Z.ltb_lt in H
  | H : (_ <? _) = false |- _ => apply Z.ltb_ge in H
  | H : (_ =? _) = true |- _ => apply Z.eqb_eq in H
  | H : (_ =? _) = false |- _ => apply Z.eqb_neq in H
  end.

(** Arithmetic goals with conditionals left in them. *)
Ltac arith :=
  simpl; to_Z;
  repeat match goal with
  | |- context [if ?c then _ else _] => destruct c eqn:?; to_Z
  end;
  try reflexivity; try lia.

(** One step through a routine body. *)
Ltac body_step :=
  first
    [ apply post_bind
    | apply post_ret
    | apply post_leave
    | apply post_update
    | apply post_world
    | apply post_searchChild; intros
    | apply post_call; intros
    | match goal with
      | |- post (match ?x with _ => _ end) _ _ _ => destruct x eqn:?
      end ];
  cbv beta.

(** ** The window of the scores returned *)

Section FailHard.
Context {E : Externals}.

Lemma qsSearched_post (search : QFn) copy color plies beta alpha j w :
  alpha < beta ->
  post (qsSearched search copy color plies beta alpha j) w
    (fun r _ => r = beta)
    (fun x _ => alpha <= snd (fst x) < beta).
Proof.
  intros H. unfold qsSearched.
  repeat body_step; arith.
Qed.

Lemma escapesLoop_post (rec : QFn) b color plies beta ms :
  forall score alpha j w,
    alpha < beta ->
    post (escapesLoop rec b color plies beta ms score alpha j) w
      (fun r _ => r = beta)
      (fun x _ => alpha <= snd x < beta).
Proof.
  induction ms as [|m ms IH]; intros score alpha j w H; simpl.
  - body_step. simpl. lia.
  - destruct (doPseudoLegalMove b m color) as [copy |]; [| now apply IH].
    apply post_bind. eapply post_weaken; [apply qsSearched_post; exact H | auto |].
    intros [[score' alpha'] j'] w' Ha. simpl in Ha.
    eapply post_weaken; [apply IH; lia | auto |].
    intros [s a] w''. simpl. lia.
Qed.

Lemma checkQuiescence_body_post (rec : QFn) b color plies alpha beta w :
  alpha < beta ->
  post (checkQuiescence_body rec b color plies alpha beta) w
    (fun r _ => alpha <= r <= beta) (fun r _ => alpha <= r <= beta).
Proof.
  intros H. unfold checkQuiescence_body.
  apply post_bind. eapply post_weaken; [apply escapesLoop_post; exact H | |].
  - intros r w' ->. lia.
  - intros [score alpha'] w' Ha. simpl in Ha.
    repeat body_step; arith.
Qed.

Lemma capturesLoop_post (rec : QFn) b color plies beta standPat :
  forall n i moves scores alpha j w,
    alpha < beta ->
    post (capturesLoop rec b color plies beta standPat n i moves scores alpha j) w
      (fun r _ => r = beta)
      (fun x _ => alpha <= fst x < beta).
Proof.
  induction n as [|n IH]; intros i moves scores alpha j w H; simpl.
  - destruct (nextMove moves scores i) as [[m moves'] scores'].
    destruct (m =? NULL_MOVE); body_step; simpl; lia.
  - destruct (nextMove moves scores i) as [[m moves'] scores'].
    destruct (m =? NULL_MOVE); [body_step; simpl; lia |].
    destruct (_ <? _); [now apply IH |].
    destruct (_ && _); [now apply IH |].
    destruct (doPseudoLegalMove b m color) as [copy |]; [| now apply IH].
    apply post_bind. eapply post_weaken; [apply qsSearched_post; exact H | auto |].
    intros [[score' alpha'] j'] w' Ha. simpl in Ha.
    eapply post_weaken; [apply IH; lia | auto |].
    intros [a k] w''. simpl. lia.
Qed.

Lemma promotionsLoop_post (rec : QFn) b color plies beta ms :
  forall alpha j w,
    alpha < beta ->
    post (promotionsLoop rec b color plies beta ms alpha j) w
      (fun r _ => r = beta)
      (fun x _ => alpha <= fst x < beta).
Proof.
  induction ms as [|m ms IH]; intros alpha j w H; simpl.
  - body_step. simpl. lia.
  - destruct (_ <? _); [now apply IH |].
    destruct (doPseudoLegalMove b m color) as [copy |]; [| now apply IH].
    apply post_bind. eapply post_weaken; [apply qsSearched_post; exact H | auto |].
    intros [[score' alpha'] j'] w' Ha. simpl in Ha.
    eapply post_weaken; [apply IH; lia | auto |].
    intros [a k] w''. simpl. lia.
Qed.

Lemma checksLoop_post (check : QFn) b color plies beta ms :
  forall alpha j w,
    alpha < beta ->
    post (checksLoop check b color plies beta ms alpha j) w
      (fun r _ => r = beta)
      (fun x _ => alpha <= fst x < beta).
Proof.
  induction ms as [|m ms IH]; intros alpha j w H; simpl.
  - body_step. simpl. lia.
  - destruct (doPseudoLegalMove b m color) as [copy |]; [| now apply IH].
    apply post_bind. eapply post_weaken; [apply qsSearched_post; exact H | auto |].
    intros [[score' alpha'] j'] w' Ha. simpl in Ha.
    eapply post_weaken; [apply IH; lia | auto |].
    intros [a k] w''. simpl. lia.
Qed.

Lemma quiescence_body_post (rec : QFn) b color plies alpha beta w :
  alpha < beta ->
  post (quiescence_body rec b color plies alpha beta) w
    (fun r _ => alpha <= r <= beta) (fun r _ => alpha <= r <= beta).
Proof.
  intros H. unfold quiescence_body.
  destruct (isInCheck b color).
  - apply post_bind. apply post_call. intros r w' Hrun. apply post_leave.
    revert Hrun. apply (post_routine _ _ (fun r _ => alpha <= r <= beta)).
    now apply checkQuiescence_body_post.
  - set (sp0 := if color =? WHITE then evaluateMaterial b else - evaluateMaterial b).
    destruct (sp0 >=? beta + MAX_POS_SCORE); [apply post_leave; lia |].
    destruct (sp0 <? alpha - 2 * MAX_POS_SCORE - QUEEN_VALUE); [apply post_leave; lia |].
    set (sp := sp0 + _).
    set (alpha1 := if alpha <? sp then sp else alpha).
    destruct (sp >=? beta) eqn:Hsp; [apply post_leave; lia |].
    assert (Ha1 : alpha <= alpha1 < beta).
    { subst alpha1. destruct (alpha <? sp) eqn:Hc; to_Z; lia. }
    destruct (sp <? alpha1 - MAX_POS_SCORE - QUEEN_VALUE); [apply post_leave; lia |].
    apply post_bind. eapply post_weaken; [apply capturesLoop_post; lia | intros r0 w0 Hr0; cbv beta in Hr0; lia |].
    intros [alpha2 j2] w2 Ha2. simpl in Ha2.
    apply post_bind. eapply post_weaken; [apply promotionsLoop_post; lia | intros r0 w0 Hr0; cbv beta in Hr0; lia |].
    intros [alpha3 j3] w3 Ha3. simpl in Ha3.
    apply post_bind.
    destruct (plies <=? 0).
    + eapply post_weaken; [apply checksLoop_post; lia | intros r0 w0 Hr0; cbv beta in Hr0; lia |].
      intros [alpha4 j4] w4 Ha4. simpl in Ha4. apply post_ret. lia.
    + apply post_ret. apply post_ret. lia.
Qed.

Lemma quiescence_window :
  forall fuel b color plies alpha beta w r w',
    alpha < beta ->
    quiescence fuel b color plies alpha beta w = Some (r, w') ->
    alpha <= r <= beta.
Proof.
  intros [|fuel] b color plies alpha beta w r w' H Hrun; [discriminate Hrun |].
  simpl in Hrun. revert Hrun.
  apply (post_routine _ _ (fun r _ => alpha <= r <= beta)).
  now apply quiescence_body_post.
Qed.

Lemma searchMove_post (rec : PFn) b color depth beta prevAlpha staticEval
    isPVNode inCheck m v w :
  lv_alpha v < beta ->
  post (searchMove rec b color depth beta prevAlpha staticEval isPVNode inCheck m v) w
    (cutOrStopped beta)
    (fun v' _ => lv_alpha v <= lv_alpha v' < beta).
Proof.
  intros H. unfold searchMove, cutOrStopped.
  repeat body_step;
    try (right; split; [reflexivity | assumption]);
    try (left; reflexivity);
    arith.
Qed.

Lemma movesLoop_post (rec : PFn) b color depth beta prevAlpha staticEval isPVNode inCheck :
  forall n i moves scores v w,
    lv_alpha v < beta ->
    post (movesLoop rec b color depth beta prevAlpha staticEval isPVNode inCheck
            n i moves scores v) w
      (cutOrStopped beta)
      (fun v' _ => lv_alpha v <= lv_alpha v' < beta).
Proof.
  induction n as [|n IH]; intros i moves scores v w H; simpl.
  - destruct (nextMove moves scores i) as [[m moves'] scores'].
    destruct (m =? NULL_MOVE); apply post_ret; lia.
  - destruct (nextMove moves scores i) as [[m moves'] scores'].
    destruct (m =? NULL_MOVE); [apply post_ret; lia |].
    apply post_bind. eapply post_weaken; [apply searchMove_post; exact H | auto |].
    intros v' w' Hv'. cbv beta in Hv'.
    eapply post_weaken; [apply IH; lia | auto |].
    intros v'' w'' Hv''. cbv beta in Hv''. lia.
Qed.

Lemma nullMovePruning_post (rec : PFn) b color depth alpha beta isPVNode inCheck
    staticEval pvLine line w :
  post (nullMovePruning rec b color depth alpha beta isPVNode inCheck staticEval pvLine line) w
    (fun x _ => fst (fst x) = beta) (fun _ _ => True).
Proof.
  unfold nullMovePruning. repeat body_step; auto.
Qed.

Lemma probeTT_body_post (rec : PFn) b color hashed depth alpha beta pvLine w :
  alpha < beta ->
  let Q := fun (x : Probe) (_ : World) =>
             alpha <= snd (fst x) < beta /\
             (fst (fst (fst x)) = - INFTY \/ fst (fst (fst x)) = alpha
              \/ fst (fst (fst x)) = beta) in
  post (probeTT_body rec b color hashed depth alpha beta pvLine) w Q Q.
Proof.
  intros H Q. subst Q. unfold probeTT_body, probeEntry.
  repeat body_step; simpl; to_Z; (split; [lia | auto]).
Qed.

Lemma orderMoves_post (rec : PFn) b color depth alpha beta isPVNode inCheck hashed
    pvLine legalMoves w :
  alpha <= beta ->
  post (orderMoves rec b color depth alpha beta isPVNode inCheck hashed pvLine legalMoves) w
    (fun x _ => alpha <= fst (fst x) <= beta) (fun _ _ => True).
Proof.
  intros H. unfold orderMoves.
  repeat body_step; auto; simpl; apply scoreMate_bounds; exact H.
Qed.

Lemma finishNode_post b color depth beta prevAlpha inCheck v w :
  lv_alpha v < beta ->
  let Q := fun (x : Z * Board * SearchPV) (_ : World) => lv_alpha v <= fst (fst x) <= beta in
  post (finishNode b color depth beta prevAlpha inCheck v) w Q Q.
Proof.
  intros H Q. subst Q. unfold finishNode.
  repeat body_step; simpl; try lia; apply scoreMate_bounds; lia.
Qed.

Lemma searchMoves_post (rec : PFn) b color depth alpha beta prevAlpha staticEval
    isPVNode inCheck hashed pvLine line w :
  alpha < beta ->
  post (searchMoves rec b color depth alpha beta prevAlpha staticEval isPVNode inCheck
          hashed pvLine line) w
    (inWindowOrStopped alpha beta) (inWindowOrStopped alpha beta).
Proof.
  intros H. unfold searchMoves, inWindowOrStopped.
  destruct (Nat.eqb _ 0).
  - repeat body_step. left. simpl. apply scoreMate_bounds. lia.
  - apply post_bind. eapply post_weaken; [apply orderMoves_post; lia | |].
    + intros x w' Hx. left. exact Hx.
    + intros scores w' _.
      apply post_bind. eapply post_weaken; [apply movesLoop_post; simpl; exact H | |].
      * intros x w1 [Hx | Hx]; [left; rewrite Hx; lia | right; exact Hx].
      * intros v w1 Hv. simpl in Hv.
        eapply post_weaken; [apply finishNode_post; lia | |];
          intros x w2 Hx; cbv beta in Hx; left; lia.
Qed.

Lemma PVS_body_post (qs : QFn) (rec : PFn) b color depth alpha beta pvLine w :
  (forall b color plies alpha beta w r w',
      alpha < beta -> qs b color plies alpha beta w = Some (r, w') -> alpha <= r <= beta) ->
  alpha < beta ->
  post (PVS_body qs rec b color depth alpha beta pvLine) w
    (inWindowOrStopped alpha beta) (inWindowOrStopped alpha beta).
Proof.
  intros Hqs H. unfold PVS_body.
  destruct (depth <=? 0).
  { apply post_bind, post_call. intros r w' Hrun. apply post_leave. left. simpl.
    eapply Hqs; eauto. }
  destruct (isDraw b).
  { unfold inWindowOrStopped. repeat body_step; left; arith. }
  apply post_bind, post_update. apply post_bind, post_call.
  intros [[[hashScore hashed] alpha1] pvLine1] w1 Hprobe.
  assert (Hp : alpha <= alpha1 < beta /\
               (hashScore = - INFTY \/ hashScore = alpha \/ hashScore = beta)).
  { revert Hprobe. unfold probeTT.
    apply (post_routine _ _ (fun (x : Probe) (_ : World) =>
             alpha <= snd (fst x) < beta /\
             (fst (fst (fst x)) = - INFTY \/ fst (fst (fst x)) = alpha
              \/ fst (fst (fst x)) = beta))).
    now apply probeTT_body_post. }
  destruct Hp as [Ha1 Hhs].
  destruct (negb (hashScore =? - INFTY)) eqn:Hcut.
  { apply post_leave. left. simpl. apply negb_true_iff in Hcut. to_Z.
    destruct Hhs as [Hh | [Hh | Hh]]; lia. }
  apply post_bind.
  eapply post_weaken; [apply nullMovePruning_post | |].
  { intros x w2 Hx. left. rewrite Hx. lia. }
  intros [b2 line2] w2 _.
  destruct (reverseFutilityCondition _ _ _ _ _ _ _).
  { apply post_leave. left. simpl. lia. }
  eapply post_weaken; [apply searchMoves_post; lia | |];
    intros x w3 [Hx | Hx]; [left; lia | right; exact Hx | left; lia | right; exact Hx].
Qed.

(** C1, as the source has it.  With [alpha < beta], whenever the call
    returns: a score returned by [quiescence] or [checkQuiescence] lies
    in [[alpha, beta]]; a score returned by [PVS] lies in [[alpha, beta]]
    unless it is the [-INFTY] that [PVS] returns when it finds the stop
    flag set at the top of its move loop, and then the flag is set on
    return. *)
Theorem scores_within_window :
  forall (fuel : nat) (b : Board) (color alpha beta : Z),
    alpha < beta ->
    (forall depth pvLine w r b' pvLine' w',
        PVS fuel b color depth alpha beta pvLine w = Some (r, b', pvLine', w') ->
        alpha <= r <= beta \/ (r = - INFTY /\ isStop w' = true)) /\
    (forall plies w r w',
        quiescence fuel b color plies alpha beta w = Some (r, w') -> alpha <= r <= beta) /\
    (forall plies w r w',
        checkQuiescence fuel b color plies alpha beta w = Some (r, w') -> alpha <= r <= beta).
Proof.
  intros fuel b color alpha beta H. split; [| split].
  - intros depth pvLine w r b' pvLine' w' Hrun.
    destruct fuel as [|fuel]; [discriminate Hrun |].
    simpl in Hrun. revert Hrun.
    apply (post_routine _ _ (inWindowOrStopped alpha beta)
             (PVS_body_post (quiescence fuel) (PVS fuel) b color depth alpha beta pvLine w
                (quiescence_window fuel) H) (r, b', pvLine') w').
  - intros plies w r w'. now apply quiescence_window.
  - intros plies w r w'. unfold checkQuiescence.
    apply (post_routine _ _ (fun r _ => alpha <= r <= beta)).
    now apply checkQuiescence_body_post.
Qed.

End FailHard.

(** ** A node where no move is searched *)

Section NoMoveSearched.
Context {E : Externals}.

Lemma sameButClock_refl w : sameButClock w w.
Proof. repeat split. Qed.

Lemma nextMove_result (moves : MoveList) (scores : ScoreList) (i : nat) :
  forall m moves' scores',
    nextMove moves scores i = (m, moves', scores') ->
    Permutation moves' moves /\
    (((i < length moves)%nat /\ In m moves) \/ ((length moves <= i)%nat /\ m = NULL_MOVE)).
Proof.
  intros m moves' scores' Hcall.
  destruct (Nat.lt_ge_cases i (length moves)) as [Hlt | Hge].
  - destruct (nextMove_pick moves scores i Hlt) as (j & Hj & _ & _ & Heq).
    rewrite Heq in Hcall. inversion Hcall; subst.
    split; [apply swap_Permutation |]. left. split; [exact Hlt |]. apply nth_In. lia.
  - rewrite (nextMove_past_end moves scores i Hge) in Hcall. inversion Hcall; subst.
    split; [reflexivity |]. right. split; auto.
Qed.

Variables (rec : PFn) (b : Board) (color depth beta prevAlpha staticEval : Z).
Variables (isPVNode inCheck : bool).

Lemma searchMove_illegal m v w :
  isStop w = false ->
  timeExceeded (getTimeElapsed (clockReads w)) (searchParams w) = false ->
  futilityCondition b color depth (lv_alpha v) staticEval isPVNode inCheck m = false ->
  doPseudoLegalMove b m color = None ->
  searchMove rec b color depth beta prevAlpha staticEval isPVNode inCheck m v w
  = Some (Next v, tick w).
Proof.
  intros Hstop Htime Hfut Hill.
  unfold searchMove, bind, world, update, ret, leave. simpl.
  rewrite Htime. simpl. rewrite Hstop, Hfut, Hill. reflexivity.
Qed.

Lemma searchMove_pruned m v w :
  isStop w = false ->
  timeExceeded (getTimeElapsed (clockReads w)) (searchParams w) = false ->
  futilityCondition b color depth (lv_alpha v) staticEval isPVNode inCheck m = true ->
  searchMove rec b color depth beta prevAlpha staticEval isPVNode inCheck m v w
  = Some (Next (mkLoop (lv_alpha v) (lv_toHash v) (lv_movesSearched v) (lv_alpha v)
                  (lv_line v) (lv_pvLine v)), tick w).
Proof.
  intros Hstop Htime Hfut.
  unfold searchMove, bind, world, update, ret, leave. simpl.
  rewrite Htime. simpl. rewrite Hstop, Hfut. reflexivity.
Qed.

(** Every candidate fails the legality test: the loop variables are what
    they were. *)
Lemma movesLoop_all_illegal :
  forall n i moves scores v w,
    isStop w = false ->
    (forall k, timeExceeded (getTimeElapsed k) (searchParams w) = false) ->
    (forall m, In m moves ->
       futilityCondition b color depth (lv_alpha v) staticEval isPVNode inCheck m = false /\
       doPseudoLegalMove b m color = None) ->
    exists w',
      movesLoop rec b color depth beta prevAlpha staticEval isPVNode inCheck
        n i moves scores v w = Some (Next v, w') /\
      sameButClock w w'.
Proof.
  induction n as [|n IH]; intros i moves scores v w Hstop Htime Hall; simpl.
  - destruct (nextMove moves scores i) as [[m moves'] scores'].
    exists w. split; [destruct (m =? NULL_MOVE); reflexivity | apply sameButClock_refl].
  - destruct (nextMove moves scores i) as [[m moves'] scores'] eqn:Hcall.
    destruct (nextMove_result _ _ _ _ _ _ Hcall) as [Hperm Hm].
    destruct (m =? NULL_MOVE) eqn:Hnull.
    { exists w. split; [reflexivity | apply sameButClock_refl]. }
    destruct Hm as [[_ Hin] | [_ Hm]]; [| subst m; rewrite Z.eqb_refl in Hnull; discriminate].
    destruct (Hall m Hin) as [Hfut Hill].
    unfold bind. rewrite searchMove_illegal; auto.
    destruct (IH (S i) moves' scores' v (tick w)) as (w' & Hrun & Hsame); auto.
    { intros m' Hin'. apply Hall. eapply Permutation_in; eauto. }
    exists w'. split; [exact Hrun | exact Hsame].
Qed.

(** Every candidate is futility-pruned and [score] is [alpha] already. *)
Lemma movesLoop_all_pruned :
  forall n i moves scores v w,
    isStop w = false ->
    (forall k, timeExceeded (getTimeElapsed k) (searchParams w) = false) ->
    lv_score v = lv_alpha v ->
    (forall m, In m moves ->
       futilityCondition b color depth (lv_alpha v) staticEval isPVNode inCheck m = true) ->
    exists w',
      movesLoop rec b color depth beta prevAlpha staticEval isPVNode inCheck
        n i moves scores v w = Some (Next v, w') /\
      sameButClock w w'.
Proof.
  induction n as [|n IH]; intros i moves scores v w Hstop Htime Hscore Hall; simpl.
  - destruct (nextMove moves scores i) as [[m moves'] scores'].
    exists w. split; [destruct (m =? NULL_MOVE); reflexivity | apply sameButClock_refl].
  - destruct (nextMove moves scores i) as [[m moves'] scores'] eqn:Hcall.
    destruct (nextMove_result _ _ _ _ _ _ Hcall) as [Hperm Hm].
    destruct (m =? NULL_MOVE) eqn:Hnull.
    { exists w. split; [reflexivity | apply sameButClock_refl]. }
    destruct Hm as [[_ Hin] | [_ Hm]]; [| subst m; rewrite Z.eqb_refl in Hnull; discriminate].
    unfold bind. rewrite searchMove_pruned; auto.
    replace (mkLoop (lv_alpha v) (lv_toHash v) (lv_movesSearched v) (lv_alpha v)
               (lv_line v) (lv_pvLine v)) with v
      by (destruct v; simpl in *; subst; reflexivity).
    destruct (IH (S i) moves' scores' v (tick w)) as (w' & Hrun & Hsame); auto.
    { intros m' Hin'. apply Hall. eapply Permutation_in; eauto. }
    exists w'. split; [exact Hrun | exact Hsame].
Qed.

(** Every candidate is futility-pruned, from the start of the loop. *)
Lemma movesLoop_pruned_from_start :
  forall moves scores v w,
    isStop w = false ->
    (forall k, timeExceeded (getTimeElapsed k) (searchParams w) = false) ->
    moves <> [] -> ~ In NULL_MOVE moves ->
    (forall m, In m moves ->
       futilityCondition b color depth (lv_alpha v) staticEval isPVNode inCheck m = true) ->
    exists w',
      movesLoop rec b color depth beta prevAlpha staticEval isPVNode inCheck
        (length moves) 0 moves scores v w
      = Some (Next (mkLoop (lv_alpha v) (lv_toHash v) (lv_movesSearched v) (lv_alpha v)
                      (lv_line v) (lv_pvLine v)), w') /\
      sameButClock w w'.
Proof.
  intros moves scores v w Hstop Htime Hne Hnonull Hall.
  destruct moves as [|m0 rest]; [congruence |].
  cbn [length movesLoop].
  destruct (nextMove (m0 :: rest) scores 0) as [[m moves'] scores'] eqn:Hcall.
  destruct (nextMove_result _ _ _ _ _ _ Hcall) as [Hperm Hm].
  destruct Hm as [[_ Hin] | [Hlen _]]; [| simpl in Hlen; lia].
  destruct (m =? NULL_MOVE) eqn:Hnull.
  { apply Z.eqb_eq in Hnull. subst m. contradiction. }
  unfold bind. rewrite searchMove_pruned; auto.
  set (v1 := mkLoop _ _ _ _ _ _).
  destruct (movesLoop_all_pruned (length rest) 1 moves' scores' v1 (tick w))
    as (w' & Hrun & Hsame); auto.
  { intros m' Hin'. apply Hall. eapply Permutation_in; eauto. }
  exists w'. split; [exact Hrun | exact Hsame].
Qed.

Lemma orderMoves_without_IID alpha hashed pvLine legalMoves w :
  (depth >=? 5) && (hashed =? NULL_MOVE) = false ->
  exists scores,
    orderMoves rec b color depth alpha beta isPVNode inCheck hashed pvLine legalMoves w
    = Some (Next scores, w).
Proof.
  intros H. unfold orderMoves, bind, world, ret. simpl.
  destruct ((depth >=? 3) || isPVNode); [rewrite H |]; eauto.
Qed.

Lemma scoreMate_sameButClock alpha w w' :
  sameButClock w w' ->
  scoreMate inCheck depth alpha beta w' = scoreMate inCheck depth alpha beta w.
Proof.
  intros (Hp & _). unfold scoreMate. now rewrite Hp.
Qed.

Lemma searchMoves_all_illegal alpha hashed pvLine line w :
  generated b color inCheck <> [] ->
  (depth >=? 5) && (hashed =? NULL_MOVE) = false ->
  isStop w = false ->
  (forall k, timeExceeded (getTimeElapsed k) (searchParams w) = false) ->
  (forall m, In m (candidates b color inCheck hashed) ->
     futilityCondition b color depth alpha staticEval isPVNode inCheck m = false /\
     doPseudoLegalMove b m color = None) ->
  exists w',
    searchMoves rec b color depth alpha beta prevAlpha staticEval isPVNode inCheck
      hashed pvLine line w
    = Some (Return (scoreMate inCheck depth alpha beta w, b, pvLine), w') /\
    sameButClock w w'.
Proof.
  intros Hgen Hiid Hstop Htime Hall. unfold searchMoves.
  destruct (Nat.eqb _ 0) eqn:Hz.
  { apply Nat.eqb_eq, length_zero_iff_nil in Hz. contradiction. }
  destruct (orderMoves_without_IID alpha hashed pvLine (candidates b color inCheck hashed) w Hiid)
    as [scores Hscores].
  unfold bind at 1. rewrite Hscores.
  set (v0 := mkLoop alpha NULL_MOVE _ (- INFTY) line pvLine).
  destruct (movesLoop_all_illegal (length (candidates b color inCheck hashed)) 0 (candidates b color inCheck hashed)
              scores v0 w Hstop Htime Hall) as (w' & Hrun & Hsame).
  unfold bind. rewrite Hrun.
  exists w'. split; [| exact Hsame].
  unfold finishNode, bind, world, leave. simpl. rewrite Z.eqb_refl.
  now rewrite (scoreMate_sameButClock alpha w w' Hsame).
Qed.

Lemma futilityCondition_depth alpha m :
  futilityCondition b color depth alpha staticEval isPVNode inCheck m = true -> depth <= 3.
Proof.
  unfold futilityCondition. rewrite !andb_true_iff.
  intros [[[[[[_ [Hd _]] _] _] _] _] _]. now apply Z.leb_le.
Qed.

Lemma searchMoves_all_pruned alpha hashed pvLine line w :
  candidates b color inCheck hashed <> [] ->
  ~ In NULL_MOVE (candidates b color inCheck hashed) ->
  alpha <> - INFTY ->
  isStop w = false ->
  (forall k, timeExceeded (getTimeElapsed k) (searchParams w) = false) ->
  (forall m, In m (candidates b color inCheck hashed) ->
     futilityCondition b color depth alpha staticEval isPVNode inCheck m = true) ->
  exists w',
    searchMoves rec b color depth alpha beta prevAlpha staticEval isPVNode inCheck
      hashed pvLine line w
    = Some (Next (alpha, b, pvLine), w') /\
    transpositionTable w'
    = (if alpha <=? prevAlpha
       then tt_add (transpositionTable w) b depth NULL_MOVE alpha ALL_NODE
              (rootMoveNumber (searchParams w))
       else transpositionTable w) /\
    searchParams w' = searchParams w /\ searchStats w' = searchStats w.
Proof.
  intros Hne Hnonull Halpha Hstop Htime Hall. unfold searchMoves.
  destruct (Nat.eqb _ 0) eqn:Hz.
  { apply Nat.eqb_eq, length_zero_iff_nil in Hz. exfalso. apply Hne. unfold candidates.
    rewrite Hz. destruct (negb _); reflexivity. }
  assert (Hiid : (depth >=? 5) && (hashed =? NULL_MOVE) = false).
  { destruct (candidates b color inCheck hashed) as [|m0 rest] eqn:Hc; [congruence |].
    assert (Hd := futilityCondition_depth alpha m0 (Hall m0 (or_introl eq_refl))).
    destruct (depth >=? 5) eqn:Hge; [to_Z; lia | reflexivity]. }
  destruct (orderMoves_without_IID alpha hashed pvLine (candidates b color inCheck hashed) w Hiid)
    as [scores Hscores].
  unfold bind at 1. rewrite Hscores.
  set (v0 := mkLoop alpha NULL_MOVE _ (- INFTY) line pvLine).
  destruct (movesLoop_pruned_from_start (candidates b color inCheck hashed) scores v0 w
              Hstop Htime Hne Hnonull Hall) as (w' & Hrun & Hsame).
  unfold bind. rewrite Hrun. subst v0. cbn [lv_alpha lv_toHash lv_movesSearched lv_line lv_pvLine].
  destruct Hsame as (Hp & Hs & Ht & _ & _).
  unfold finishNode, bind, world, leave, update, ret.
  cbn [lv_alpha lv_toHash lv_score lv_pvLine].
  destruct (alpha =? - INFTY) eqn:Hinf; [to_Z; contradiction |].
  rewrite Z.eqb_refl. cbn [negb andb].
  destruct (alpha <=? prevAlpha); eexists; (split; [reflexivity |]); simpl;
    rewrite ?Hp, ?Hs, ?Ht; auto.
Qed.





End NoMoveSearched.

Section NoMoveSearchedPVS.
Context {E : Externals}.

(** A [PVS] call that gets as far as its move list does what
    [searchMoves] does there. *)
Lemma PVS_reaches_moves (fuel : nat) b color depth alpha beta pvLine w
    hashed alpha1 pvLine1 w1 b2 line2 w2 :
  let isPVNode := beta - alpha >? 1 in
  let inCheck := isInCheck b color in
  let staticEval := if color =? WHITE then evaluate b else - evaluate b in
  0 < depth ->
  isDraw b = false ->
  probeTT (PVS fuel) b color NULL_MOVE depth alpha beta pvLine (with_stats inc_hashProbes w)
  = Some (- INFTY, hashed, alpha1, pvLine1, w1) ->
  nullMovePruning (PVS fuel) b color depth alpha1 beta isPVNode inCheck staticEval pvLine1 [] w1
  = Some (Next (b2, line2), w2) ->
  reverseFutilityCondition b2 color depth beta staticEval isPVNode inCheck = false ->
  forall x w',
    searchMoves (PVS fuel) b2 color depth alpha1 beta alpha staticEval isPVNode
      inCheck hashed pvLine1 line2 w2 = Some (x, w') ->
    PVS (S fuel) b color depth alpha beta pvLine w
    = Some (match x with Return r => r | Next r => r end, w').
Proof.
  intros isPVNode inCheck staticEval Hdepth Hdraw Hprobe Hnull Hrev x w' Hx.
  cbn [PVS]. unfold routine, PVS_body.
  destruct (Z.leb_spec depth 0) as [Hle | _]; [lia |].
  rewrite Hdraw. unfold bind at 1. unfold update at 1.
  unfold bind at 1. unfold call at 1. rewrite Hprobe.
  rewrite Z.eqb_refl. cbn [negb].
  fold isPVNode inCheck staticEval.
  unfold bind at 1. rewrite Hnull. rewrite Hrev. rewrite Hx.
  destruct x; reflexivity.
Qed.


End NoMoveSearchedPVS.

(** *** On the small game tree *)

Lemma toy_clock_within_limit (w : @World Toy.game) :
  timeLimit (searchParams w) = 2 ^ 62 ->
  forall k, @timeExceeded Toy.game (@getTimeElapsed Toy.game k) (searchParams w) = false.
Proof.
  intros Hlimit k. unfold timeExceeded. rewrite Hlimit. simpl.
  destruct (k <? 5)%nat; reflexivity.
Qed.

(** [scores_within_window] at position 3, depth 1, window (-1, 0). *)
Lemma scores_within_window_witness :
  -1 < 0 /\
  exists w',
    @PVS Toy.game 2 3%nat 0 1 (-1) 0 [] (Toy.start (2 ^ 62) 0 []) = Some (-1, 3%nat, [], w') /\
    (-1 <= -1 <= 0 \/ (-1 = - @INFTY Toy.game /\ isStop w' = true)).
Proof.
  split; [reflexivity |].
  destruct (@PVS Toy.game 2 3%nat 0 1 (-1) 0 [] (Toy.start (2 ^ 62) 0 []))
    as [[[[r b'] pv'] w'] |] eqn:Hrun; [| vm_compute in Hrun; discriminate Hrun].
  assert (Hr : (r, b', pv') = (-1, 3%nat, [])).
  { vm_compute in Hrun. inversion Hrun. reflexivity. }
  inversion Hr; subst. exists w'. split; [reflexivity |].
  exact (proj1 (@scores_within_window Toy.game 2 3%nat 0 (-1) 0 eq_refl)
           1 [] (Toy.start (2 ^ 62) 0 []) (-1) 3%nat [] w' Hrun).
Defined.

(** C1 as stated fails when the stop flag becomes set during the call: at
    position 1, depth 1, window (-100, 100), with a limit of one second
    and a clock that shows 100 s at the first poll, [PVS] sets the flag
    and returns [-INFTY = -32767], below [alpha]. *)
Lemma stopped_PVS_leaves_window :
  isStop (Toy.start 1000 5 []) = false /\
  -100 < 100 /\
  exists w',
    @PVS Toy.game 2 1%nat 1 1 (-100) 100 [] (Toy.start 1000 5 [])
    = Some (-32767, 1%nat, [], w') /\
    isStop w' = true /\
    ~ (-100 <= -32767 <= 100).
Proof.
  split; [reflexivity |]. split; [reflexivity |].
  eexists. split; [vm_compute; reflexivity |]. split; [reflexivity | lia].
Qed.



(** ** Null-move pruning *)

Section NullMove.
Context {E : Externals}.

Lemma nullMoveCondition_iff depth isPVNode nullMoves staticEval beta inCheck nonPawn :
  nullMoveCondition depth isPVNode nullMoves staticEval beta inCheck nonPawn = true <->
  3 <= depth /\ isPVNode = false /\ nullMoves < 2 /\ inCheck = false /\
  beta <= staticEval /\ nonPawn = true.
Proof.
  unfold nullMoveCondition. rewrite !andb_true_iff, !negb_true_iff.
  rewrite !Z.geb_le, Z.ltb_lt. tauto.
Qed.

(** The reduction of the source, with the division that rounds down. *)
Lemma nullMoveReduction_floor depth staticEval beta :
  0 < PAWN_VALUE -> beta <= staticEval ->
  nullMoveReduction depth staticEval beta
  = Z.min (depth - 2)
      ((if depth <? 6 then 2 else if depth <? 11 then 3 else 4)
       + (staticEval - beta) / PAWN_VALUE).
Proof.
  intros Hp Hse. unfold nullMoveReduction.
  rewrite Z.quot_div_nonneg by lia.
  destruct (depth >=? 11) eqn:H11, (depth >=? 6) eqn:H6,
           (depth <? 6) eqn:L6, (depth <? 11) eqn:L11; to_Z; try lia; reflexivity.
Qed.

(** C5.  At the point of [PVS] where null-move pruning stands (positive
    depth, no draw, no cutoff from the table), the null-move branch is
    taken exactly when [depth >= 3], the node is not a PV node, the
    null-move counter is below 2, the side to move is not in check,
    [staticEval >= beta] and the side to move has non-pawn material; in
    particular never when it has only pawns, and then no search is run
    and nothing changes.  When taken, the one recursive search runs on
    the board after the null move, for the other side, with window
    [(-beta, -alpha)], ply and null-move counter one higher, at depth
    [depth - 1 - min (depth - 2, R + floor ((staticEval - beta) / PAWN_VALUE))],
    [R] being 2 below depth 6, 3 below depth 11 and 4 from there on; this
    depth is at least 1.  If the negated result of that search is at
    least [beta], [PVS] returns [beta]. *)
Theorem null_move_pruning :
  forall (fuel : nat) (b : Board) (color depth alpha beta : Z) (pvLine : SearchPV) (w : World)
         (hashed : Move) (alpha1 : Z) (pvLine1 : SearchPV) (w1 : World),
    0 < PAWN_VALUE ->
    let isPVNode := beta - alpha >? 1 in
    let inCheck := isInCheck b color in
    let staticEval := if color =? WHITE then evaluate b else - evaluate b in
    let taken := nullMoveCondition depth isPVNode (nullMoveCount (searchParams w1))
                   staticEval beta inCheck (getNonPawnMaterial b color) in
    let R := if depth <? 6 then 2 else if depth <? 11 then 3 else 4 in
    let reduced := depth - 1 - Z.min (depth - 2) (R + (staticEval - beta) / PAWN_VALUE) in
    let enter := fun w : World =>
      with_params (fun p => set_ply (ply p + 1) p)
        (with_params (fun p => set_nullMoveCount (nullMoveCount p + 1) p) w) in
    let back := fun w : World =>
      with_params (fun p => set_nullMoveCount (nullMoveCount p - 1) p)
        (with_params (fun p => set_ply (ply p - 1) p) w) in
    (taken = true <->
     3 <= depth /\ isPVNode = false /\ nullMoveCount (searchParams w1) < 2 /\
     inCheck = false /\ beta <= staticEval /\ getNonPawnMaterial b color = true) /\
    (getNonPawnMaterial b color = false -> taken = false) /\
    (taken = false ->
     forall rec : PFn,
       nullMovePruning rec b color depth alpha1 beta isPVNode inCheck staticEval pvLine1 [] w1
       = Some (Next (b, []), w1)) /\
    (taken = true ->
     1 <= reduced /\
     (forall rec : PFn,
        nullMovePruning rec b color depth alpha1 beta isPVNode inCheck staticEval pvLine1 [] w1
        = match rec (doNullMove b) (Z.lxor color 1) reduced (- beta) (- alpha1) [] (enter w1) with
          | None => None
          | Some (r, b', line', w') =>
              if - r >=? beta
              then Some (Return (beta, doNullMove b', pvLine1), back w')
              else Some (Next (doNullMove b', line'), back w')
          end) /\
     (forall r b' line' w',
        0 < depth -> isDraw b = false ->
        probeTT (PVS fuel) b color NULL_MOVE depth alpha beta pvLine
          (with_stats inc_hashProbes w) = Some (- INFTY, hashed, alpha1, pvLine1, w1) ->
        PVS fuel (doNullMove b) (Z.lxor color 1) reduced (- beta) (- alpha1) [] (enter w1)
        = Some (r, b', line', w') ->
        beta <= - r ->
        PVS (S fuel) b color depth alpha beta pvLine w
        = Some (beta, doNullMove b', pvLine1, back w'))).
Proof.
  intros fuel b color depth alpha beta pvLine w hashed alpha1 pvLine1 w1 Hpawn
         isPVNode inCheck staticEval taken R reduced enter back.
  split; [apply nullMoveCondition_iff |].
  split.
  { intros Hnp. subst taken. unfold nullMoveCondition. rewrite Hnp.
    now rewrite !andb_false_r. }
  split.
  { intros Hno rec. unfold nullMovePruning, bind, world. fold taken. now rewrite Hno. }
  intros Hyes.
  assert (Hc := proj1 (nullMoveCondition_iff _ _ _ _ _ _ _) Hyes).
  destruct Hc as (Hd & _ & _ & _ & Hse & _).
  assert (Hred : depth - 1 - nullMoveReduction depth staticEval beta = reduced).
  { subst reduced R. now rewrite nullMoveReduction_floor. }
  assert (Hblock : forall rec : PFn,
    nullMovePruning rec b color depth alpha1 beta isPVNode inCheck staticEval pvLine1 [] w1
    = match rec (doNullMove b) (Z.lxor color 1) reduced (- beta) (- alpha1) [] (enter w1) with
      | None => None
      | Some (r, b', line', w') =>
          if - r >=? beta
          then Some (Return (beta, doNullMove b', pvLine1), back w')
          else Some (Next (doNullMove b', line'), back w')
      end).
  { intros rec. unfold nullMovePruning, bind, world. fold taken. rewrite Hyes.
    unfold searchChild, bind, update, call, ret, leave. rewrite Hred. subst enter. cbv beta.
    destruct (rec _ _ _ _ _ _ _) as [[[[r b'] line'] w'] |]; [| reflexivity].
    destruct (- r >=? beta); reflexivity. }
  split; [subst reduced; lia |]. split; [exact Hblock |].
  intros r b' line' w' Hdepth Hdraw Hprobe Hrec Hcut.
  cbn [PVS]. unfold routine, PVS_body.
  destruct (Z.leb_spec depth 0) as [Hle | _]; [lia |].
  rewrite Hdraw. unfold bind at 1. unfold update at 1.
  unfold bind at 1. unfold call at 1. rewrite Hprobe.
  rewrite Z.eqb_refl. cbn [negb].
  fold isPVNode inCheck staticEval.
  unfold bind at 1. rewrite Hblock, Hrec.
  destruct (Z.geb_spec (- r) beta) as [_ | Hlt]; [reflexivity | lia].
Qed.

End NullMove.

(** [null_move_pruning] at position 9: White is 500 ahead, depth 3, window
    (0, 1); the null search runs at depth 1 on position 10 and fails low
    for Black, so [PVS] returns [beta = 1]. *)
Lemma null_move_pruning_witness :
  0 < @PAWN_VALUE Toy.game /\
  exists w',
    @PVS Toy.game 3 9%nat 0 3 0 1 [] (Toy.start (2 ^ 62) 0 []) = Some (1, 9%nat, [], w').
Proof.
  split; [reflexivity |].
  pose (w := Toy.start (2 ^ 62) 0 []).
  destruct (@PVS Toy.game 2 10%nat 1 1 (-1) 0 []
              (with_params (fun p => set_ply (ply p + 1) p)
                 (with_params (fun p => set_nullMoveCount (nullMoveCount p + 1) p)
                    (with_stats inc_hashProbes w))))
    as [[[[r b'] line'] w'] |] eqn:Hrec; [| vm_compute in Hrec; discriminate Hrec].
  assert (Hr : (r, b') = (-1, 10%nat)).
  { vm_compute in Hrec. inversion Hrec. reflexivity. }
  inversion Hr; subst r b'.
  eexists.
  exact (proj2 (proj2 (proj2 (proj2 (proj2
           (@null_move_pruning Toy.game 2 9%nat 0 3 0 1 [] w 0 0 []
              (with_stats inc_hashProbes w) eq_refl))) eq_refl))
           (-1) 10%nat line' w' eq_refl eq_refl eq_refl Hrec
           (fun H => Z.le_refl 1 H)).
Defined.

(** ** The probe of the transposition table *)

Section Probe.
Context {E : Externals}.

Lemma probeTT_hit rec b color hashed depth alpha beta pvLine w entry :
  tt_get (transpositionTable w) b = Some entry ->
  probeTT rec b color hashed depth alpha beta pvLine w
  = routine (probeEntry rec b color hashed depth alpha beta pvLine entry)
      (with_stats inc_hashHits w).
Proof.
  intros Hget. unfold probeTT, routine, probeTT_body, bind, world, update.
  rewrite Hget. reflexivity.
Qed.

(** C6, as the source has it.  For a probe that finds an entry:
    - an all-node of sufficient depth whose score is at most [alpha]
      makes [probeTT] return [alpha];
    - a cut-node of sufficient depth whose score is at least [beta] makes
      it return [beta], before the stored move is tried and whether or
      not that move can be played; [hashed] is then the stored move;
    - for a PV-node the stored score is not returned: a value other than
      [-INFTY] is [beta], after the search of the hash move failed high;
    - when none of the two cutoffs applies and the entry is not an
      all-node, a stored move that cannot be played sets [hashed] back to
      the null move, writes the diagnostic and makes [probeTT] return
      [-INFTY] with [alpha] unchanged. *)
Theorem probeTT_on_hit :
  forall (rec : PFn) (b : Board) (color : Z) (hashed : Move) (depth alpha beta : Z)
         (pvLine : SearchPV) (w : World) (entry : HashEntry),
    tt_get (transpositionTable w) b = Some entry ->
    let hit := with_stats inc_hashHits w in
    (entry_nodeType entry = ALL_NODE ->
     depth <= entry_depth entry -> entry_score entry <= alpha ->
     probeTT rec b color hashed depth alpha beta pvLine w
     = Some (alpha, hashed, alpha, pvLine, with_stats inc_hashScoreCuts hit)) /\
    (entry_nodeType entry = CUT_NODE ->
     depth <= entry_depth entry -> beta <= entry_score entry ->
     probeTT rec b color hashed depth alpha beta pvLine w
     = Some (beta, entry_m entry, alpha, pvLine,
             with_stats inc_firstFailHighs
               (with_stats inc_failHighs (with_stats inc_hashScoreCuts hit)))) /\
    (entry_nodeType entry = PV_NODE ->
     forall hs hashed' alpha' pvLine' w',
       probeTT rec b color hashed depth alpha beta pvLine w
       = Some (hs, hashed', alpha', pvLine', w') ->
       hs = - INFTY \/
       (hs = beta /\
        exists copy r copy' line' w1,
          doHashMove b (entry_m entry) color = Some copy /\
          rec copy (Z.lxor color 1) (depth - 1) (- beta) (- alpha) []
            (with_params (fun p => set_ply (ply p + 1) p)
               (with_stats inc_nodes (with_stats inc_hashMoveAttempts hit)))
          = Some (r, copy', line', w1) /\
          beta <= - r)) /\
    (entry_nodeType entry <> ALL_NODE ->
     ~ (entry_nodeType entry = CUT_NODE /\ depth <= entry_depth entry
        /\ beta <= entry_score entry) ->
     doHashMove b (entry_m entry) color = None ->
     probeTT rec b color hashed depth alpha beta pvLine w
     = Some (- INFTY, NULL_MOVE, alpha, pvLine,
             emit (Type1Error (moveToString (entry_m entry))) hit)).
Proof.
  intros rec b color hashed depth alpha beta pvLine w entry Hget hit.
  rewrite !(probeTT_hit rec b color hashed depth alpha beta pvLine w entry Hget).
  fold hit. unfold routine.
  split; [| split; [| split]].
  - intros Htype Hd Hs. unfold probeEntry. rewrite Htype. cbn [NodeType_eqb].
    destruct (Z.geb_spec (entry_depth entry) depth) as [_ | Hlt]; [| lia].
    destruct (Z.leb_spec (entry_score entry) alpha) as [_ | Hgt]; [| lia].
    reflexivity.
  - intros Htype Hd Hs. unfold probeEntry. rewrite Htype. cbn [NodeType_eqb].
    destruct (Z.geb_spec (entry_depth entry) depth) as [_ | Hlt]; [| lia].
    destruct (Z.geb_spec (entry_score entry) beta) as [_ | Hlt]; [| lia].
    reflexivity.
  - intros Htype hs hashed' alpha' pvLine' w'. unfold probeEntry.
    rewrite Htype. cbn [NodeType_eqb].
    rewrite andb_false_r. cbn [andb].
    unfold bind at 1, ret at 1.
    destruct (doHashMove b (entry_m entry) color) as [copy |].
    + unfold bind, update, searchChild, bind, update, call, ret, leave.
      destruct (rec _ _ _ _ _ _ _) as [[[[r copy'] line'] w1] |] eqn:Hrec;
        [| discriminate].
      destruct (Z.geb_spec (- r) beta) as [Hge | Hlt].
      * intros Hres. inversion Hres; subst. right. split; [reflexivity |].
        exists copy, r, copy', line', w1. auto.
      * destruct (- r >? alpha); intros Hres; inversion Hres; subst; left; reflexivity.
    + unfold bind, update, ret. intros Hres. inversion Hres; subst. left. reflexivity.
  - intros Hnot Hnocut Hill. unfold probeEntry.
    destruct (NodeType_eqb (entry_nodeType entry) ALL_NODE) eqn:Hall.
    { destruct (entry_nodeType entry); try discriminate Hall. congruence. }
    assert (Hc : (entry_depth entry >=? depth)
                 && NodeType_eqb (entry_nodeType entry) CUT_NODE
                 && (entry_score entry >=? beta) = false).
    { destruct (_ && _ && _) eqn:Hc; [| reflexivity].
      rewrite !andb_true_iff in Hc. destruct Hc as [[Hd Ht] Hs]. to_Z.
      exfalso. apply Hnocut. repeat split; auto.
      destruct (entry_nodeType entry); try discriminate Ht; reflexivity. }
    rewrite Hc. unfold bind at 1, ret at 1. rewrite Hill. reflexivity.
Qed.

End Probe.

(** [probeTT_on_hit] at position 4 with a PV entry whose move 99 cannot
    be played: the move is dropped and the diagnostic written. *)
Lemma probeTT_on_hit_witness :
  let w := Toy.start (2 ^ 62) 0 [(4%nat, mkEntry 50 5 99 PV_NODE)] in
  @tt_get Toy.game (transpositionTable w) 4%nat = Some (mkEntry 50 5 99 PV_NODE) /\
  @probeTT Toy.game (PVS 2) 4%nat 0 0 3 0 10 [] w
  = Some (- @INFTY Toy.game, @NULL_MOVE Toy.game, 0, [],
          emit (Type1Error (Toy.moveName 99)) (with_stats inc_hashHits w)).
Proof.
  intros w. split; [reflexivity |].
  apply (proj2 (proj2 (proj2
           (@probeTT_on_hit Toy.game (PVS 2) 4%nat 0 0 3 0 10 [] w
              (mkEntry 50 5 99 PV_NODE) eq_refl)))).
  - intros H. discriminate H.
  - intros [H _]. discriminate H.
  - reflexivity.
Defined.

(** C6 as stated fails for a cut-node whose move cannot be played: at
    position 4 the entry (score 50, depth 5, move 99, cut-node) is probed
    at depth 3 with window (0, 10); move 99 is illegal there, yet
    [probeTT] returns [beta = 10], keeps [hashed = 99] and writes
    nothing. *)
Lemma illegal_hash_move_still_cuts :
  let w := Toy.start (2 ^ 62) 0 [(4%nat, mkEntry 50 5 99 CUT_NODE)] in
  @tt_get Toy.game (transpositionTable w) 4%nat = Some (mkEntry 50 5 99 CUT_NODE) /\
  @doHashMove Toy.game 4%nat 99 0 = None /\
  exists w',
    @probeTT Toy.game (PVS 2) 4%nat 0 0 3 0 10 [] w = Some (10, 99, 0, [], w') /\
    99 <> @NULL_MOVE Toy.game /\
    output w' = [].
Proof.
  intros w. split; [reflexivity |]. split; [reflexivity |].
  eexists. split; [vm_compute; reflexivity |]. split; [discriminate | reflexivity].
Qed.

(** ** Termination of the quiescence search *)

Section QuiescenceTermination.
Context {E : Externals}.

Lemma runs_bind {R A B} (m : M R A) (f : A -> M R B) w :
  runs m w -> (forall a w', m w = Some (Next a, w') -> runs (f a) w') ->
  runs (bind m f) w.
Proof.
  unfold runs, bind. intros Hm Hf.
  destruct (m w) as [[[r | a] w'] |]; [discriminate | now apply Hf | congruence].
Qed.

Lemma runs_routine {R} (m : M R R) w : runs m w -> exists r w', routine m w = Some (r, w').
Proof.
  unfold runs, routine. intros H.
  destruct (m w) as [[[r | r] w'] |]; [eauto | eauto | congruence].
Qed.

Lemma runs_qsSearched (search : QFn) copy color plies beta alpha j w :
  (forall a bt w', search copy (Z.lxor color 1) (plies + 1) a bt w' <> None) ->
  runs (qsSearched search copy color plies beta alpha j) w.
Proof.
  intros Hs. unfold qsSearched.
  apply runs_bind; [discriminate |]. intros _ w1 _.
  apply runs_bind; [discriminate |]. intros _ w2 _.
  apply runs_bind.
  - unfold runs, call. specialize (Hs (- beta) (- alpha) w2).
    destruct (search _ _ _ _ _ w2) as [[r w3] |]; [discriminate | congruence].
  - intros r w3 _. destruct (- r >=? beta); [| discriminate].
    apply runs_bind; [discriminate |]. intros _ w4 _.
    apply runs_bind; [destruct (Nat.eqb j 0); discriminate | discriminate].
Qed.

Lemma runs_escapesLoop (rec : QFn) b color plies beta ms :
  (forall m copy, In m ms -> doPseudoLegalMove b m color = Some copy ->
     forall a bt w', rec copy (Z.lxor color 1) (plies + 1) a bt w' <> None) ->
  forall score alpha j w, runs (escapesLoop rec b color plies beta ms score alpha j) w.
Proof.
  induction ms as [|m ms IH]; intros Hrec score alpha j w; simpl; [discriminate |].
  assert (Hrest : forall score alpha j w,
             runs (escapesLoop rec b color plies beta ms score alpha j) w).
  { apply IH. intros m' copy Hin. apply Hrec. now right. }
  destruct (doPseudoLegalMove b m color) as [copy |] eqn:Hlegal; [| apply Hrest].
  apply runs_bind.
  - apply runs_qsSearched. apply (Hrec m copy); [now left | exact Hlegal].
  - intros [[s a] k] w' _. apply Hrest.
Qed.

Lemma runs_checkQuiescence_body (rec : QFn) b color plies alpha beta w :
  (forall m copy, In m (getPseudoLegalCheckEscapes b color) ->
     doPseudoLegalMove b m color = Some copy ->
     forall a bt w', rec copy (Z.lxor color 1) (plies + 1) a bt w' <> None) ->
  runs (checkQuiescence_body rec b color plies alpha beta) w.
Proof.
  intros Hrec. unfold checkQuiescence_body.
  apply runs_bind; [now apply runs_escapesLoop |].
  intros [score alpha'] w' _.
  destruct (score =? - INFTY); [| discriminate].
  apply runs_bind; [discriminate |]. intros w'' w3 _.
  destruct (_ >=? beta); discriminate.
Qed.

Lemma runs_capturesLoop (rec : QFn) b color plies beta standPat (all : MoveList) :
  (forall m copy, In m all -> doPseudoLegalMove b m color = Some copy ->
     forall a bt w', rec copy (Z.lxor color 1) (plies + 1) a bt w' <> None) ->
  forall n i moves scores alpha j w,
    Permutation moves all ->
    runs (capturesLoop rec b color plies beta standPat n i moves scores alpha j) w.
Proof.
  intros Hrec. induction n as [|n IH]; intros i moves scores alpha j w Hperm; simpl.
  - destruct (nextMove moves scores i) as [[m moves'] scores'].
    destruct (m =? NULL_MOVE); discriminate.
  - destruct (nextMove moves scores i) as [[m moves'] scores'] eqn:Hcall.
    destruct (nextMove_result _ _ _ _ _ _ Hcall) as [Hperm' Hm].
    assert (Hnext : forall alpha j w,
               runs (capturesLoop rec b color plies beta standPat n (S i)
                       moves' scores' alpha j) w).
    { intros. apply IH. eapply perm_trans; eauto. }
    destruct (m =? NULL_MOVE) eqn:Hnull; [discriminate |].
    destruct (_ <? _); [apply Hnext |].
    destruct (_ && _); [apply Hnext |].
    destruct (doPseudoLegalMove b m color) as [copy |] eqn:Hlegal; [| apply Hnext].
    destruct Hm as [[_ Hin] | [_ Hm]];
      [| subst m; rewrite Z.eqb_refl in Hnull; discriminate].
    apply runs_bind.
    + apply runs_qsSearched. apply (Hrec m copy); [| exact Hlegal].
      eapply Permutation_in; eauto.
    + intros [[s a] k] w' _. apply Hnext.
Qed.

Lemma runs_promotionsLoop (rec : QFn) b color plies beta ms :
  (forall m copy, In m ms -> doPseudoLegalMove b m color = Some copy ->
     forall a bt w', rec copy (Z.lxor color 1) (plies + 1) a bt w' <> None) ->
  forall alpha j w, runs (promotionsLoop rec b color plies beta ms alpha j) w.
Proof.
  induction ms as [|m ms IH]; intros Hrec alpha j w; simpl; [discriminate |].
  assert (Hrest : forall alpha j w,
             runs (promotionsLoop rec b color plies beta ms alpha j) w).
  { apply IH. intros m' copy Hin. apply Hrec. now right. }
  destruct (_ <? 0); [apply Hrest |].
  destruct (doPseudoLegalMove b m color) as [copy |] eqn:Hlegal; [| apply Hrest].
  apply runs_bind.
  - apply runs_qsSearched. apply (Hrec m copy); [now left | exact Hlegal].
  - intros [[s a] k] w' _. apply Hrest.
Qed.

Lemma runs_checksLoop (check : QFn) b color plies beta ms :
  (forall m copy, In m ms -> doPseudoLegalMove b m color = Some copy ->
     forall a bt w', check copy (Z.lxor color 1) (plies + 1) a bt w' <> None) ->
  forall alpha j w, runs (checksLoop check b color plies beta ms alpha j) w.
Proof.
  induction ms as [|m ms IH]; intros Hrec alpha j w; simpl; [discriminate |].
  assert (Hrest : forall alpha j w,
             runs (checksLoop check b color plies beta ms alpha j) w).
  { apply IH. intros m' copy Hin. apply Hrec. now right. }
  destruct (doPseudoLegalMove b m color) as [copy |] eqn:Hlegal; [| apply Hrest].
  apply runs_bind.
  - apply runs_qsSearched. apply (Hrec m copy); [now left | exact Hlegal].
  - intros [[s a] k] w' _. apply Hrest.
Qed.

Variable rank : QCall -> nat.
Hypothesis rank_decreases : forall x l y, qstep x l y -> (rank y < rank x)%nat.

Lemma checkQuiescence_body_runs (n : nat) :
  (forall b color plies alpha beta w,
      (rank (Quiesce b color plies) < n)%nat ->
      quiescence n b color plies alpha beta w <> None) ->
  forall b color plies alpha beta w,
    (rank (CheckQuiesce b color plies) <= n)%nat ->
    runs (checkQuiescence_body (quiescence n) b color plies alpha beta) w.
Proof.
  intros IH b color plies alpha beta w Hrank.
  apply runs_checkQuiescence_body. intros m copy Hin Hlegal a bt w'.
  apply IH. assert (Hs := rank_decreases _ _ _ (step_escape b color plies m copy Hin Hlegal)).
  lia.
Qed.

Lemma quiescence_runs :
  forall n b color plies alpha beta w,
    (rank (Quiesce b color plies) < n)%nat ->
    quiescence n b color plies alpha beta w <> None.
Proof.
  induction n as [|n IH]; intros b color plies alpha beta w Hrank; [lia |].
  assert (Hcheck := checkQuiescence_body_runs n IH).
  cbn [quiescence].
  enough (Hruns : runs (quiescence_body (quiescence n) b color plies alpha beta) w).
  { destruct (runs_routine _ _ Hruns) as (r & w' & Heq). congruence. }
  unfold quiescence_body.
  destruct (isInCheck b color) eqn:Hin.
  - apply runs_bind; [| discriminate].
    assert (Hs := rank_decreases _ _ _ (step_inCheck b color plies Hin)).
    unfold runs, call.
    destruct (runs_routine _ w (Hcheck b color plies alpha beta w ltac:(lia)))
      as (r & w' & Heq).
    rewrite Heq. discriminate.
  - destruct (_ >=? beta + MAX_POS_SCORE); [discriminate |].
    destruct (_ <? alpha - 2 * MAX_POS_SCORE - QUEEN_VALUE); [discriminate |].
    destruct (_ >=? beta); [discriminate |].
    destruct (_ <? _ - MAX_POS_SCORE - QUEEN_VALUE); [discriminate |].
    apply runs_bind.
    { apply runs_capturesLoop with (all := getPseudoLegalCaptures b color false);
        [| reflexivity].
      intros m copy Hm Hlegal a bt w'. apply IH.
      assert (Hs := rank_decreases _ _ _ (step_capture b color plies m copy Hin Hm Hlegal)).
      lia. }
    intros [alpha2 j2] w2 _.
    apply runs_bind.
    { apply runs_promotionsLoop.
      intros m copy Hm Hlegal a bt w'. apply IH.
      assert (Hs := rank_decreases _ _ _ (step_promotion b color plies m copy Hin Hm Hlegal)).
      lia. }
    intros [alpha3 j3] w3 _.
    apply runs_bind; [| intros [alpha4 j4] w4 _; discriminate].
    destruct (Z.leb_spec plies 0) as [Hp | Hp]; [| discriminate].
    apply runs_checksLoop.
    intros m copy Hm Hlegal a bt w'.
    assert (Hs := rank_decreases _ _ _ (step_check b color plies m copy Hin Hp Hm Hlegal)).
    destruct (runs_routine _ w'
                (Hcheck copy (Z.lxor color 1) (plies + 1) a bt w' ltac:(lia)))
      as (r & w'' & Heq).
    rewrite Heq. discriminate.
Qed.

End QuiescenceTermination.

Section QuiescenceTerminationClaim.
Context {E : Externals}.
Variables (material evasions : Board -> nat) (limit : nat).
Hypothesis Hgame : Dwindles material evasions limit.

Lemma checksLeft_next plies : (checksLeft (plies + 1) <= checksLeft plies)%nat.
Proof. unfold checksLeft. lia. Qed.

Lemma checksLeft_spent plies : plies <= 0 -> (S (checksLeft (plies + 1)) = checksLeft plies)%nat.
Proof. unfold checksLeft. lia. Qed.

(** Every recursive call of the quiescence search has a smaller rank
    than its caller. *)
Lemma quiescenceRank_decreases :
  forall x l y, qstep x l y ->
    (quiescenceRank material evasions limit y < quiescenceRank material evasions limit x)%nat.
Proof.
  intros x l y Hstep.
  assert (Hev := evasions_bounded _ _ _ Hgame).
  destruct Hstep as [b c p Hin | b c p m copy Hin Hm Hlegal | b c p m copy Hin Hm Hlegal
                     | b c p m copy Hin Hp Hm Hlegal | b c p m copy Hm Hlegal];
    cbn [quiescenceRank].
  - rewrite Hin. lia.
  - rewrite Hin. pose proof (capture_takes _ _ _ Hgame b c m copy Hin Hm Hlegal) as Hmat.
    pose proof (checksLeft_next p) as Hcl. pose proof (Hev copy) as Hc.
    assert (Hk : ((2 * limit + 3) * (material copy + checksLeft (p + 1)) + (2 * limit + 3)
                 <= (2 * limit + 3) * (material b + checksLeft p))%nat) by nia.
    destruct (isInCheck copy (Z.lxor c 1)); lia.
  - rewrite Hin. pose proof (promotion_takes _ _ _ Hgame b c m copy Hin Hm Hlegal) as Hmat.
    pose proof (checksLeft_next p) as Hcl. pose proof (Hev copy) as Hc.
    assert (Hk : ((2 * limit + 3) * (material copy + checksLeft (p + 1)) + (2 * limit + 3)
                 <= (2 * limit + 3) * (material b + checksLeft p))%nat) by nia.
    destruct (isInCheck copy (Z.lxor c 1)); lia.
  - rewrite Hin. pose proof (check_keeps _ _ _ Hgame b c m copy Hin Hm Hlegal) as Hmat.
    pose proof (checksLeft_spent p Hp) as Hcl. pose proof (Hev copy) as Hc.
    assert (Hk : ((2 * limit + 3) * (material copy + checksLeft (p + 1)) + (2 * limit + 3)
                 <= (2 * limit + 3) * (material b + checksLeft p))%nat) by nia.
    lia.
  - destruct (escape_keeps _ _ _ Hgame b c m copy Hm Hlegal) as [Hmat Hcross].
    pose proof (checksLeft_next p) as Hcl. pose proof (Hev copy) as Hc.
    destruct (Nat.eq_dec (material copy) (material b)) as [Heq | Hne].
    + assert (Hk : ((2 * limit + 3) * (material copy + checksLeft (p + 1))
                   <= (2 * limit + 3) * (material b + checksLeft p))%nat) by nia.
      destruct (isInCheck copy (Z.lxor c 1)) eqn:Hchk; [| lia].
      specialize (Hcross Heq eq_refl). lia.
    + assert (Hk : ((2 * limit + 3) * (material copy + checksLeft (p + 1)) + (2 * limit + 3)
                   <= (2 * limit + 3) * (material b + checksLeft p))%nat) by nia.
      destruct (isInCheck copy (Z.lxor c 1)); lia.
Qed.

(** C7, as the source has it.  The recursive calls of the quiescence
    search are: out of check, after a capture or a promotion at any
    [plies] and after a check when [plies <= 0]; in check, at any
    [plies], after every check escape that can be played, whatever kind
    of move it is; each of them with [plies + 1].  The check extension
    is bounded by [plies] alone, as the specification says.  A capture or a
    promotion lowers the material, and a check or an escape does not
    raise it; what is left are the escapes that keep the material and
    give check in turn, and the search comes to an end when the game has
    a bound on successive ones.  The fuel needed is
    [quiescenceRank], for any [plies]. *)
Theorem quiescence_terminates :
  forall (fuel : nat) (b : Board) (color plies alpha beta : Z) (w : World),
    ((quiescenceRank material evasions limit (Quiesce b color plies) < fuel)%nat ->
     exists r w', quiescence fuel b color plies alpha beta w = Some (r, w')) /\
    ((quiescenceRank material evasions limit (CheckQuiesce b color plies) <= fuel)%nat ->
     exists r w', checkQuiescence fuel b color plies alpha beta w = Some (r, w')).
Proof.
  intros fuel b color plies alpha beta w.
  pose proof quiescenceRank_decreases as Hrank. split.
  - intros Hlt.
    destruct (quiescence fuel b color plies alpha beta w) as [[r w'] |] eqn:Hrun; [eauto |].
    exfalso. revert Hrun. now apply (quiescence_runs _ Hrank).
  - intros Hle. unfold checkQuiescence. apply runs_routine.
    apply (checkQuiescence_body_runs _ Hrank); [| exact Hle].
    intros. now apply (quiescence_runs _ Hrank).
Qed.

End QuiescenceTerminationClaim.

(** The second game tree has the measures the theorem asks for. *)
Lemma crossfire_dwindles :
  @Dwindles Crossfire.game Crossfire.material Crossfire.evasions 1.
Proof.
  constructor.
  - intros b color m copy _ Hm Hlegal. cbn in Hm, Hlegal.
    do 6 (try (destruct b as [|b]; [cbn in Hm; try contradiction |]));
      try (cbn in Hm; contradiction);
      destruct Hm as [<- | []]; cbn in Hlegal; inversion Hlegal; subst; cbn; lia.
  - intros b color m copy _ Hm Hlegal. cbn in Hm, Hlegal.
    destruct b as [|b]; [| cbn in Hm; contradiction].
    destruct Hm as [<- | []]; cbn in Hlegal; inversion Hlegal; subst; cbn; lia.
  - intros b color m copy _ Hm Hlegal. cbn in Hm, Hlegal.
    destruct b as [|b]; [| cbn in Hm; contradiction].
    destruct Hm as [<- | []]; cbn in Hlegal; inversion Hlegal; subst; cbn; lia.
  - intros b color m copy Hm Hlegal. cbn in Hm, Hlegal.
    do 5 (try (destruct b as [|b]; [cbn in Hm; try contradiction |]));
      try (cbn in Hm; contradiction);
      destruct Hm as [<- | []]; cbn in Hlegal; inversion Hlegal; subst; cbn;
      (split; [lia | intros _ Hchk; first [discriminate Hchk | lia]]).
  - intros b. unfold Crossfire.evasions.
    do 4 (try (destruct b as [|b])); lia.
Qed.

(** [quiescence_terminates] at position 0 of the second game tree: the
    capture 101, the promotion 201 and the check 41 are searched, and
    behind the check the escape 42, which gives check, and the quiet
    escape 43, five nodes in all; the promotion gives the score. *)
Lemma quiescence_terminates_witness :
  @Dwindles Crossfire.game Crossfire.material Crossfire.evasions 1 /\
  @quiescenceRank Crossfire.game Crossfire.material Crossfire.evasions 1
    (@Quiesce Crossfire.game 0%nat 0 0) = 20%nat /\
  exists r w',
    @quiescence Crossfire.game 21 0%nat 0 0 (-1000) 1000 Crossfire.start = Some (r, w') /\
    r = 900 /\ qsNodes (searchStats w') = 5.
Proof.
  split; [exact crossfire_dwindles |].
  split; [reflexivity |].
  destruct (proj1 (@quiescence_terminates Crossfire.game Crossfire.material
                     Crossfire.evasions 1 crossfire_dwindles
                     21 0%nat 0 0 (-1000) 1000 Crossfire.start))
    as (r & w' & Hrun).
  - vm_compute. lia.
  - exists r, w'. split; [exact Hrun |].
    vm_compute in Hrun. inversion Hrun. split; reflexivity.
Defined.

(** Where every check escape gives check, the quiescence search goes
    down without end: no fuel is enough. *)
Lemma treadmill_never_returns :
  forall (fuel : nat) (b : nat) (color plies alpha beta : Z) (w : World),
    @quiescence Treadmill.game fuel b color plies alpha beta w = None.
Proof.
  induction fuel as [|n IH]; intros b color plies alpha beta w; [reflexivity |].
  cbn [quiescence]. unfold routine, quiescence_body.
  change (@isInCheck Treadmill.game b color) with true. cbv iota.
  unfold bind at 1, call, routine, checkQuiescence_body.
  unfold bind at 1.
  change (@getPseudoLegalCheckEscapes Treadmill.game b color) with [1].
  cbn [escapesLoop].
  change (@doPseudoLegalMove Treadmill.game b 1 color) with (Some (S b)). cbv iota.
  unfold bind at 1, qsSearched.
  unfold bind at 1, update. unfold bind at 1. unfold bind at 1, call.
  now rewrite IH.
Qed.

(** C7 as stated fails: not every recursive step beyond the checks of
    [plies <= 0] applies a capture or a promotion.  On the line
    20 -> 21 -> 22 -> 23 -> 24, searched from [plies = 0], the capture 102
    gives check at [plies = 2]; [quiescence] at position 23 with
    [plies = 3] passes to [checkQuiescence], which applies the quiet king
    move 15 and recurses with [plies = 4].  Nothing in the two routines
    bounds such escapes: in a game where each of them gives check,
    [quiescence] does not return, whatever the fuel. *)
Lemma quiet_escape_at_positive_plies :
  let w := Toy.start (2 ^ 62) 0 [] in
  (forall fuel : nat,
     @quiescence Treadmill.game fuel 0%nat 0 0 (-1000) 1000 Treadmill.start = None) /\
  @qstep Toy.game (@Quiesce Toy.game 23%nat 1 3) None (@CheckQuiesce Toy.game 23%nat 1 3) /\
  @qstep Toy.game (@CheckQuiesce Toy.game 23%nat 1 3) (Some 15)
    (@Quiesce Toy.game 24%nat 0 4) /\
  @isCapture Toy.game 15 = false /\
  @isPromotion Toy.game 15 = false /\
  ~ In 15 (@getPseudoLegalCaptures Toy.game 23%nat 1 false) /\
  ~ In 15 (@getPseudoLegalPromotions Toy.game 23%nat 1) /\
  ~ (3 <= 0) /\
  (exists w', @quiescence Toy.game 2 23%nat 1 3 (-1000) 1000 w = Some (0, w') /\
              qsNodes (searchStats w') = 1) /\
  (exists w', @quiescence Toy.game 5 20%nat 0 0 (-1000) 1000 w = Some (0, w') /\
              qsNodes (searchStats w') = 4).
Proof.
  intros w.
  split; [intros fuel; apply treadmill_never_returns |].
  split; [apply (@step_inCheck Toy.game); reflexivity |].
  split; [apply (@step_escape Toy.game 23%nat 1 3 15 24%nat); [left |]; reflexivity |].
  split; [reflexivity |]. split; [reflexivity |].
  split; [intros [] |]. split; [intros [] |]. split; [lia |].
  split; eexists; (split; [vm_compute; reflexivity | reflexivity]).
Qed.

(** ** Stopping the search *)

Section Stop.
Context {E : Externals}.

(** C2, as the source has it.  A [PVS] call that, at the top of its move
    loop, finds the stop flag set, or the clock beyond the time limit
    (and then sets the flag), returns [-INFTY] at once; of the world it
    changes the clock reading and the flag only, so it stores nothing in
    the table and leaves killers and history alone.  The root routine
    that finds the flag set before a root move returns at once the index
    found so far in the interrupted iteration, leaving [bestScore] and
    [isMate] as they were; that index is -1 when the flag was set on
    entry.  [getBestMove] keeps the best move it had when the index is
    -1. *)
Theorem stop_unwinds :
  (forall (rec : PFn) b color depth beta prevAlpha staticEval isPVNode inCheck m v w,
     isStop w = true \/
     timeExceeded (getTimeElapsed (clockReads w)) (searchParams w) = true ->
     searchMove rec b color depth beta prevAlpha staticEval isPVNode inCheck m v w
     = Some (Return (- INFTY, b, lv_pvLine v), set_isStop true (tick w))) /\
  (forall (rec : PFn) b color depth beta prevAlpha staticEval isPVNode inCheck
          n i moves scores v w,
     fst (fst (nextMove moves scores i)) <> NULL_MOVE ->
     isStop w = true \/
     timeExceeded (getTimeElapsed (clockReads w)) (searchParams w) = true ->
     movesLoop rec b color depth beta prevAlpha staticEval isPVNode inCheck
       (S n) i moves scores v w
     = Some (Return (- INFTY, b, lv_pvLine v), set_isStop true (tick w))) /\
  (forall (rec : PFn) b color depth beta bestScore isMate m i v w,
     isStop w = true ->
     rootMove rec b color depth beta bestScore isMate m i v w
     = Some (Return (mkRoot (rv_tempMove v) bestScore isMate (rv_pvLine v)), w)) /\
  (forall (rec : PFn) b legalMoves depth bestScore isMate pvLine w,
     isStop w = true -> legalMoves <> [] ->
     getBestMoveAtDepth rec b legalMoves depth bestScore isMate pvLine w
     = Some (mkRoot (-1) bestScore isMate pvLine, with_params SearchParameters_reset w)) /\
  (forall fuel n b mode value legalMoves bestMove bestScore isMate rootDepth w r w',
     getBestMoveAtDepth (PVS fuel) b legalMoves rootDepth bestScore isMate [] w
     = Some (r, w') ->
     root_index r = -1 ->
     deepen fuel (S n) b mode value legalMoves bestMove bestScore isMate rootDepth w
     = Some (Next bestMove, w')).
Proof.
  assert (Hbody : forall (rec : PFn) b color depth beta prevAlpha staticEval isPVNode
                         inCheck m v w,
             isStop w = true \/
             timeExceeded (getTimeElapsed (clockReads w)) (searchParams w) = true ->
             searchMove rec b color depth beta prevAlpha staticEval isPVNode inCheck m v w
             = Some (Return (- INFTY, b, lv_pvLine v), set_isStop true (tick w))).
  { intros rec b color depth beta prevAlpha staticEval isPVNode inCheck m v w Hstop.
    unfold searchMove, bind, world, update, ret, leave.
    destruct (timeExceeded _ _) eqn:Htime.
    + reflexivity.
    + destruct Hstop as [Hstop | Hstop]; [| discriminate Hstop].
      cbn [tick isStop]. rewrite Hstop. destruct w; simpl in *; subst. reflexivity. }
  split; [exact Hbody |]. split; [| split; [| split]].
  - intros rec b color depth beta prevAlpha staticEval isPVNode inCheck
           n i moves scores v w Hm Hstop.
    cbn [movesLoop].
    destruct (nextMove moves scores i) as [[m moves'] scores']. cbn [fst] in Hm.
    destruct (Z.eqb_spec m NULL_MOVE) as [Heq | _]; [contradiction |].
    unfold bind. now rewrite Hbody.
  - intros rec b color depth beta bestScore isMate m i v w Hstop.
    unfold rootMove, bind, world, leave. now rewrite Hstop.
  - intros rec b legalMoves depth bestScore isMate pvLine w Hstop Hne.
    destruct legalMoves as [|m ms]; [congruence |].
    unfold getBestMoveAtDepth, routine, bind, update. cbn [rootLoop].
    unfold bind, rootMove, bind, world, leave. cbn [with_params isStop].
    now rewrite Hstop.
  - intros fuel n b mode value legalMoves bestMove bestScore isMate rootDepth w r w'
           Hrun Hidx.
    cbn [deepen]. unfold bind, call. rewrite Hrun, Hidx. reflexivity.
Qed.

End Stop.

(** [stop_unwinds] at position 1 with the clock past the limit, and at
    the root 30 with the flag set. *)
Lemma stop_unwinds_witness :
  let w := Toy.start 1000 5 [] in
  @timeExceeded Toy.game (@getTimeElapsed Toy.game (clockReads w)) (searchParams w) = true /\
  @searchMove Toy.game (PVS 1) 1%nat 1 1 100 (-100) 0 true false 11
    (mkLoop (-100) 0 0 (-32767) [] []) w
  = Some (Return (-32767, 1%nat, []), set_isStop true (tick w)) /\
  @getBestMoveAtDepth Toy.game (PVS 1) 30%nat [31; 32] 2 0 false [] (set_isStop true w)
  = Some (mkRoot (-1) 0 false [],
          with_params (@SearchParameters_reset Toy.game) (set_isStop true w)).
Proof.
  intros w. split; [reflexivity |]. split.
  - apply (proj1 (@stop_unwinds Toy.game)). right. reflexivity.
  - apply (proj1 (proj2 (proj2 (proj2 (@stop_unwinds Toy.game))))); [reflexivity | discriminate].
Defined.

(** C2 as stated fails in the enclosing call and at the root.  At
    position 0 (depth 2, window (-100, 100)) the first poll of the clock
    is in time and the second, made by the child at position 1, is not:
    the child returns [-INFTY]; the parent takes the negated value as a
    fail-high, stores a cut-node for move 10, records the killer and the
    history and returns [beta].  At the root 30 the first iteration
    completes with move 31 as the best move; the second is interrupted
    while move 32 is searched, and [getBestMove] reports depth 2 and
    answers with move 32. *)
Lemma aborted_child_is_not_discarded :
  let w := Toy.start 1000 4 [] in
  (exists w1,
     @PVS Toy.game 2 1%nat 1 1 (-100) 100 []
        (with_params (fun p => set_ply (ply p + 1) p)
           (with_stats inc_nodes (tick (with_stats inc_hashProbes w))))
     = Some (-32767, 1%nat, [], w1) /\ isStop w1 = true) /\
  (exists w',
     @PVS Toy.game 3 0%nat 0 2 (-100) 100 [] w = Some (100, 0%nat, [], w') /\
     transpositionTable w' = [(0%nat, mkEntry 100 2 10 CUT_NODE)] /\
     nth 0 (killers (searchParams w')) (0, 0) = (10, 0) /\
     history (searchParams w') 0 0 10 = 4) /\
  (exists w',
     @getBestMove Toy.game 4 4 30%nat TIME 1000 0 (Toy.start 0 3 []) = Some (32, w') /\
     infoDepths (output w') = [1; 2] /\
     nth 0 (output w') (BestMoveLine String.EmptyString)
     = InfoLine 1 0 0 2 (Toy.moveName 31)).
Proof.
  intros w. split; [| split].
  - eexists. split; [vm_compute; reflexivity | reflexivity].
  - eexists. split; [vm_compute; reflexivity |]. repeat split.
  - eexists. split; [vm_compute; reflexivity |]. split; reflexivity.
Qed.

(** ** What a search keeps: rules *)

Section KeepRules.
Context {E : Externals}.
Variable Rel : World -> World -> Prop.
Hypothesis Rrefl : forall w, Rel w w.
Hypothesis Rtrans : forall w1 w2 w3, Rel w1 w2 -> Rel w2 w3 -> Rel w1 w3.

Lemma keeps_ret {R A} (a : A) : keeps Rel (ret a : M R A).
Proof. intros w f w' H. inversion H. apply Rrefl. Qed.

Lemma keeps_leave {R A} (r : R) : keeps Rel (leave r : M R A).
Proof. intros w f w' H. inversion H. apply Rrefl. Qed.

Lemma keeps_world {R} : keeps Rel (world : M R World).
Proof. intros w f w' H. inversion H. apply Rrefl. Qed.

Lemma keeps_update {R} (f : World -> World) :
  (forall w, Rel w (f w)) -> keeps Rel (update f : M R unit).
Proof. intros Hf w x w' H. inversion H. apply Hf. Qed.

Lemma keeps_call {R A} (f : Fn A) : fnKeeps Rel f -> keeps Rel (call f : M R A).
Proof.
  intros Hf w x w' H. unfold call in H.
  destruct (f w) as [[a w1]|] eqn:Hfw; [|discriminate].
  inversion H; subst. eapply Hf, Hfw.
Qed.

Lemma keeps_bind {R A B} (m : M R A) (f : A -> M R B) :
  keeps Rel m -> (forall a, keeps Rel (f a)) -> keeps Rel (bind m f).
Proof.
  intros Hm Hf w x w' H. unfold bind in H.
  destruct (m w) as [[[r|a] w1]|] eqn:Hmw; [| |discriminate].
  - inversion H; subst. eapply Hm, Hmw.
  - eapply Rtrans; [eapply Hm, Hmw | eapply Hf, H].
Qed.

Lemma keeps_routine {R} (m : M R R) : keeps Rel m -> fnKeeps Rel (routine m).
Proof.
  intros Hm w a w' H. unfold routine in H.
  destruct (m w) as [[[r|r] w1]|] eqn:Hmw; [| |discriminate];
    inversion H; subst; eapply Hm, Hmw.
Qed.

(** [keeps] binds a world at its start the way [world] does. *)
Lemma keeps_from {R A} (m : M R A) :
  (forall w0, forall f w', m w0 = Some (f, w') -> Rel w0 w') -> keeps Rel m.
Proof. intros H w f w'. apply H. Qed.

End KeepRules.

(** One step through a routine body: [leaf] settles the writes and the
    calls. *)
Ltac keep_step R T leaf :=
  first
    [ leaf
    | apply (keeps_bind _ T); [| intros ?]
    | apply (keeps_ret _ R)
    | apply (keeps_leave _ R)
    | apply (keeps_world _ R)
    | apply keeps_update; intros ?; leaf
    | apply keeps_call; leaf
    | match goal with
      | |- keeps _ (match ?x with _ => _ end) => destruct x eqn:?
      end ];
  cbv beta.

Ltac keep_steps R T leaf := repeat (keep_step R T leaf).

(** ** The quiescence search writes counters only *)

Section QuiescenceFrame.
Context {E : Externals}.
Variable Rel : World -> World -> Prop.
Hypothesis Rrefl : forall w, Rel w w.
Hypothesis Rtrans : forall w1 w2 w3, Rel w1 w2 -> Rel w2 w3 -> Rel w1 w3.
Hypothesis Rstats : forall f, In f quiescenceCounters -> forall w, Rel w (with_stats f w).

Lemma keeps_qsSearched (search : QFn) copy color plies beta alpha j :
  qKeeps Rel search -> keeps Rel (qsSearched search copy color plies beta alpha j).
Proof.
  intros Hs. unfold qsSearched.
  keep_steps Rrefl Rtrans
    ltac:(first [apply Rstats; unfold quiescenceCounters; cbn; tauto | apply Hs]).
Qed.

Lemma keeps_escapesLoop (rec : QFn) b color plies beta ms :
  qKeeps Rel rec ->
  forall score alpha j, keeps Rel (escapesLoop rec b color plies beta ms score alpha j).
Proof.
  intros Hs. induction ms as [|m ms IH]; intros score alpha j; cbn [escapesLoop].
  - apply (keeps_ret _ Rrefl).
  - destruct (doPseudoLegalMove b m color); [|apply IH].
    apply (keeps_bind _ Rtrans); [apply keeps_qsSearched, Hs|].
    intros [[s a] j']. apply IH.
Qed.

Lemma keeps_checkQuiescence_body (rec : QFn) b color plies alpha beta :
  qKeeps Rel rec -> keeps Rel (checkQuiescence_body rec b color plies alpha beta).
Proof.
  intros Hs. unfold checkQuiescence_body.
  apply (keeps_bind _ Rtrans); [apply keeps_escapesLoop, Hs|].
  intros [s a]. keep_steps Rrefl Rtrans fail.
Qed.

Lemma keeps_capturesLoop (rec : QFn) b color plies beta standPat :
  qKeeps Rel rec ->
  forall n i moves scores alpha j,
    keeps Rel (capturesLoop rec b color plies beta standPat n i moves scores alpha j).
Proof.
  intros Hs. induction n as [|n IH]; intros i moves scores alpha j; cbn [capturesLoop];
    destruct (nextMove moves scores i) as [[m moves'] scores'];
    destruct (m =? NULL_MOVE); try apply (keeps_ret _ Rrefl).
  repeat match goal with
         | |- keeps _ (if ?c then _ else _) => destruct c
         | |- keeps _ (match ?x with _ => _ end) => destruct x
         end; try apply IH.
  apply (keeps_bind _ Rtrans); [apply keeps_qsSearched, Hs|].
  intros [[s a] j']. apply IH.
Qed.

Lemma keeps_promotionsLoop (rec : QFn) b color plies beta ms :
  qKeeps Rel rec ->
  forall alpha j, keeps Rel (promotionsLoop rec b color plies beta ms alpha j).
Proof.
  intros Hs. induction ms as [|m ms IH]; intros alpha j; cbn [promotionsLoop].
  - apply (keeps_ret _ Rrefl).
  - destruct (getSEE b color (getEndSq m) <? 0); [apply IH|].
    destruct (doPseudoLegalMove b m color); [|apply IH].
    apply (keeps_bind _ Rtrans); [apply keeps_qsSearched, Hs|].
    intros [[s a] j']. apply IH.
Qed.

Lemma keeps_checksLoop (check : QFn) b color plies beta ms :
  qKeeps Rel check ->
  forall alpha j, keeps Rel (checksLoop check b color plies beta ms alpha j).
Proof.
  intros Hs. induction ms as [|m ms IH]; intros alpha j; cbn [checksLoop].
  - apply (keeps_ret _ Rrefl).
  - destruct (doPseudoLegalMove b m color); [|apply IH].
    apply (keeps_bind _ Rtrans); [apply keeps_qsSearched, Hs|].
    intros [[s a] j']. apply IH.
Qed.

Lemma keeps_quiescence_body (rec : QFn) b color plies alpha beta :
  qKeeps Rel rec -> keeps Rel (quiescence_body rec b color plies alpha beta).
Proof.
  intros Hs.
  assert (Hcheck : qKeeps Rel (fun b c p a bt => routine (checkQuiescence_body rec b c p a bt))).
  { intros b' c' p' a' bt'. apply keeps_routine, keeps_checkQuiescence_body, Hs. }
  unfold quiescence_body.
  destruct (isInCheck b color).
  { apply (keeps_bind _ Rtrans); [apply keeps_call, Hcheck|].
    intros r. apply (keeps_leave _ Rrefl). }
  repeat match goal with
         | |- keeps _ (if ?c then _ else _) => destruct c; try apply (keeps_leave _ Rrefl)
         end.
  apply (keeps_bind _ Rtrans); [apply keeps_capturesLoop, Hs|]. intros [a j].
  apply (keeps_bind _ Rtrans); [apply keeps_promotionsLoop, Hs|]. intros [a' j'].
  apply (keeps_bind _ Rtrans).
  - destruct (plies <=? 0); [apply keeps_checksLoop, Hcheck | apply (keeps_ret _ Rrefl)].
  - intros [a'' j'']. apply (keeps_ret _ Rrefl).
Qed.

Lemma keeps_quiescence (fuel : nat) : qKeeps Rel (quiescence fuel).
Proof.
  induction fuel as [|n IH]; intros b color plies alpha beta.
  - intros w a w' H. discriminate.
  - cbn [quiescence]. apply keeps_routine, keeps_quiescence_body, IH.
Qed.

Lemma keeps_checkQuiescence (fuel : nat) : qKeeps Rel (checkQuiescence fuel).
Proof.
  intros b color plies alpha beta. unfold checkQuiescence.
  apply keeps_routine, keeps_checkQuiescence_body, keeps_quiescence.
Qed.

End QuiescenceFrame.

(** ** Every write of the principal variation search *)

Ltac frame_leaf F :=
  first
    [ apply (frame_stats _ F)
    | apply (frame_tick _ F)
    | apply (frame_stop _ F)
    | apply (frame_diagnostic _ F)
    | apply (frame_history _ F)
    | apply (frame_killer _ F); assumption
    | apply (frame_store _ F);
      [ assumption | split; [ discriminate | intros; contradiction ] ] ].

Section PVSFrame.
Context {E : Externals}.
Variable Rel : World -> World -> Prop.
Hypothesis F : Frame Rel.

Let Rrefl := frame_refl _ F.
Let Rtrans := frame_trans _ F.

Lemma keeps_searchChild {R} (rec : PFn) copy color depth alpha beta line :
  pKeeps Rel rec ->
  keeps Rel (searchChild rec copy color depth alpha beta line : M R _).
Proof.
  intros Hrec w f w' H. unfold searchChild, bind, update, call, ret in H.
  destruct (rec copy (Z.lxor color 1) depth alpha beta line _) as [[[[r c] l] w1]|] eqn:Hc;
    [|discriminate].
  inversion H; subst. apply (frame_ply _ F). eapply Hrec, Hc.
Qed.

Lemma keeps_probeEntry (rec : PFn) b color hashed depth alpha beta pvLine entry :
  pKeeps Rel rec ->
  keeps Rel (probeEntry rec b color hashed depth alpha beta pvLine entry).
Proof.
  intros Hrec. unfold probeEntry.
  keep_steps Rrefl Rtrans ltac:(first [frame_leaf F | apply keeps_searchChild, Hrec]).
Qed.

Lemma keeps_probeTT (rec : PFn) b color hashed depth alpha beta pvLine :
  pKeeps Rel rec ->
  fnKeeps Rel (probeTT rec b color hashed depth alpha beta pvLine).
Proof.
  intros Hrec. apply keeps_routine. unfold probeTT_body.
  keep_steps Rrefl Rtrans ltac:(first [frame_leaf F | apply keeps_probeEntry, Hrec]).
Qed.

Lemma keeps_sortLoop (rec : PFn) b color depth beta ms :
  pKeeps Rel rec ->
  forall i alpha tempMove line,
    keeps Rel (sortLoop rec b color depth beta ms i alpha tempMove line).
Proof.
  intros Hrec. induction ms as [|m ms IH]; intros i alpha tempMove line; cbn [sortLoop].
  - apply (keeps_ret _ Rrefl).
  - keep_steps Rrefl Rtrans
      ltac:(first [apply IH | frame_leaf F | apply keeps_searchChild, Hrec]).
Qed.

Lemma keeps_getBestMoveForSort (rec : PFn) b legalMoves depth :
  pKeeps Rel rec -> fnKeeps Rel (getBestMoveForSort rec b legalMoves depth).
Proof. intros Hrec. apply keeps_routine, keeps_sortLoop, Hrec. Qed.

Lemma keeps_nullMovePruning (rec : PFn) b color depth alpha beta isPVNode inCheck
    staticEval pvLine line :
  pKeeps Rel rec ->
  keeps Rel (nullMovePruning rec b color depth alpha beta isPVNode inCheck
               staticEval pvLine line).
Proof.
  intros Hrec w f w' H. unfold nullMovePruning, bind at 1, world in H.
  destruct (nullMoveCondition _ _ _ _ _ _ _); [|inversion H; apply Rrefl].
  unfold bind at 1, update in H. unfold bind at 1 in H.
  destruct (searchChild _ _ _ _ _ _ _ _) as [[[r|[[s c] l]] w1]|] eqn:Hc; [| |discriminate].
  - unfold searchChild, bind, update, call, ret in Hc.
    destruct (rec _ _ _ _ _ _ _) as [[[[? ?] ?] ?]|]; discriminate.
  - apply keeps_searchChild in Hc; [|exact Hrec].
    unfold bind, update in H.
    destruct (s >=? beta); inversion H; subst; apply (frame_nullMoves _ F), Hc.
Qed.

Lemma keeps_searchMove (rec : PFn) b color depth beta prevAlpha staticEval
    isPVNode inCheck m v :
  pKeeps Rel rec -> 0 < depth -> m <> NULL_MOVE ->
  keeps Rel (searchMove rec b color depth beta prevAlpha staticEval isPVNode inCheck m v).
Proof.
  intros Hrec Hd Hm. unfold searchMove.
  keep_steps Rrefl Rtrans ltac:(first [frame_leaf F | apply keeps_searchChild, Hrec]).
Qed.

Lemma keeps_movesLoop (rec : PFn) b color depth beta prevAlpha staticEval isPVNode inCheck :
  pKeeps Rel rec -> 0 < depth ->
  forall n i moves scores v,
    keeps Rel (movesLoop rec b color depth beta prevAlpha staticEval isPVNode inCheck
                 n i moves scores v).
Proof.
  intros Hrec Hd. induction n as [|n IH]; intros i moves scores v; cbn [movesLoop];
    destruct (nextMove moves scores i) as [[m moves'] scores'];
    destruct (Z.eqb_spec m NULL_MOVE) as [|Hm]; try apply (keeps_ret _ Rrefl).
  apply (keeps_bind _ Rtrans); [apply keeps_searchMove; assumption|].
  intros v'. apply IH.
Qed.

Lemma keeps_orderMoves (rec : PFn) b color depth alpha beta isPVNode inCheck hashed
    pvLine legalMoves :
  pKeeps Rel rec ->
  keeps Rel (orderMoves rec b color depth alpha beta isPVNode inCheck hashed pvLine
               legalMoves).
Proof.
  intros Hrec. unfold orderMoves.
  keep_steps Rrefl Rtrans
    ltac:(first [frame_leaf F | apply keeps_getBestMoveForSort, Hrec]).
Qed.

Lemma keeps_finishNode b color depth beta prevAlpha inCheck v :
  0 < depth -> keeps Rel (finishNode b color depth beta prevAlpha inCheck v).
Proof.
  intros Hd. unfold finishNode.
  destruct (lv_score v =? - INFTY); [keep_steps Rrefl Rtrans fail|].
  apply (keeps_bind _ Rtrans); [|intros; apply (keeps_ret _ Rrefl)].
  destruct (Z.eqb_spec (lv_toHash v) NULL_MOVE) as [Hn|Hn]; cbn [negb andb].
  - destruct (lv_alpha v <=? prevAlpha); [|apply (keeps_ret _ Rrefl)].
    apply keeps_update. intros w. apply (frame_store _ F); [assumption|]. split; reflexivity.
  - destruct ((prevAlpha <? lv_alpha v) && (lv_alpha v <? beta)).
    + keep_steps Rrefl Rtrans ltac:(frame_leaf F).
    + destruct (lv_alpha v <=? prevAlpha); [|apply (keeps_ret _ Rrefl)].
      apply keeps_update. intros w. apply (frame_store _ F); [assumption|]. split; reflexivity.
Qed.

Lemma keeps_searchMoves (rec : PFn) b color depth alpha beta prevAlpha staticEval
    isPVNode inCheck hashed pvLine line :
  pKeeps Rel rec -> 0 < depth ->
  keeps Rel (searchMoves rec b color depth alpha beta prevAlpha staticEval
               isPVNode inCheck hashed pvLine line).
Proof.
  intros Hrec Hd. unfold searchMoves.
  keep_steps Rrefl Rtrans
    ltac:(first [ apply keeps_orderMoves, Hrec
                | apply keeps_movesLoop; assumption
                | apply keeps_finishNode; assumption ]).
Qed.

Lemma keeps_PVS_body (qs : QFn) (rec : PFn) b color depth alpha beta pvLine :
  qKeeps Rel qs -> pKeeps Rel rec ->
  keeps Rel (PVS_body qs rec b color depth alpha beta pvLine).
Proof.
  intros Hqs Hrec. unfold PVS_body.
  destruct (Z.leb_spec depth 0) as [|Hd].
  { keep_steps Rrefl Rtrans ltac:(apply Hqs). }
  keep_steps Rrefl Rtrans
    ltac:(first [ frame_leaf F
                | apply keeps_probeTT, Hrec
                | apply keeps_nullMovePruning, Hrec
                | apply keeps_searchMoves; assumption ]).
Qed.

Lemma keeps_PVS (fuel : nat) : pKeeps Rel (PVS fuel).
Proof.
  induction fuel as [|n IH]; intros b color depth alpha beta line.
  - intros w a w' H. discriminate.
  - cbn [PVS]. apply keeps_routine, keeps_PVS_body; [|exact IH].
    apply (keeps_quiescence _ Rrefl Rtrans (fun f _ => frame_stats _ F f)).
Qed.

Lemma keeps_rootMove (rec : PFn) b color depth beta bestScore isMate m i v :
  pKeeps Rel rec ->
  keeps Rel (rootMove rec b color depth beta bestScore isMate m i v).
Proof.
  intros Hrec. unfold rootMove.
  keep_steps Rrefl Rtrans ltac:(first [frame_leaf F | apply keeps_searchChild, Hrec]).
Qed.

Lemma keeps_rootLoop (rec : PFn) b color depth beta bestScore isMate ms :
  pKeeps Rel rec ->
  forall i v, keeps Rel (rootLoop rec b color depth beta bestScore isMate ms i v).
Proof.
  intros Hrec. induction ms as [|m ms IH]; intros i v; cbn [rootLoop].
  - apply (keeps_ret _ Rrefl).
  - apply (keeps_bind _ Rtrans); [apply keeps_rootMove, Hrec | intros; apply IH].
Qed.

End PVSFrame.

(** ** Relations every write respects *)

Section FrameInstances.
Context {E : Externals}.

Lemma recordKiller_fields m p :
  ply (recordKiller m p) = ply p /\
  nullMoveCount (recordKiller m p) = nullMoveCount p /\
  timeLimit (recordKiller m p) = timeLimit p /\
  historyTable (recordKiller m p) = historyTable p /\
  rootMoveNumber (recordKiller m p) = rootMoveNumber p /\
  length (killers (recordKiller m p)) = length (killers p).
Proof.
  unfold recordKiller. destruct (m =? killer p 0); cbn; repeat split.
  apply set_nth_length.
Qed.

Lemma samePly_frame : Frame samePly.
Proof.
  constructor; unfold samePly.
  - intros w. split; reflexivity.
  - intros w1 w2 w3 [H1 H2] [H3 H4]. split; congruence.
  - intros f w. split; reflexivity.
  - intros w. split; reflexivity.
  - intros w. split; reflexivity.
  - intros s w. split; reflexivity.
  - intros w b depth m score nt _ _. split; reflexivity.
  - intros m w _. cbn. destruct (recordKiller_fields m (searchParams w)) as (H1 & H2 & _).
    split; assumption.
  - intros c pc sq d w. split; reflexivity.
  - intros w w' [H1 H2]. cbn in *. split; [lia | assumption].
  - intros w w' [H1 H2]. cbn in *. split; [assumption | lia].
Qed.

Lemma onlyStats_refl w : onlyStats w w.
Proof. unfold onlyStats. repeat split. Qed.

Lemma onlyStats_trans w1 w2 w3 : onlyStats w1 w2 -> onlyStats w2 w3 -> onlyStats w1 w3.
Proof. unfold onlyStats. intros (?&?&?&?&?) (?&?&?&?&?). repeat split; congruence. Qed.

Lemma onlyStats_stats f w : onlyStats w (with_stats f w).
Proof. unfold onlyStats. repeat split. Qed.

Lemma mainCountersKept_refl w : mainCountersKept w w.
Proof. unfold mainCountersKept. repeat split. Qed.

Lemma mainCountersKept_trans w1 w2 w3 :
  mainCountersKept w1 w2 -> mainCountersKept w2 w3 -> mainCountersKept w1 w3.
Proof.
  unfold mainCountersKept. intros (?&?&?&?&?&?&?) (?&?&?&?&?&?&?).
  repeat split; congruence.
Qed.

Lemma mainCountersKept_quiescence f :
  In f quiescenceCounters -> forall w, mainCountersKept w (with_stats f w).
Proof.
  intros [<- | [<- | [<- | [<- | []]]]] w; unfold mainCountersKept; repeat split.
Qed.

Lemma Forall_set_nth {A} (P : A -> Prop) (l : list A) i x :
  Forall P l -> P x -> Forall P (set_nth i x l).
Proof.
  intros Hl Hx. revert i. induction Hl as [|h t Hh Ht IH]; intros [|i]; cbn;
    constructor; auto.
Qed.

Lemma Forall_nth_default {A} (P : A -> Prop) (l : list A) i d :
  Forall P l -> P d -> P (nth i l d).
Proof.
  intros Hl Hd. revert i. induction Hl as [|h t Hh Ht IH]; intros [|i]; cbn; auto.
Qed.

Lemma recordKiller_distinct m p : killersDistinct p -> killersDistinct (recordKiller m p).
Proof.
  unfold killersDistinct, recordKiller. intros H.
  destruct (Z.eqb_spec m (killer p 0)) as [|Hne]; [exact H|]. cbn.
  apply Forall_set_nth; [exact H|]. left. exact Hne.
Qed.

Lemma killersDistinct_frame : Frame (preserves killersDistinct).
Proof.
  constructor; unfold preserves; try (intros; cbn in *; assumption); try solve [cbn; auto].
  intros m w _. cbn. apply recordKiller_distinct.
Qed.

Lemma add_history_nonneg c pc sq d p :
  0 <= d -> historyNonNegative p -> historyNonNegative (add_history c pc sq d p).
Proof.
  unfold historyNonNegative, add_history. intros Hd H. cbn.
  assert (Hc : Forall (Forall (fun v : Z => 0 <= v)) (nth (Z.to_nat c) (historyTable p) [])).
  { apply Forall_nth_default; [exact H | constructor]. }
  assert (Hp : Forall (fun v : Z => 0 <= v)
                 (nth (Z.to_nat pc) (nth (Z.to_nat c) (historyTable p) []) [])).
  { apply Forall_nth_default; [exact Hc | constructor]. }
  assert (Hv : 0 <= nth (Z.to_nat sq)
                      (nth (Z.to_nat pc) (nth (Z.to_nat c) (historyTable p) []) []) 0).
  { apply (Forall_nth_default (fun v : Z => 0 <= v)); [exact Hp | lia]. }
  repeat apply Forall_set_nth; try assumption. lia.
Qed.

Lemma historyNonNegative_frame : Frame (preserves historyNonNegative).
Proof.
  constructor; unfold preserves; try (intros; cbn in *; assumption); try solve [cbn; auto].
  - intros m w _. cbn. unfold historyNonNegative.
    destruct (recordKiller_fields m (searchParams w)) as (_ & _ & _ & Hh & _).
    now rewrite Hh.
  - intros c pc sq d w. cbn. apply add_history_nonneg. nia.
Qed.

Lemma storedOnto_trans age t1 t2 t3 :
  storedOnto age t1 t2 -> storedOnto age t2 t3 -> storedOnto age t1 t3.
Proof.
  intros H12 H23. induction H23 as [|t' b depth m score nt H IH Hd Hnt]; [exact H12|].
  apply stored_entry; assumption.
Qed.

Lemma storesEntries_frame : Frame storesEntries.
Proof.
  constructor; unfold storesEntries;
    try (intros; cbn; split; [reflexivity | apply stored_nothing]).
  - intros w1 w2 w3 [H1 H2] [H3 H4]. split; [congruence|].
    rewrite H1 in H4. eapply storedOnto_trans; eassumption.
  - intros w b depth m score nt Hd Hnt. cbn. split; [reflexivity|].
    apply stored_entry; [apply stored_nothing | assumption | assumption].
  - intros m w _. cbn.
    destruct (recordKiller_fields m (searchParams w)) as (_ & _ & _ & _ & Hr & _).
    split; [assumption | apply stored_nothing].
  - intros w w' [H1 H2]. cbn in *. split; assumption.
  - intros w w' [H1 H2]. cbn in *. split; assumption.
Qed.

Lemma settingsKept_refl w : settingsKept w w.
Proof.
  unfold settingsKept. repeat split; auto. exists []. split; [now rewrite app_nil_r|].
  constructor.
Qed.

Lemma settingsKept_frame : Frame settingsKept.
Proof.
  assert (Hsilent : forall w w',
             timeLimit (searchParams w') = timeLimit (searchParams w) ->
             rootMoveNumber (searchParams w') = rootMoveNumber (searchParams w) ->
             length (killers (searchParams w')) = length (killers (searchParams w)) ->
             (isStop w = true -> isStop w' = true) ->
             (clockReads w <= clockReads w')%nat ->
             output w' = output w -> settingsKept w w').
  { intros w w' H1 H2 H3 H4 H5 H6. unfold settingsKept. repeat split; auto.
    exists []. split; [now rewrite app_nil_r | constructor]. }
  constructor.
  - apply settingsKept_refl.
  - intros w1 w2 w3 (H1 & H2 & H3 & H4 & H5 & l & H6 & H7)
                    (G1 & G2 & G3 & G4 & G5 & l' & G6 & G7).
    unfold settingsKept. repeat split; try congruence; auto; try lia.
    exists (l ++ l'). split; [rewrite G6, H6, app_assoc; reflexivity|].
    apply Forall_app. split; assumption.
  - intros f w. apply Hsilent; cbn; auto.
  - intros w. apply Hsilent; cbn; auto.
  - intros w. apply Hsilent; cbn; auto.
  - intros s w. unfold settingsKept. cbn. repeat split; auto.
    exists [Type1Error s]. split; [reflexivity|].
    constructor; [exists s; reflexivity | constructor].
  - intros w b depth m score nt _ _. apply Hsilent; cbn; auto.
  - intros m w _.
    destruct (recordKiller_fields m (searchParams w)) as (_ & _ & Ht & _ & Hr & Hl).
    apply Hsilent; cbn; auto.
  - intros c pc sq d w. apply Hsilent; cbn; auto.
  - intros w w' (H1 & H2 & H3 & H4 & H5 & l & H6 & H7). unfold settingsKept. cbn in *.
    repeat split; auto. exists l. split; assumption.
  - intros w w' (H1 & H2 & H3 & H4 & H5 & l & H6 & H7). unfold settingsKept. cbn in *.
    repeat split; auto. exists l. split; assumption.
Qed.

End FrameInstances.

(** ** What a call of the search leaves behind *)

Section SearchFrames.
Context {E : Externals}.

(** X1.  A call of [PVS] that returns leaves [searchParams.ply] and
    [searchParams.nullMoveCount] as it found them: every [ply++] and
    [nullMoveCount++] is undone on the way back, also when the search is
    stopped half-way and unwinds through the early returns. *)
Theorem PVS_restores_ply :
  forall (fuel : nat) (b : Board) (color depth alpha beta : Z) (pvLine : SearchPV)
         (w w' : World) (r : Z * Board * SearchPV),
    PVS fuel b color depth alpha beta pvLine w = Some (r, w') ->
    ply (searchParams w') = ply (searchParams w) /\
    nullMoveCount (searchParams w') = nullMoveCount (searchParams w).
Proof.
  intros fuel b color depth alpha beta pvLine w w' r Hrun.
  exact (keeps_PVS samePly samePly_frame fuel b color depth alpha beta pvLine w r w' Hrun).
Qed.

(** X2.  The quiescence search writes nothing but four statistics
    counters, [nodes], [qsNodes], [qsFailHighs] and [qsFirstFailHighs]:
    after [quiescence] or [checkQuiescence] the search parameters (ply,
    killers, history, time limit), the transposition table, the stop
    flag, the clock readings, the output and the counters of the main
    search are what they were.  In particular it never polls the clock
    and never stores into the table. *)
Theorem quiescence_writes_counters_only :
  forall (fuel : nat) (b : Board) (color plies alpha beta : Z) (w w' : World) (r : Z),
    quiescence fuel b color plies alpha beta w = Some (r, w') \/
    checkQuiescence fuel b color plies alpha beta w = Some (r, w') ->
    (searchParams w' = searchParams w /\ transpositionTable w' = transpositionTable w /\
     isStop w' = isStop w /\ clockReads w' = clockReads w /\ output w' = output w) /\
    (hashProbes (searchStats w') = hashProbes (searchStats w) /\
     hashHits (searchStats w') = hashHits (searchStats w) /\
     hashScoreCuts (searchStats w') = hashScoreCuts (searchStats w) /\
     hashMoveAttempts (searchStats w') = hashMoveAttempts (searchStats w) /\
     hashMoveCuts (searchStats w') = hashMoveCuts (searchStats w) /\
     failHighs (searchStats w') = failHighs (searchStats w) /\
     firstFailHighs (searchStats w') = firstFailHighs (searchStats w)).
Proof.
  intros fuel b color plies alpha beta w w' r [Hrun | Hrun]; split.
  - exact (keeps_quiescence onlyStats onlyStats_refl onlyStats_trans
             (fun f _ => onlyStats_stats f) fuel b color plies alpha beta w r w' Hrun).
  - exact (keeps_quiescence mainCountersKept mainCountersKept_refl mainCountersKept_trans
             mainCountersKept_quiescence fuel b color plies alpha beta w r w' Hrun).
  - exact (keeps_checkQuiescence onlyStats onlyStats_refl onlyStats_trans
             (fun f _ => onlyStats_stats f) fuel b color plies alpha beta w r w' Hrun).
  - exact (keeps_checkQuiescence mainCountersKept mainCountersKept_refl
             mainCountersKept_trans mainCountersKept_quiescence
             fuel b color plies alpha beta w r w' Hrun).
Qed.

(** X3.  [PVS] only adds to the transposition table, and every entry it
    adds is stored at a positive depth, carries the age
    [searchParams.rootMoveNumber] of the search, and holds the null move
    exactly when it is an all-node: cut-nodes and PV-nodes always come
    with the move that raised the score.  The age itself is not changed. *)
Theorem PVS_stores_entries :
  forall (fuel : nat) (b : Board) (color depth alpha beta : Z) (pvLine : SearchPV)
         (w w' : World) (r : Z * Board * SearchPV),
    PVS fuel b color depth alpha beta pvLine w = Some (r, w') ->
    rootMoveNumber (searchParams w') = rootMoveNumber (searchParams w) /\
    storedOnto (rootMoveNumber (searchParams w))
      (transpositionTable w) (transpositionTable w').
Proof.
  intros fuel b color depth alpha beta pvLine w w' r Hrun.
  exact (keeps_PVS storesEntries storesEntries_frame
           fuel b color depth alpha beta pvLine w r w' Hrun).
Qed.

(** X4.  [PVS] never clears the stop flag, never changes the time limit
    or the size of the killer table, reads the clock forward only, and
    the only lines it writes are the diagnostics of [probeTT] for a hash
    move that cannot be played: no [info] and no [bestmove] line comes
    from inside the tree search. *)
Theorem PVS_keeps_settings :
  forall (fuel : nat) (b : Board) (color depth alpha beta : Z) (pvLine : SearchPV)
         (w w' : World) (r : Z * Board * SearchPV),
    PVS fuel b color depth alpha beta pvLine w = Some (r, w') ->
    timeLimit (searchParams w') = timeLimit (searchParams w) /\
    length (killers (searchParams w')) = length (killers (searchParams w)) /\
    (isStop w = true -> isStop w' = true) /\
    (clockReads w <= clockReads w')%nat /\
    exists l, output w' = output w ++ l /\
              Forall (fun o => exists s, o = Type1Error s) l.
Proof.
  intros fuel b color depth alpha beta pvLine w w' r Hrun.
  destruct (keeps_PVS settingsKept settingsKept_frame
              fuel b color depth alpha beta pvLine w r w' Hrun)
    as (H1 & _ & H3 & H4 & H5 & H6).
  repeat split; assumption.
Qed.

End SearchFrames.

(** *** On the small game tree *)

(** [PVS_restores_ply] at the root 30, depth 2, window (-100, 100). *)
Lemma PVS_restores_ply_witness :
  let w := Toy.start (2 ^ 62) 0 [] in
  exists r w',
    @PVS Toy.game 4 30%nat 0 2 (-100) 100 [] w = Some (r, w') /\
    ply (searchParams w') = 0 /\ nullMoveCount (searchParams w') = 0.
Proof.
  intros w.
  destruct (@PVS Toy.game 4 30%nat 0 2 (-100) 100 [] w) as [[r w'] |] eqn:Hrun;
    [| vm_compute in Hrun; discriminate Hrun].
  exists r, w'. split; [reflexivity |].
  exact (@PVS_restores_ply Toy.game 4 30%nat 0 2 (-100) 100 [] w w' r Hrun).
Defined.

(** [quiescence_writes_counters_only] at position 20, where the capture
    101 and the escape 14 are searched. *)
Lemma quiescence_writes_counters_only_witness :
  let w := Toy.start (2 ^ 62) 0 [] in
  exists r w',
    @quiescence Toy.game 6 20%nat 0 0 (-100) 100 w = Some (r, w') /\
    nodes (searchStats w') = 4 /\
    searchParams w' = searchParams w /\ transpositionTable w' = [] /\
    isStop w' = false /\ clockReads w' = 0%nat /\ output w' = [] /\
    hashProbes (searchStats w') = 0 /\ failHighs (searchStats w') = 0.
Proof.
  intros w.
  destruct (@quiescence Toy.game 6 20%nat 0 0 (-100) 100 w) as [[r w'] |] eqn:Hrun;
    [| vm_compute in Hrun; discriminate Hrun].
  exists r, w'. split; [reflexivity |].
  split; [vm_compute in Hrun; inversion Hrun; reflexivity |].
  destruct (@quiescence_writes_counters_only Toy.game 6 20%nat 0 0 (-100) 100 w w' r
              (or_introl Hrun))
    as [(H1 & H2 & H3 & H4 & H5) (G1 & _ & _ & _ & _ & G6 & _)].
  repeat split; assumption.
Defined.

(** [PVS_stores_entries] at the root 30, depth 2: the cut-node of
    position 1 with move 11 and the PV-node of the root with move 31. *)
Lemma PVS_stores_entries_witness :
  let w := Toy.start (2 ^ 62) 0 [] in
  exists r w',
    @PVS Toy.game 4 30%nat 0 2 (-100) 100 [] w = Some (r, w') /\
    rootMoveNumber (searchParams w') = 0 /\
    @storedOnto Toy.game 0 [] (transpositionTable w').
Proof.
  intros w.
  destruct (@PVS Toy.game 4 30%nat 0 2 (-100) 100 [] w) as [[r w'] |] eqn:Hrun;
    [| vm_compute in Hrun; discriminate Hrun].
  exists r, w'. split; [reflexivity |].
  exact (@PVS_stores_entries Toy.game 4 30%nat 0 2 (-100) 100 [] w w' r Hrun).
Defined.

(** [PVS_keeps_settings] at position 4, whose table entry holds the move
    99 that cannot be played: the one line written is the diagnostic. *)
Lemma PVS_keeps_settings_witness :
  let w := Toy.start (2 ^ 62) 0 [(4%nat, mkEntry 0 1 99 PV_NODE)] in
  exists r w',
    @PVS Toy.game 3 4%nat 0 1 (-100) 100 [] w = Some (r, w') /\
    output w' = [Type1Error (Toy.moveName 99)] /\
    timeLimit (searchParams w') = 2 ^ 62 /\
    length (killers (searchParams w')) = 127%nat /\
    (isStop w = true -> isStop w' = true) /\
    (0 <= clockReads w')%nat /\
    exists l, output w' = [] ++ l /\ Forall (fun o => exists s, o = Type1Error s) l.
Proof.
  intros w.
  destruct (@PVS Toy.game 3 4%nat 0 1 (-100) 100 [] w) as [[r w'] |] eqn:Hrun;
    [| vm_compute in Hrun; discriminate Hrun].
  exists r, w'. split; [reflexivity |].
  split; [vm_compute in Hrun; inversion Hrun; reflexivity |].
  exact (@PVS_keeps_settings Toy.game 3 4%nat 0 1 (-100) 100 [] w w' r Hrun).
Defined.

(** ** A root iteration *)

Section RootFrames.
Context {E : Externals}.

(** What [getBestMoveAtDepth] does after it has reset the parameters
    respects every relation that the writes of [PVS] respect. *)
Lemma getBestMoveAtDepth_keeps (Rel : World -> World -> Prop) (rec : PFn)
    b legalMoves depth bestScore isMate pvLine w r w' :
  Frame Rel -> pKeeps Rel rec ->
  getBestMoveAtDepth rec b legalMoves depth bestScore isMate pvLine w = Some (r, w') ->
  Rel (with_params SearchParameters_reset w) w'.
Proof.
  intros F Hrec Hrun. unfold getBestMoveAtDepth, routine, bind at 1, update in Hrun.
  unfold bind in Hrun.
  destruct (rootLoop _ _ _ _ _ _ _ _ _ _ _) as [[[x|v] w1]|] eqn:Hloop; [| |discriminate];
    inversion Hrun; subst;
    exact (keeps_rootLoop Rel F rec b (getPlayerToMove b) depth MATE_SCORE bestScore isMate
             legalMoves Hrec 0%nat _ _ _ _ Hloop).
Qed.

Lemma reset_killersDistinct p : killersDistinct (SearchParameters_reset p).
Proof.
  unfold killersDistinct, SearchParameters_reset. cbn.
  apply Forall_forall. intros k Hk. apply repeat_spec in Hk. right. exact Hk.
Qed.

Lemma reset_historyNonNegative p : historyNonNegative (SearchParameters_reset p).
Proof.
  unfold historyNonNegative.
  change (historyTable (SearchParameters_reset p)) with zeroHistory. unfold zeroHistory.
  assert (Hrep : forall (A : Type) (P : A -> Prop) x n, P x -> Forall P (repeat x n)).
  { intros A P x n Hx. apply Forall_forall. intros y Hy.
    apply repeat_spec in Hy. now subst y. }
  apply Hrep, Hrep, Hrep. lia.
Qed.

(** X5.  When a root iteration returns, finished or stopped, the ply and
    the null-move counter are back at 0, the two killer slots of every
    ply hold different moves unless both are empty, and no history
    counter is negative. *)
Theorem root_iteration_leaves_tables_sound :
  forall (fuel : nat) (b : Board) (legalMoves : MoveList) (depth bestScore : Z)
         (isMate : bool) (pvLine : SearchPV) (w w' : World) (r : RootResult),
    getBestMoveAtDepth (PVS fuel) b legalMoves depth bestScore isMate pvLine w
    = Some (r, w') ->
    ply (searchParams w') = 0 /\ nullMoveCount (searchParams w') = 0 /\
    Forall (fun k : Move * Move => fst k <> snd k \/ k = (NULL_MOVE, NULL_MOVE))
      (killers (searchParams w')) /\
    Forall (Forall (Forall (fun v : Z => 0 <= v))) (historyTable (searchParams w')).
Proof.
  intros fuel b legalMoves depth bestScore isMate pvLine w w' r Hrun.
  destruct (getBestMoveAtDepth_keeps samePly (PVS fuel) _ _ _ _ _ _ _ _ _
              samePly_frame (keeps_PVS _ samePly_frame fuel) Hrun) as [Hply Hnull].
  pose proof (getBestMoveAtDepth_keeps (preserves killersDistinct) (PVS fuel) _ _ _ _ _ _ _ _ _
                killersDistinct_frame (keeps_PVS _ killersDistinct_frame fuel) Hrun) as Hk.
  pose proof (getBestMoveAtDepth_keeps (preserves historyNonNegative) (PVS fuel)
                _ _ _ _ _ _ _ _ _
                historyNonNegative_frame (keeps_PVS _ historyNonNegative_frame fuel) Hrun)
    as Hh.
  split; [exact Hply |]. split; [exact Hnull |]. split.
  - apply Hk. cbn. apply reset_killersDistinct.
  - apply Hh. cbn. apply reset_historyNonNegative.
Qed.

End RootFrames.

(** [root_iteration_leaves_tables_sound] at the root 30, depth 3: the
    killer 11 and the history counts of the moves 11 and 31 are
    recorded. *)
Lemma root_iteration_leaves_tables_sound_witness :
  let w := Toy.start (2 ^ 62) 0 [] in
  exists r w',
    @getBestMoveAtDepth Toy.game (PVS 5) 30%nat [31; 32] 3 0 false [] w = Some (r, w') /\
    ply (searchParams w') = 0 /\ nullMoveCount (searchParams w') = 0 /\
    Forall (fun k : Move * Move => fst k <> snd k \/ k = (0, 0)) (killers (searchParams w')) /\
    Forall (Forall (Forall (fun v : Z => 0 <= v))) (historyTable (searchParams w')).
Proof.
  intros w.
  destruct (@getBestMoveAtDepth Toy.game (PVS 5) 30%nat [31; 32] 3 0 false [] w)
    as [[r w'] |] eqn:Hrun; [| vm_compute in Hrun; discriminate Hrun].
  exists r, w'. split; [reflexivity |].
  exact (@root_iteration_leaves_tables_sound Toy.game 5 30%nat [31; 32] 3 0 false [] w w' r
           Hrun).
Defined.

(** ** The index a root loop returns *)

Section RootIndex.
Context {E : Externals}.

Lemma bestSoFar_later moves pvLine i j t line :
  (i <= j)%nat -> bestSoFar moves pvLine i t line -> bestSoFar moves pvLine j t line.
Proof. intros Hij [H | [H1 H2]]; [left; exact H | right; split; [lia | exact H2]]. Qed.

Lemma rootMove_post (rec : PFn) b color depth beta bestScore isMate moves pvLine m i v w :
  nth i moves NULL_MOVE = m ->
  bestSoFar moves pvLine i (rv_tempMove v) (rv_pvLine v) ->
  post (rootMove rec b color depth beta bestScore isMate m i v) w
    (fun r _ => bestSoFar moves pvLine i (root_index r) (root_pvLine r))
    (fun v' _ => bestSoFar moves pvLine (S i) (rv_tempMove v') (rv_pvLine v')).
Proof.
  intros Hm Hv. unfold rootMove.
  repeat body_step; cbn [root_index root_pvLine rv_tempMove rv_pvLine];
    try exact Hv; try (apply (bestSoFar_later _ _ i); [lia | exact Hv]);
    right; (split; [lia |]); rewrite Nat2Z.id, Hm; unfold changePV; eexists; reflexivity.
Qed.

Lemma rootLoop_post (rec : PFn) b color depth beta bestScore isMate moves pvLine :
  forall ms done v w,
    moves = done ++ ms ->
    bestSoFar moves pvLine (length done) (rv_tempMove v) (rv_pvLine v) ->
    post (rootLoop rec b color depth beta bestScore isMate ms (length done) v) w
      (fun r _ => bestSoFar moves pvLine (length moves) (root_index r) (root_pvLine r))
      (fun v' _ => bestSoFar moves pvLine (length moves) (rv_tempMove v') (rv_pvLine v')).
Proof.
  induction ms as [|m ms IH]; intros done v w Hall Hv; cbn [rootLoop].
  - apply post_ret. subst moves. rewrite app_nil_r in *. exact Hv.
  - apply post_bind.
    eapply post_weaken; [apply (rootMove_post _ _ _ _ _ _ _ moves pvLine); [| exact Hv] | |].
    + subst moves. rewrite app_nth2, Nat.sub_diag; [reflexivity | lia].
    + intros r w1 Hr. cbv beta in Hr. apply (bestSoFar_later _ _ (length done)); [| exact Hr].
      subst moves. rewrite length_app. lia.
    + intros v' w1 Hv'. cbv beta in Hv'.
      replace (S (length done)) with (length (done ++ [m])) in *
        by (rewrite length_app; cbn; lia).
      apply IH; [| exact Hv']. subst moves. now rewrite <- app_assoc.
Qed.

Lemma getBestMoveAtDepth_bestSoFar (rec : PFn) b legalMoves depth bestScore isMate
    pvLine w r w' :
  getBestMoveAtDepth rec b legalMoves depth bestScore isMate pvLine w = Some (r, w') ->
  bestSoFar legalMoves pvLine (length legalMoves) (root_index r) (root_pvLine r).
Proof.
  intros Hrun. unfold getBestMoveAtDepth in Hrun.
  refine (post_routine _ _
            (fun r _ => bestSoFar legalMoves pvLine (length legalMoves)
                          (root_index r) (root_pvLine r)) _ r w' Hrun).
  apply post_bind, post_update, post_bind.
  eapply post_weaken;
    [ apply (rootLoop_post rec b _ depth MATE_SCORE bestScore isMate legalMoves pvLine
               legalMoves [] _ _ eq_refl); left; split; reflexivity
    | intros r0 w0 Hr0; exact Hr0
    | intros v w0 Hv; apply post_ret; exact Hv ].
Qed.

(** X6.  The index [getBestMoveAtDepth] returns is [-1] or the index of
    a move of the list it was given.  With [-1], no move has raised alpha
    (before the search was stopped, if it was) and the line behind
    [pvLine] is untouched; otherwise the line starts with the move at the
    index returned.  This holds for a stopped iteration too, whose
    partial result the driver uses. *)
Theorem getBestMoveAtDepth_index :
  forall (rec : PFn) (b : Board) (legalMoves : MoveList) (depth bestScore : Z)
         (isMate : bool) (pvLine : SearchPV) (w w' : World) (r : RootResult),
    getBestMoveAtDepth rec b legalMoves depth bestScore isMate pvLine w = Some (r, w') ->
    (root_index r = -1 /\ root_pvLine r = pvLine) \/
    (0 <= root_index r < Z.of_nat (length legalMoves) /\
     exists rest,
       root_pvLine r = nth (Z.to_nat (root_index r)) legalMoves NULL_MOVE :: rest).
Proof.
  intros rec b legalMoves depth bestScore isMate pvLine w w' r Hrun.
  destruct (getBestMoveAtDepth_bestSoFar _ _ _ _ _ _ _ _ _ _ Hrun) as [H | [Hrange Hline]].
  - left. exact H.
  - right. split; [exact Hrange | exact Hline].
Qed.

End RootIndex.

Section SortIndex.
Context {E : Externals}.

Lemma bestPlayable_later b color moves i j t :
  (i <= j)%nat -> bestPlayable b color moves i t -> bestPlayable b color moves j t.
Proof. intros Hij [H | [H1 H2]]; [left; exact H | right; split; [lia | exact H2]]. Qed.

Lemma sortLoop_post (rec : PFn) b color depth beta moves :
  forall ms done alpha tempMove line w,
    moves = done ++ ms ->
    bestPlayable b color moves (length done) tempMove ->
    post (sortLoop rec b color depth beta ms (length done) alpha tempMove line) w
      (fun t _ => bestPlayable b color moves (length moves) t)
      (fun t _ => bestPlayable b color moves (length moves) t).
Proof.
  induction ms as [|m ms IH]; intros done alpha tempMove line w Hall Ht; cbn [sortLoop].
  - apply post_ret. subst moves. rewrite app_nil_r in *. exact Ht.
  - assert (Hnext : moves = (done ++ [m]) ++ ms) by (subst moves; now rewrite <- app_assoc).
    assert (Hlen : S (length done) = length (done ++ [m]))
      by (rewrite length_app; cbn; lia).
    assert (Hm : nth (length done) moves NULL_MOVE = m).
    { subst moves. rewrite app_nth2, Nat.sub_diag; [reflexivity | lia]. }
    assert (Hkeep : bestPlayable b color moves (length (done ++ [m])) tempMove).
    { apply (bestPlayable_later _ _ _ (length done)); [lia | exact Ht]. }
    destruct (doPseudoLegalMove b m color) as [copy|] eqn:Hlegal.
    + assert (Hnew : bestPlayable b color moves (length (done ++ [m]))
                       (Z.of_nat (length done))).
      { right. split; [lia |]. rewrite Nat2Z.id, Hm, Hlegal. discriminate. }
      rewrite Hlen.
      repeat body_step; apply IH; assumption.
    + rewrite Hlen. apply IH; assumption.
Qed.

Lemma getBestMoveForSort_bestPlayable (rec : PFn) b legalMoves depth w index w' :
  getBestMoveForSort rec b legalMoves depth w = Some (index, w') ->
  bestPlayable b (getPlayerToMove b) legalMoves (length legalMoves) index.
Proof.
  intros Hrun. unfold getBestMoveForSort in Hrun.
  refine (post_routine _ _
            (fun t _ => bestPlayable b (getPlayerToMove b) legalMoves
                          (length legalMoves) t) _ index w' Hrun).
  apply (sortLoop_post rec b _ depth MATE_SCORE legalMoves legalMoves [] _ _ _ _ eq_refl).
  left. reflexivity.
Qed.

(** X7.  The index [getBestMoveForSort] returns for internal iterative
    deepening is [-1] or the index of a move of the list that can be
    played; so when no move of the list can be played it is [-1], the
    value on which [PVS] returns the mate or stalemate score. *)
Theorem getBestMoveForSort_index :
  forall (rec : PFn) (b : Board) (legalMoves : MoveList) (depth : Z)
         (w w' : World) (index : Z),
    getBestMoveForSort rec b legalMoves depth w = Some (index, w') ->
    (index = -1 \/
     (0 <= index < Z.of_nat (length legalMoves) /\
      doPseudoLegalMove b (nth (Z.to_nat index) legalMoves NULL_MOVE) (getPlayerToMove b)
      <> None)) /\
    ((forall m, In m legalMoves -> doPseudoLegalMove b m (getPlayerToMove b) = None) ->
     index = -1).
Proof.
  intros rec b legalMoves depth w w' index Hrun.
  pose proof (getBestMoveForSort_bestPlayable _ _ _ _ _ _ _ Hrun) as H.
  split; [exact H |]. intros Hnone.
  destruct H as [H | [Hrange Hlegal]]; [exact H |]. exfalso. apply Hlegal, Hnone.
  apply nth_In. lia.
Qed.

End SortIndex.

(** [getBestMoveAtDepth_index] at the root 30, depth 2, where the first
    move, 31, is the one kept. *)
Lemma getBestMoveAtDepth_index_witness :
  let w := Toy.start (2 ^ 62) 0 [] in
  exists r w',
    @getBestMoveAtDepth Toy.game (PVS 4) 30%nat [31; 32] 2 0 false [] w = Some (r, w') /\
    root_index r = 0 /\
    ((root_index r = -1 /\ root_pvLine r = []) \/
     (0 <= root_index r < 2 /\
      exists rest, root_pvLine r = nth (Z.to_nat (root_index r)) [31; 32] 0 :: rest)).
Proof.
  intros w.
  destruct (@getBestMoveAtDepth Toy.game (PVS 4) 30%nat [31; 32] 2 0 false [] w)
    as [[r w'] |] eqn:Hrun; [| vm_compute in Hrun; discriminate Hrun].
  exists r, w'. split; [reflexivity |].
  split; [vm_compute in Hrun; inversion Hrun; reflexivity |].
  exact (@getBestMoveAtDepth_index Toy.game (PVS 4) 30%nat [31; 32] 2 0 false [] w w' r Hrun).
Defined.

(** [getBestMoveForSort_index] at position 3, whose two moves can be
    played, and at position 5, whose only move cannot. *)
Lemma getBestMoveForSort_index_witness :
  let w := Toy.start (2 ^ 62) 0 [] in
  (exists i w',
     @getBestMoveForSort Toy.game (PVS 3) 3%nat [12; 13] 1 w = Some (i, w') /\
     (i = -1 \/ (0 <= i < 2 /\ Toy.moveTo 3 (nth (Z.to_nat i) [12; 13] 0) <> None))) /\
  (exists w', @getBestMoveForSort Toy.game (PVS 3) 5%nat [18] 1 w = Some (-1, w')).
Proof.
  intros w. split.
  - destruct (@getBestMoveForSort Toy.game (PVS 3) 3%nat [12; 13] 1 w)
      as [[i w'] |] eqn:Hrun; [| vm_compute in Hrun; discriminate Hrun].
    exists i, w'. split; [reflexivity |].
    exact (proj1 (@getBestMoveForSort_index Toy.game (PVS 3) 3%nat [12; 13] 1 w w' i Hrun)).
  - destruct (@getBestMoveForSort Toy.game (PVS 3) 5%nat [18] 1 w)
      as [[i w'] |] eqn:Hrun; [| vm_compute in Hrun; discriminate Hrun].
    exists w'.
    rewrite (proj2 (@getBestMoveForSort_index Toy.game (PVS 3) 5%nat [18] 1 w w' i Hrun));
      [reflexivity |].
    intros m [Hm | []]. subst m. reflexivity.
Defined.

(** ** The iterative-deepening loop *)

Section Driver.
Context {E : Externals}.

Lemma infoDepths_app l1 l2 : infoDepths (l1 ++ l2) = infoDepths l1 ++ infoDepths l2.
Proof.
  induction l1 as [|o l1 IH]; [reflexivity |]. destruct o; cbn; now rewrite IH.
Qed.

Lemma infoDepths_diagnostics l : diagnostics l -> infoDepths l = [].
Proof.
  induction 1 as [|o l [s Ho] _ IH]; [reflexivity |]. subst o. exact IH.
Qed.

Lemma continueSearch_allows mode value t d :
  continueSearch mode value t d = true ->
  (mode = TIME /\ d <= MAX_DEPTH) \/ (mode = DEPTH /\ d <= value).
Proof.
  unfold continueSearch. intros H. apply orb_true_iff in H. destruct H as [H | H].
  - apply andb_true_iff in H. destruct H as [H Hd]. apply andb_true_iff in H.
    destruct H as [Hm _]. left. split; [now apply Z.eqb_eq | now apply Z.leb_le].
  - apply andb_true_iff in H. destruct H as [Hm Hd].
    right. split; [now apply Z.eqb_eq | now apply Z.leb_le].
Qed.

Lemma deepen_post fuel mode value b :
  forall n legalMoves bestMove bestScore isMate rootDepth w f w',
    deepen fuel n b mode value legalMoves bestMove bestScore isMate rootDepth w
    = Some (f, w') ->
    (exists mv, f = Next mv /\ (mv = bestMove \/ In mv legalMoves)) /\
    reported rootDepth mode value w w'.
Proof.
  induction n as [|n IH];
    intros legalMoves bestMove bestScore isMate rootDepth w f w' Hrun; [discriminate |].
  cbn [deepen] in Hrun. unfold bind at 1, call in Hrun.
  destruct (getBestMoveAtDepth _ _ _ _ _ _ _ w) as [[r w1] |] eqn:Hroot; [| discriminate].
  destruct (getBestMoveAtDepth_keeps settingsKept (PVS fuel) _ _ _ _ _ _ _ _ _
              settingsKept_frame (keeps_PVS _ settingsKept_frame fuel) Hroot)
    as (Ht & Hr & _ & _ & _ & l1 & Hout & Hdiag).
  cbn in Ht, Hr, Hout.
  pose proof (getBestMoveAtDepth_bestSoFar _ _ _ _ _ _ _ _ _ _ Hroot) as Hbest.
  destruct (Z.eqb_spec (root_index r) (-1)) as [Hidx | Hidx].
  { inversion Hrun; subst f w'. split; [exists bestMove; auto |].
    split; [exact Ht |]. split; [exact Hr |]. exists l1, 0%nat.
    split; [exact Hout |]. split; [now apply infoDepths_diagnostics | left; lia]. }
  destruct Hbest as [[Hbest _] | [Hrange _]]; [contradiction |].
  set (legalMoves' := swap 0 (Z.to_nat (root_index r)) legalMoves) in *.
  assert (Hin : forall mv, mv = nth 0 legalMoves' NULL_MOVE \/ In mv legalMoves' ->
                           In mv legalMoves).
  { assert (Hperm : Permutation legalMoves' legalMoves) by apply swap_Permutation.
    intros mv [Hmv | Hmv]; apply (Permutation_in _ Hperm); [| exact Hmv].
    subst mv. apply nth_In. unfold legalMoves'. rewrite swap_length. lia. }
  unfold bind at 1, world in Hrun. unfold bind at 1, update in Hrun.
  unfold bind at 1 in Hrun.
  set (line := InfoLine _ _ _ _ _) in Hrun.
  assert (Hone : reported rootDepth mode value w (emit line (tick w1))).
  { split; [exact Ht |]. split; [exact Hr |]. exists (l1 ++ [line]), 1%nat.
    split; [cbn; rewrite Hout; now rewrite app_assoc |].
    split; [| left; lia].
    rewrite infoDepths_app, (infoDepths_diagnostics _ Hdiag). reflexivity. }
  destruct (root_isMate r).
  { inversion Hrun; subst f w'. split; [| exact Hone]. eexists. split; [reflexivity |].
    right. apply Hin. left. reflexivity. }
  destruct (continueSearch _ _ _ _) eqn:Hcont.
  - destruct (IH _ _ _ _ _ _ _ _ Hrun) as [(mv & Hf & Hmv) (Ht' & Hr' & l2 & k & Hout' & Hd & Hk)].
    split; [exists mv; split; [exact Hf | right; apply Hin, Hmv] |].
    destruct Hone as (_ & _ & _).
    split; [cbn in Ht'; congruence |]. split; [cbn in Hr'; congruence |].
    exists (l1 ++ [line] ++ l2), (S k). cbn in Hout'.
    split; [rewrite Hout', Hout, <- !app_assoc; reflexivity |].
    split.
    + rewrite infoDepths_app, (infoDepths_diagnostics _ Hdiag). cbn. now rewrite Hd.
    + apply continueSearch_allows in Hcont.
      destruct Hk as [Hk | [[Hm Hk] | [Hm Hk]]].
      * destruct k as [|[|k]]; [left; lia | | lia].
        destruct Hcont as [[Hm Hc] | [Hm Hc]]; [right; left | right; right];
          (split; [exact Hm | lia]).
      * right; left. split; [exact Hm | lia].
      * right; right. split; [exact Hm | lia].
  - inversion Hrun; subst f w'. split; [| exact Hone]. eexists. split; [reflexivity |].
    right. apply Hin. left. reflexivity.
Qed.

End Driver.

Section DriverResult.
Context {E : Externals}.

(** The world [getBestMove] starts its loop from, and the one it leaves
    once the loop has ended in [w1] with the move [m]. *)
Lemma getBestMove_run fuel n b mode value bestScore w m w' :
  getBestMove fuel n b mode value bestScore w = Some (m, w') ->
  let legalMoves := getAllLegalMoves b (getPlayerToMove b) in
  let w0 := tick (with_params (set_timeLimit (initialTimeLimit mode value))
              (with_params (set_rootMoveNumber (getMoveNumber b mod 256))
                 (with_stats (fun _ => SearchStatistics_reset)
                    (with_params SearchParameters_reset w)))) in
  exists w1,
    deepen fuel n b mode value legalMoves (nth 0 legalMoves NULL_MOVE) bestScore false 1 w0
    = Some (Next m, w1) /\
    w' = emit (BestMoveLine (moveToString m))
           (set_isStop true
              (with_params SearchParameters_resetHistoryTable
                 (emit (Statistics (searchStats w1)) w1))).
Proof.
  intros Hrun legalMoves w0. unfold getBestMove, routine in Hrun.
  unfold bind at 1, update in Hrun. unfold bind at 1 in Hrun. unfold bind at 1 in Hrun.
  unfold bind at 1 in Hrun. unfold bind at 1 in Hrun. unfold bind at 1, call, routine in Hrun.
  fold legalMoves in Hrun. fold w0 in Hrun.
  destruct (deepen _ _ _ _ _ _ _ _ _ _ w0) as [[f w1] |] eqn:Hloop; [| discriminate].
  destruct (proj1 (deepen_post _ _ _ _ _ _ _ _ _ _ _ _ _ Hloop)) as (mv & Hf & _).
  subst f. exists w1. unfold bind, world, update, ret in Hrun. cbn in Hrun.
  inversion Hrun; subst. split; reflexivity.
Qed.

(** X8.  When [getBestMove] returns, the stop flag is set, the history
    table is all zeros, the time limit and the age are the ones it
    computed at its start, and the last two lines written are the
    statistics as they stand and the [bestmove] line of the move it
    returns.  That move is one of the legal moves of the position
    whenever there is one. *)
Theorem getBestMove_final_state :
  forall (fuel n : nat) (b : Board) (mode value bestScore : Z) (w w' : World) (m : Move),
    getBestMove fuel n b mode value bestScore w = Some (m, w') ->
    isStop w' = true /\
    historyTable (searchParams w') = zeroHistory /\
    timeLimit (searchParams w') = initialTimeLimit mode value /\
    rootMoveNumber (searchParams w') = getMoveNumber b mod 256 /\
    (exists out,
       output w' = output w ++ out
                   ++ [Statistics (searchStats w'); BestMoveLine (moveToString m)]) /\
    (getAllLegalMoves b (getPlayerToMove b) <> [] ->
     In m (getAllLegalMoves b (getPlayerToMove b))).
Proof.
  intros fuel n b mode value bestScore w w' m Hrun.
  destruct (getBestMove_run _ _ _ _ _ _ _ _ _ Hrun) as (w1 & Hloop & Hw').
  destruct (deepen_post _ _ _ _ _ _ _ _ _ _ _ _ _ Hloop)
    as [(mv & Hf & Hmv) (Ht & Hr & l & k & Hout & _)].
  inversion Hf; subst mv. subst w'. cbn in *.
  split; [reflexivity |]. split; [reflexivity |].
  split; [exact Ht |]. split; [exact Hr |]. split.
  - exists l. rewrite Hout, <- !app_assoc. reflexivity.
  - intros Hne. destruct Hmv as [Hmv | Hmv]; [| exact Hmv]. subst m.
    apply nth_In. destruct (getAllLegalMoves b (getPlayerToMove b)); [congruence | cbn; lia].
Qed.

(** X9.  The [info] lines [getBestMove] writes report the depths 1, 2,
    ..., k without a gap, each once; k is at most 1 unless the mode is
    [TIME], where it is at most [MAX_DEPTH], or [DEPTH], where it is at
    most the depth asked for. *)
Theorem getBestMove_reports_depths :
  forall (fuel n : nat) (b : Board) (mode value bestScore : Z) (w w' : World) (m : Move),
    getBestMove fuel n b mode value bestScore w = Some (m, w') ->
    exists k : nat,
      infoDepths (output w') = infoDepths (output w) ++ countUp 1 k /\
      ((k <= 1)%nat \/
       (mode = TIME /\ Z.of_nat k <= MAX_DEPTH) \/
       (mode = DEPTH /\ Z.of_nat k <= value)).
Proof.
  intros fuel n b mode value bestScore w w' m Hrun.
  destruct (getBestMove_run _ _ _ _ _ _ _ _ _ Hrun) as (w1 & Hloop & Hw').
  destruct (deepen_post _ _ _ _ _ _ _ _ _ _ _ _ _ Hloop)
    as [_ (_ & _ & l & k & Hout & Hd & Hk)].
  exists k. subst w'. split.
  - cbn in *. rewrite Hout, !infoDepths_app, Hd. cbn. now rewrite !app_nil_r.
  - destruct Hk as [Hk | [[Hm Hk] | [Hm Hk]]]; [left; exact Hk | right; left | right; right];
      (split; [exact Hm | lia]).
Qed.

End DriverResult.

(** [getBestMove_final_state] from the root 30 in mode [DEPTH] with depth
    3: the move returned is 31. *)
Lemma getBestMove_final_state_witness :
  let w := Toy.start 0 0 [] in
  exists m w',
    @getBestMove Toy.game 8 8 30%nat DEPTH 3 0 w = Some (m, w') /\
    m = 31 /\
    isStop w' = true /\
    historyTable (searchParams w') = @zeroHistory /\
    timeLimit (searchParams w') = 2 ^ 62 /\
    rootMoveNumber (searchParams w') = 1 /\
    (exists out,
       output w' = [] ++ out ++ [Statistics (searchStats w'); BestMoveLine (Toy.moveName m)]) /\
    (@getAllLegalMoves Toy.game 30%nat 0 <> [] -> In m [31; 32]).
Proof.
  intros w.
  destruct (@getBestMove Toy.game 8 8 30%nat DEPTH 3 0 w) as [[m w'] |] eqn:Hrun;
    [| vm_compute in Hrun; discriminate Hrun].
  exists m, w'. split; [reflexivity |].
  split; [vm_compute in Hrun; inversion Hrun; reflexivity |].
  exact (@getBestMove_final_state Toy.game 8 8 30%nat DEPTH 3 0 w w' m Hrun).
Defined.

(** [getBestMove_reports_depths] from position 0: depths 1 to 3 in mode
    [DEPTH] with depth 3. *)
Lemma getBestMove_reports_depths_witness :
  let w := Toy.start 0 0 [] in
  exists m w',
    @getBestMove Toy.game 8 8 0%nat DEPTH 3 0 w = Some (m, w') /\
    infoDepths (output w') = [1; 2; 3] /\
    exists k : nat,
      infoDepths (output w') = [] ++ countUp 1 k /\
      ((k <= 1)%nat \/ (DEPTH = TIME /\ Z.of_nat k <= 127) \/
       (DEPTH = DEPTH /\ Z.of_nat k <= 3)).
Proof.
  intros w.
  destruct (@getBestMove Toy.game 8 8 0%nat DEPTH 3 0 w) as [[m w'] |] eqn:Hrun;
    [| vm_compute in Hrun; discriminate Hrun].
  exists m, w'. split; [reflexivity |].
  split; [vm_compute in Hrun; inversion Hrun; reflexivity |].
  exact (@getBestMove_reports_depths Toy.game 8 8 0%nat DEPTH 3 0 w w' m Hrun).
Defined.

(** ** Termination of the principal variation search *)

Section TotalRules.
Context {E : Externals}.

Lemma total_ret {R A} (a : A) : total (ret a : M R A).
Proof. intros w. discriminate. Qed.

Lemma total_leave {R A} (r : R) : total (leave r : M R A).
Proof. intros w. discriminate. Qed.

Lemma total_world {R} : total (world : M R World).
Proof. intros w. discriminate. Qed.

Lemma total_update {R} (f : World -> World) : total (update f : M R unit).
Proof. intros w. discriminate. Qed.

Lemma total_call {R A} (f : Fn A) : fnTotal f -> total (call f : M R A).
Proof.
  intros Hf w. unfold call. specialize (Hf w). destruct (f w) as [[a w'] |]; congruence.
Qed.

Lemma total_bind {R A B} (m : M R A) (f : A -> M R B) :
  total m -> (forall a, total (f a)) -> total (bind m f).
Proof.
  intros Hm Hf w. unfold bind. specialize (Hm w).
  destruct (m w) as [[[r | a] w'] |]; [discriminate | apply Hf | congruence].
Qed.

Lemma total_routine {R} (m : M R R) : total m -> fnTotal (routine m).
Proof.
  intros Hm w. unfold routine. specialize (Hm w).
  destruct (m w) as [[[r | r] w'] |]; congruence.
Qed.

End TotalRules.

Ltac total_step leaf :=
  first
    [ leaf
    | apply total_bind; [| intros ?]
    | apply total_ret
    | apply total_leave
    | apply total_world
    | apply total_update
    | apply total_call; leaf
    | match goal with
      | |- total (match ?x with _ => _ end) => destruct x eqn:?
      end ];
  cbv beta.

Ltac total_steps leaf := repeat (total_step leaf).

Section Reductions.
Context {E : Externals}.

Lemma lmrCondition_depth p copy color depth alpha prevAlpha movesSearched isPVNode inCheck m :
  lmrCondition p copy color depth alpha prevAlpha movesSearched isPVNode inCheck m = true ->
  3 <= depth /\ 2 < movesSearched.
Proof.
  unfold lmrCondition. rewrite !andb_true_iff. intros H.
  decompose [and] H. to_Z. lia.
Qed.

Lemma lmrReduction_bounds depth movesSearched :
  3 <= depth -> 0 <= movesSearched ->
  0 <= lmrReduction depth movesSearched <= depth - 2.
Proof.
  intros Hd Hm. unfold lmrReduction. split; [| apply Z.le_min_l].
  apply Z.min_glb; [lia |]. apply Z.quot_pos; lia.
Qed.

Lemma nullMoveReduction_bounds depth staticEval beta :
  0 < PAWN_VALUE -> 3 <= depth -> beta <= staticEval ->
  1 <= nullMoveReduction depth staticEval beta <= depth - 2.
Proof.
  intros Hp Hd Hse. unfold nullMoveReduction. split; [| apply Z.le_min_l].
  apply Z.min_glb; [lia |].
  assert (0 <= Z.quot (staticEval - beta) PAWN_VALUE) by (apply Z.quot_pos; lia).
  destruct (depth >=? 11), (depth >=? 6); lia.
Qed.

Lemma IID_DEPTHS_below n : nth n IID_DEPTHS 0 <= Z.of_nat n.
Proof.
  destruct (Nat.ltb_spec n 128) as [Hn | Hn].
  - assert (Hall : forallb (fun k => nth k IID_DEPTHS 0 <=? Z.of_nat k) (seq 0 128) = true)
      by (vm_compute; reflexivity).
    rewrite forallb_forall in Hall. apply Z.leb_le, Hall, in_seq. lia.
  - rewrite nth_overflow; [lia |]. exact Hn.
Qed.

End Reductions.

Section PVSTotal.
Context {E : Externals}.
Hypothesis Hpawn : 0 < PAWN_VALUE.

Lemma total_searchChild {R} (rec : PFn) copy color depth depth' alpha beta line :
  totalBelow rec depth -> depth' < depth ->
  total (searchChild rec copy color depth' alpha beta line : M R _).
Proof.
  intros Hrec Hd. unfold searchChild.
  total_steps ltac:(apply Hrec; exact Hd).
Qed.

Lemma total_probeTT (rec : PFn) b color hashed depth alpha beta pvLine :
  totalBelow rec depth ->
  fnTotal (probeTT rec b color hashed depth alpha beta pvLine).
Proof.
  intros Hrec. apply total_routine. unfold probeTT_body, probeEntry.
  total_steps ltac:(apply (total_searchChild rec _ _ depth); [exact Hrec | lia]).
Qed.

Lemma total_sortLoop (rec : PFn) b color depth sortDepth beta ms :
  totalBelow rec depth -> sortDepth <= depth ->
  forall i alpha tempMove line,
    total (sortLoop rec b color sortDepth beta ms i alpha tempMove line).
Proof.
  intros Hrec Hd. induction ms as [|m ms IH]; intros i alpha tempMove line; cbn [sortLoop].
  - apply total_ret.
  - total_steps ltac:(first [ apply IH
                            | apply (total_searchChild rec _ _ depth); [exact Hrec | lia] ]).
Qed.

Lemma total_nullMovePruning (rec : PFn) b color depth alpha beta isPVNode inCheck
    staticEval pvLine line :
  totalBelow rec depth ->
  total (nullMovePruning rec b color depth alpha beta isPVNode inCheck
           staticEval pvLine line).
Proof.
  intros Hrec. unfold nullMovePruning.
  apply total_bind; [apply total_world |]. intros w.
  destruct (nullMoveCondition _ _ _ _ _ _ _) eqn:Hcond; [| apply total_ret].
  apply nullMoveCondition_iff in Hcond. destruct Hcond as (Hd & _ & _ & _ & Hse & _).
  pose proof (nullMoveReduction_bounds depth staticEval beta Hpawn Hd Hse) as Hred.
  total_steps ltac:(apply (total_searchChild rec _ _ depth); [exact Hrec | lia]).
Qed.

Lemma total_searchMove (rec : PFn) b color depth beta prevAlpha staticEval
    isPVNode inCheck m v :
  totalBelow rec depth ->
  total (searchMove rec b color depth beta prevAlpha staticEval isPVNode inCheck m v).
Proof.
  intros Hrec. unfold searchMove.
  total_steps ltac:(
    apply (total_searchChild rec _ _ depth);
    [ exact Hrec
    | try lia;
      match goal with
      | |- context [if ?c then _ else _] =>
          destruct c eqn:Hlmr; [| lia];
          apply lmrCondition_depth in Hlmr; destruct Hlmr as [Hd3 Hms];
          pose proof (lmrReduction_bounds depth (lv_movesSearched v) Hd3 ltac:(lia)); lia
      end ]).
Qed.

Lemma total_movesLoop (rec : PFn) b color depth beta prevAlpha staticEval isPVNode inCheck :
  totalBelow rec depth ->
  forall n i moves scores v,
    total (movesLoop rec b color depth beta prevAlpha staticEval isPVNode inCheck
             n i moves scores v).
Proof.
  intros Hrec. induction n as [|n IH]; intros i moves scores v; cbn [movesLoop];
    destruct (nextMove moves scores i) as [[m moves'] scores'];
    destruct (m =? NULL_MOVE); try apply total_ret.
  apply total_bind; [apply total_searchMove, Hrec | intros v'; apply IH].
Qed.

Lemma total_orderMoves (rec : PFn) b color depth alpha beta isPVNode inCheck hashed
    pvLine legalMoves :
  totalBelow rec depth -> 0 < depth ->
  total (orderMoves rec b color depth alpha beta isPVNode inCheck hashed pvLine legalMoves).
Proof.
  intros Hrec Hd. unfold orderMoves.
  total_steps ltac:(
    apply total_routine, (total_sortLoop rec _ _ depth); [exact Hrec |];
    pose proof (IID_DEPTHS_below (Z.to_nat depth)); lia).
Qed.

Lemma total_finishNode b color depth beta prevAlpha inCheck v :
  total (finishNode b color depth beta prevAlpha inCheck v).
Proof. unfold finishNode. total_steps fail. Qed.

Lemma total_searchMoves (rec : PFn) b color depth alpha beta prevAlpha staticEval
    isPVNode inCheck hashed pvLine line :
  totalBelow rec depth -> 0 < depth ->
  total (searchMoves rec b color depth alpha beta prevAlpha staticEval
           isPVNode inCheck hashed pvLine line).
Proof.
  intros Hrec Hd. unfold searchMoves.
  total_steps ltac:(first [ apply total_orderMoves; assumption
                          | apply total_movesLoop, Hrec
                          | apply total_finishNode ]).
Qed.

Lemma total_PVS_body (qs : QFn) (rec : PFn) b color depth alpha beta pvLine :
  (forall b color alpha beta, fnTotal (qs b color 0 alpha beta)) ->
  (0 < depth -> totalBelow rec depth) ->
  total (PVS_body qs rec b color depth alpha beta pvLine).
Proof.
  intros Hqs Hrec. unfold PVS_body.
  destruct (Z.leb_spec depth 0) as [| Hd].
  { total_steps ltac:(apply Hqs). }
  specialize (Hrec Hd).
  total_steps ltac:(first [ apply total_probeTT, Hrec
                          | apply total_nullMovePruning, Hrec
                          | apply total_searchMoves; assumption ]).
Qed.

Lemma total_PVS (need : nat) :
  (forall n, (need < n)%nat ->
     forall b color alpha beta, fnTotal (quiescence n b color 0 alpha beta)) ->
  forall fuel depth,
    (Z.to_nat depth + need + 1 < fuel)%nat ->
    forall b color alpha beta pvLine, fnTotal (PVS fuel b color depth alpha beta pvLine).
Proof.
  intros Hqs. induction fuel as [|n IH]; intros depth Hfuel b color alpha beta pvLine;
    [lia |].
  cbn [PVS]. apply total_routine, total_PVS_body.
  - intros b' color' alpha' beta'. apply Hqs. lia.
  - intros Hd b' color' depth' alpha' beta' line Hlt. apply IH. lia.
Qed.

End PVSTotal.

Section DriverTotal.
Context {E : Externals}.

Lemma total_rootLoop (rec : PFn) b color depth beta bestScore isMate ms :
  totalBelow rec depth ->
  forall i v, total (rootLoop rec b color depth beta bestScore isMate ms i v).
Proof.
  intros Hrec. induction ms as [|m ms IH]; intros i v; cbn [rootLoop].
  - apply total_ret.
  - apply total_bind; [| intros v'; apply IH]. unfold rootMove.
    total_steps ltac:(apply (total_searchChild rec _ _ depth); [exact Hrec | lia]).
Qed.

Lemma total_getBestMoveAtDepth (rec : PFn) b legalMoves depth bestScore isMate pvLine :
  totalBelow rec depth ->
  fnTotal (getBestMoveAtDepth rec b legalMoves depth bestScore isMate pvLine).
Proof.
  intros Hrec. apply total_routine.
  total_steps ltac:(apply total_rootLoop, Hrec).
Qed.

Lemma continueSearch_deepestRoot mode value t d :
  continueSearch mode value t d = true -> d <= deepestRoot mode value.
Proof.
  intros H. apply continueSearch_allows in H. unfold deepestRoot.
  destruct H as [[Hm Hd] | [Hm Hd]]; subst mode; cbn; lia.
Qed.

Lemma total_deepen (fuel : nat) b mode value :
  totalBelow (PVS fuel) (deepestRoot mode value) ->
  forall n legalMoves bestMove bestScore isMate rootDepth,
    rootDepth <= deepestRoot mode value ->
    (Z.to_nat (deepestRoot mode value - rootDepth) < n)%nat ->
    total (deepen fuel n b mode value legalMoves bestMove bestScore isMate rootDepth).
Proof.
  intros Hrec. induction n as [|n IH];
    intros legalMoves bestMove bestScore isMate rootDepth Hd Hn; [lia |].
  cbn [deepen].
  apply total_bind.
  { apply total_call, total_getBestMoveAtDepth.
    intros b' color' depth' alpha' beta' line Hlt. apply Hrec. lia. }
  intros r.
  total_steps ltac:(
    idtac;
    match goal with
    | H : continueSearch _ _ _ _ = true |- total (deepen _ _ _ _ _ _ _ _ _ _) =>
        apply continueSearch_deepestRoot in H; apply IH; lia
    end).
Qed.

End DriverTotal.

Section Termination.
Context {E : Externals}.
Variables (material evasions : Board -> nat) (top limit : nat).
Hypothesis Hgame : Dwindles material evasions limit.
Hypothesis Htop : forall b, (material b <= top)%nat.
Hypothesis Hpawn : 0 < PAWN_VALUE.

(** The quiescence search, entered by [PVS] with [plies = 0]. *)
Lemma quiescence_from_PVS :
  forall n, (quiescenceFuel top limit < n)%nat ->
    forall b color alpha beta, fnTotal (quiescence n b color 0 alpha beta).
Proof.
  intros n Hn b color alpha beta w.
  apply (quiescence_runs _ (quiescenceRank_decreases material evasions limit Hgame)).
  assert (Hrank : (quiescenceRank material evasions limit (Quiesce b color 0)
                   <= quiescenceFuel top limit)%nat).
  { unfold quiescenceRank, quiescenceFuel, checksLeft.
    pose proof (Htop b) as Hb. pose proof (evasions_bounded _ _ _ Hgame b) as He.
    change (Z.to_nat (1 - 0)) with 1%nat.
    assert (((2 * limit + 3) * (material b + 1) <= (2 * limit + 3) * (top + 1))%nat) by nia.
    destruct (isInCheck b color); lia. }
  lia.
Qed.

(** X10.  [PVS] returns.  Every recursive call is at a smaller depth:
    the child searches at [depth - 1], the late-move reduction and the
    null-move reduction are never negative, and the depth of internal
    iterative deepening is at most the depth of the node.  So a call
    returns a score when the quiescence search does (the game has the
    measures of [Dwindles], with at most [top] material) and
    [PAWN_VALUE] is positive.  The call is one that stays inside the
    tables of the source: the killer table has its [MAX_DEPTH] rows and
    [ply + depth] does not exceed [MAX_DEPTH], so that [killers [ply]]
    and [IID_DEPTHS [depth]] are read within bounds at every node. *)
Theorem PVS_terminates :
  forall (fuel : nat) (b : Board) (color depth alpha beta : Z) (pvLine : SearchPV)
         (w : World),
    length (killers (searchParams w)) = Z.to_nat MAX_DEPTH ->
    0 <= ply (searchParams w) ->
    ply (searchParams w) + depth <= MAX_DEPTH ->
    (Z.to_nat depth + quiescenceFuel top limit + 1 < fuel)%nat ->
    exists r w', PVS fuel b color depth alpha beta pvLine w = Some (r, w').
Proof.
  intros fuel b color depth alpha beta pvLine w _ _ _ Hfuel.
  pose proof (total_PVS Hpawn (quiescenceFuel top limit) quiescence_from_PVS fuel depth Hfuel
                b color alpha beta pvLine w) as Hrun.
  destruct (PVS fuel b color depth alpha beta pvLine w) as [[r w'] |]; [eauto | congruence].
Qed.

(** X11.  [getBestMove] returns a move, under the same conditions on the
    game, with fuel for the deepest root depth its mode allows
    ([MAX_DEPTH] in mode [TIME], the depth asked for in mode [DEPTH], 1
    otherwise) and as many passes through its loop.  In mode [DEPTH] the
    depth asked for is at most [MAX_DEPTH]: beyond it the source leaves
    its tables. *)
Theorem getBestMove_terminates :
  forall (fuel n : nat) (b : Board) (mode value bestScore : Z) (w : World),
    1 <= MAX_DEPTH ->
    (mode = DEPTH -> value <= MAX_DEPTH) ->
    (Z.to_nat (deepestRoot mode value) + quiescenceFuel top limit + 1 < fuel)%nat ->
    (Z.to_nat (deepestRoot mode value) <= n)%nat ->
    exists m w', getBestMove fuel n b mode value bestScore w = Some (m, w').
Proof.
  intros fuel n b mode value bestScore w _ _ Hfuel Hn.
  assert (Hone : 1 <= deepestRoot mode value) by (unfold deepestRoot; lia).
  assert (Hrec : totalBelow (PVS fuel) (deepestRoot mode value)).
  { intros b' color' depth' alpha' beta' line Hlt.
    apply (total_PVS Hpawn (quiescenceFuel top limit) quiescence_from_PVS). lia. }
  assert (Hrun : fnTotal (getBestMove fuel n b mode value bestScore)).
  { apply total_routine.
    total_steps ltac:(apply total_routine, total_deepen; [exact Hrec | lia | lia]). }
  specialize (Hrun w).
  destruct (getBestMove fuel n b mode value bestScore w) as [[m w'] |]; [eauto | congruence].
Qed.

End Termination.

Lemma crossfire_material_bounded : forall b, (Crossfire.material b <= 3)%nat.
Proof.
  intros b. unfold Crossfire.material.
  do 7 (try (destruct b as [|b])); lia.
Qed.

(** [PVS_terminates] at position 0 of the second game tree, depth 3:
    the check 41 is searched, and the cross-check 42 behind it. *)
Lemma PVS_terminates_witness :
  exists r w',
    @PVS Crossfire.game 29 0%nat 0 3 (-100) 100 [] Crossfire.start = Some (r, w').
Proof.
  apply (@PVS_terminates Crossfire.game Crossfire.material Crossfire.evasions 3 1
           crossfire_dwindles crossfire_material_bounded).
  - reflexivity.
  - reflexivity.
  - cbn. lia.
  - cbn. lia.
  - vm_compute. lia.
Defined.

(** [getBestMove_terminates] from position 0 of the second game tree in
    mode [DEPTH] with depth 3. *)
Lemma getBestMove_terminates_witness :
  exists m w',
    @getBestMove Crossfire.game 29 3 0%nat DEPTH 3 0 Crossfire.start = Some (m, w').
Proof.
  apply (@getBestMove_terminates Crossfire.game Crossfire.material Crossfire.evasions 3 1
           crossfire_dwindles crossfire_material_bounded).
  - reflexivity.
  - cbn. lia.
  - intros _. cbn. lia.
  - vm_compute. lia.
  - vm_compute. lia.
Defined.

(** ** The length of the principal variation *)

Ltac line_step leaf :=
  first
    [ leaf
    | apply post_bind
    | apply post_ret
    | apply post_leave
    | apply post_update
    | apply post_world
    | match goal with
      | |- post (match ?x with _ => _ end) _ _ _ => destruct x eqn:?
      end ];
  cbv beta.

Ltac line_steps leaf := repeat (line_step leaf).

Section PVLength.
Context {E : Externals}.
Hypothesis Hpawn : 0 < PAWN_VALUE.

Lemma post_searchChild_line {R} (rec : PFn) copy color depth alpha beta line w
    (Qr : R -> World -> Prop) (Qn : Z * Board * SearchPV -> World -> Prop) :
  lineBound rec ->
  (forall s c l w',
     (length l <= Nat.max (length line) (Z.to_nat depth))%nat -> Qn (s, c, l) w') ->
  post (searchChild rec copy color depth alpha beta line) w Qr Qn.
Proof.
  intros Hrec H. unfold post, searchChild, bind, update, call, ret.
  destruct (rec copy (Z.lxor color 1) depth alpha beta line _) as [[[[s c] l] w1] |] eqn:Hrun;
    [| exact I].
  apply H. exact (Hrec _ _ _ _ _ _ _ _ _ Hrun).
Qed.

Lemma probeTT_line (rec : PFn) b color hashed depth alpha beta pvLine w r w' :
  lineBound rec -> 0 < depth ->
  probeTT rec b color hashed depth alpha beta pvLine w = Some (r, w') ->
  (length (snd r) <= Nat.max (length pvLine) (Z.to_nat depth))%nat.
Proof.
  intros Hrec Hd Hrun. unfold probeTT in Hrun.
  refine (post_routine _ _
            (fun r _ => (length (snd r) <= Nat.max (length pvLine) (Z.to_nat depth))%nat)
            _ r w' Hrun).
  unfold probeTT_body, probeEntry.
  line_steps ltac:(apply post_searchChild_line; [exact Hrec | intros ? ? ? ? ?]);
    cbn [snd length changePV] in *; lia.
Qed.

Lemma nullMovePruning_line (rec : PFn) b color depth alpha beta isPVNode inCheck
    staticEval pvLine line w :
  lineBound rec ->
  post (nullMovePruning rec b color depth alpha beta isPVNode inCheck
          staticEval pvLine line) w
    (fun r _ => (length (snd r) <= length pvLine)%nat)
    (fun x _ => (length (snd x) <= Nat.max (length line) (Z.to_nat depth - 1))%nat).
Proof.
  intros Hrec. unfold nullMovePruning.
  apply post_bind, post_world.
  destruct (nullMoveCondition _ _ _ _ _ _ _) eqn:Hcond; [| apply post_ret; cbn; lia].
  apply nullMoveCondition_iff in Hcond. destruct Hcond as (Hd & _ & _ & _ & Hse & _).
  pose proof (nullMoveReduction_bounds depth staticEval beta Hpawn Hd Hse) as Hred.
  line_steps ltac:(apply post_searchChild_line; [exact Hrec | intros ? ? ? ? ?]);
    cbn [snd length] in *; lia.
Qed.

Lemma searchMove_line (rec : PFn) b color depth beta prevAlpha staticEval
    isPVNode inCheck m v limit w :
  lineBound rec -> 0 < depth -> (Z.to_nat depth <= limit)%nat ->
  linesWithin depth limit v ->
  post (searchMove rec b color depth beta prevAlpha staticEval isPVNode inCheck m v) w
    (fun r _ => (length (snd r) <= limit)%nat)
    (fun v' _ => linesWithin depth limit v').
Proof.
  intros Hrec Hd Hlimit [Hline Hpv]. unfold searchMove.
  line_steps ltac:(apply post_searchChild_line; [exact Hrec | intros ? ? ? ? ?]);
    unfold linesWithin; cbn [snd length changePV lv_line lv_pvLine] in *;
    repeat match goal with
           | H : context [if ?c then _ else _] |- _ =>
               destruct c eqn:Hlmr;
               [ apply lmrCondition_depth in Hlmr; destruct Hlmr as [Hd3 Hms];
                 pose proof (lmrReduction_bounds depth (lv_movesSearched v) Hd3 ltac:(lia))
               | ]
           end;
    lia.
Qed.

Lemma movesLoop_line (rec : PFn) b color depth beta prevAlpha staticEval isPVNode inCheck
    limit :
  lineBound rec -> 0 < depth -> (Z.to_nat depth <= limit)%nat ->
  forall n i moves scores v w,
    linesWithin depth limit v ->
    post (movesLoop rec b color depth beta prevAlpha staticEval isPVNode inCheck
            n i moves scores v) w
      (fun r _ => (length (snd r) <= limit)%nat)
      (fun v' _ => linesWithin depth limit v').
Proof.
  intros Hrec Hd Hlimit. induction n as [|n IH]; intros i moves scores v w Hv;
    cbn [movesLoop]; destruct (nextMove moves scores i) as [[m moves'] scores'];
    destruct (m =? NULL_MOVE); try (apply post_ret; exact Hv).
  apply post_bind.
  eapply post_weaken; [apply (searchMove_line rec); eassumption | |].
  - intros r w1 Hr. exact Hr.
  - intros v' w1 Hv'. apply IH, Hv'.
Qed.

Lemma searchMoves_line (rec : PFn) b color depth alpha beta prevAlpha staticEval
    isPVNode inCheck hashed pvLine line limit w :
  lineBound rec -> 0 < depth -> (Z.to_nat depth <= limit)%nat ->
  (length pvLine <= limit)%nat -> (length line <= Z.to_nat depth - 1)%nat ->
  post (searchMoves rec b color depth alpha beta prevAlpha staticEval
          isPVNode inCheck hashed pvLine line) w
    (fun r _ => (length (snd r) <= limit)%nat)
    (fun r _ => (length (snd r) <= limit)%nat).
Proof.
  intros Hrec Hd Hlimit Hpv Hline. unfold searchMoves.
  destruct (Nat.eqb _ 0).
  { apply post_bind, post_world, post_leave. exact Hpv. }
  apply post_bind.
  assert (Horder : post (orderMoves rec b color depth alpha beta isPVNode inCheck hashed
                           pvLine (candidates b color inCheck hashed)) w
                     (fun r _ => (length (snd r) <= limit)%nat) (fun _ _ => True)).
  { unfold orderMoves. line_steps ltac:(apply post_call; intros ? ? ?);
      try exact I; exact Hpv. }
  eapply post_weaken; [exact Horder | intros r w1 Hr; exact Hr |].
  intros scores w1 _. apply post_bind.
  eapply post_weaken;
    [ apply (movesLoop_line rec _ _ depth _ _ _ _ _ limit Hrec Hd Hlimit); split; assumption
    | intros r w2 Hr; exact Hr |].
  intros v w2 [Hvl Hvp]. unfold finishNode.
  line_steps fail; cbn [snd]; exact Hvp.
Qed.

Lemma PVS_body_line (qs : QFn) (rec : PFn) b color depth alpha beta pvLine w :
  lineBound rec ->
  post (PVS_body qs rec b color depth alpha beta pvLine) w
    (fun r _ => (length (snd r) <= Nat.max (length pvLine) (Z.to_nat depth))%nat)
    (fun r _ => (length (snd r) <= Nat.max (length pvLine) (Z.to_nat depth))%nat).
Proof.
  intros Hrec. unfold PVS_body.
  destruct (Z.leb_spec depth 0) as [| Hd].
  { apply post_bind, post_call. intros r w1 _. apply post_leave. cbn. lia. }
  destruct (isDraw b).
  { line_steps fail; cbn [snd]; lia. }
  apply post_bind, post_update, post_bind, post_call.
  intros [[[hashScore hashed] alpha'] pvLine'] w1 Hprobe.
  apply (probeTT_line rec _ _ _ _ _ _ _ _ _ _ Hrec Hd) in Hprobe. cbn [snd] in Hprobe.
  destruct (negb (hashScore =? - INFTY)); [apply post_leave; exact Hprobe |].
  apply post_bind.
  eapply post_weaken; [apply (nullMovePruning_line rec); exact Hrec | |].
  - intros r w2 Hr. cbv beta in Hr. lia.
  - intros [b' line] w2 Hline. cbn [snd length] in Hline.
    destruct (reverseFutilityCondition _ _ _ _ _ _ _); [apply post_leave; exact Hprobe |].
    apply searchMoves_line; try assumption; lia.
Qed.

Lemma PVS_line (fuel : nat) : lineBound (PVS fuel).
Proof.
  induction fuel as [|n IH]; intros b color depth alpha beta line w r w' Hrun;
    [discriminate |].
  cbn [PVS] in Hrun.
  exact (post_routine _ _ _ (PVS_body_line (quiescence n) (PVS n) b color depth alpha beta
                               line w IH) r w' Hrun).
Qed.

End PVLength.

Section RootPVLength.
Context {E : Externals}.

Lemma rootLoop_line (rec : PFn) b color depth beta bestScore isMate limit :
  lineBound rec -> 0 < depth -> (Z.to_nat depth <= limit)%nat ->
  forall ms i v w,
    (length (rv_line v) <= Z.to_nat depth - 1)%nat -> (length (rv_pvLine v) <= limit)%nat ->
    post (rootLoop rec b color depth beta bestScore isMate ms i v) w
      (fun r _ => (length (root_pvLine r) <= limit)%nat)
      (fun v' _ => (length (rv_pvLine v') <= limit)%nat).
Proof.
  intros Hrec Hd Hlimit. induction ms as [|m ms IH]; intros i v w Hline Hpv; cbn [rootLoop].
  - apply post_ret. exact Hpv.
  - apply post_bind.
    assert (Hmove : post (rootMove rec b color depth beta bestScore isMate m i v) w
                      (fun r _ => (length (root_pvLine r) <= limit)%nat)
                      (fun v' _ => (length (rv_line v') <= Z.to_nat depth - 1)%nat /\
                                   (length (rv_pvLine v') <= limit)%nat)).
    { unfold rootMove.
      line_steps ltac:(apply post_searchChild_line; [exact Hrec | intros ? ? ? ? ?]);
        cbn [length changePV root_pvLine rv_line rv_pvLine] in *; lia. }
    eapply post_weaken; [exact Hmove | intros r w1 Hr; exact Hr |].
    intros v' w1 [Hl Hp]. apply IH; assumption.
Qed.

(** X12.  The principal variation never outgrows the depth: the line
    [PVS] hands back through [pvLine] is no longer than the longer of the
    line it was given and its depth, and so is the one of a root
    iteration.  [getBestMove] starts each iteration from an empty line,
    so a line of root depth [d] has at most [d] moves. *)
Theorem pv_length_within_depth :
  0 < PAWN_VALUE ->
  forall (fuel : nat) (b : Board) (depth : Z) (pvLine : SearchPV) (w w' : World),
    (forall (color alpha beta : Z) (r : Z * Board * SearchPV),
       PVS fuel b color depth alpha beta pvLine w = Some (r, w') ->
       (length (snd r) <= Nat.max (length pvLine) (Z.to_nat depth))%nat) /\
    (forall (legalMoves : MoveList) (bestScore : Z) (isMate : bool) (r : RootResult),
       0 < depth ->
       getBestMoveAtDepth (PVS fuel) b legalMoves depth bestScore isMate pvLine w
       = Some (r, w') ->
       (length (root_pvLine r) <= Nat.max (length pvLine) (Z.to_nat depth))%nat).
Proof.
  intros Hpawn fuel b depth pvLine w w'. split.
  - intros color alpha beta r Hrun. exact (PVS_line Hpawn fuel _ _ _ _ _ _ _ _ _ Hrun).
  - intros legalMoves bestScore isMate r Hd Hrun. unfold getBestMoveAtDepth in Hrun.
    refine (post_routine _ _
              (fun r _ => (length (root_pvLine r)
                           <= Nat.max (length pvLine) (Z.to_nat depth))%nat) _ r w' Hrun).
    apply post_bind, post_update, post_bind.
    eapply post_weaken;
      [ apply (rootLoop_line (PVS fuel) b _ depth MATE_SCORE bestScore isMate
                 (Nat.max (length pvLine) (Z.to_nat depth)) (PVS_line Hpawn fuel) Hd);
        cbn [rv_line rv_pvLine length]; lia
      | intros r0 w0 Hr0; exact Hr0
      | intros v w0 Hv; apply post_ret; exact Hv ].
Qed.

End RootPVLength.

(** [pv_length_within_depth] at the root 30, depth 3, from an empty
    line: the line found has at most three moves. *)
Lemma pv_length_within_depth_witness :
  let w := Toy.start (2 ^ 62) 0 [] in
  exists r w',
    @getBestMoveAtDepth Toy.game (PVS 5) 30%nat [31; 32] 3 0 false [] w = Some (r, w') /\
    (length (root_pvLine r) <= 3)%nat.
Proof.
  intros w.
  destruct (@getBestMoveAtDepth Toy.game (PVS 5) 30%nat [31; 32] 3 0 false [] w)
    as [[r w'] |] eqn:Hrun; [| vm_compute in Hrun; discriminate Hrun].
  exists r, w'. split; [reflexivity |].
  exact (proj2 (@pv_length_within_depth Toy.game eq_refl 5 30%nat 3 [] w w')
           [31; 32] 0 false r eq_refl Hrun).
Defined.

(** ** Killer moves of the plies above a node *)

Section ShallowerKillers.
Context {E : Externals}.

Lemma shallowerKillersKept_frame : Frame shallowerKillersKept.
Proof.
  assert (Hsame : forall w w',
             ply (searchParams w') = ply (searchParams w) ->
             killers (searchParams w') = killers (searchParams w) ->
             shallowerKillersKept w w').
  { intros w w' Hp Hk. split; [exact Hp |]. intros i _. now rewrite Hk. }
  constructor; try (intros; apply Hsame; reflexivity).
  - intros w1 w2 w3 [Hp1 Hk1] [Hp2 Hk2]. split; [congruence |].
    intros i Hi. rewrite Hk2, Hk1; [reflexivity | exact Hi | rewrite Hp1; exact Hi].
  - intros m w _. split.
    + cbn. apply (recordKiller_fields m (searchParams w)).
    + intros i Hi. cbn. unfold recordKiller.
      destruct (m =? killer (searchParams w) 0); [reflexivity |]. cbn.
      apply nth_set_nth_other. intros Heq. rewrite Heq in Hi.
      exact (Nat.lt_irrefl _ Hi).
  - intros w w' [Hp Hk]. cbn in Hp, Hk. split; [cbn; lia |].
    intros i Hi. cbn. apply Hk. lia.
  - intros w w' [Hp Hk]. cbn in Hp, Hk. split; [exact Hp | exact Hk].
Qed.

(** X13.  A node never writes the killer slots of a ply above it: after
    a call of [PVS] that started at ply [p], the two killers of every ply
    below [p] are what they were.  The killers a node sorts by are
    therefore those its own ply recorded, whatever its subtree did. *)
Theorem PVS_keeps_shallower_killers :
  forall (fuel : nat) (b : Board) (color depth alpha beta : Z) (pvLine : SearchPV)
         (w w' : World) (r : Z * Board * SearchPV) (i : nat),
    PVS fuel b color depth alpha beta pvLine w = Some (r, w') ->
    (i < Z.to_nat (ply (searchParams w)))%nat ->
    nth i (killers (searchParams w')) (NULL_MOVE, NULL_MOVE)
    = nth i (killers (searchParams w)) (NULL_MOVE, NULL_MOVE).
Proof.
  intros fuel b color depth alpha beta pvLine w w' r i Hrun Hi.
  exact (proj2 (keeps_PVS shallowerKillersKept shallowerKillersKept_frame
                  fuel b color depth alpha beta pvLine w r w' Hrun) i Hi).
Qed.

End ShallowerKillers.

(** [PVS_keeps_shallower_killers] at position 1, entered at ply 1 with
    the killer 77 recorded at ply 0: the cutoff by move 11 is recorded at
    ply 1 and the slot of ply 0 stays. *)
Lemma PVS_keeps_shallower_killers_witness :
  let w := with_params (fun p => set_ply 1 (set_killers [(77, 0); (0, 0)] p))
             (Toy.start (2 ^ 62) 0 []) in
  exists r w',
    @PVS Toy.game 3 1%nat 1 1 (-100) (-50) [] w = Some (r, w') /\
    killers (searchParams w') = [(77, 0); (11, 0)] /\
    nth 0 (killers (searchParams w')) (0, 0) = (77, 0).
Proof.
  intros w.
  destruct (@PVS Toy.game 3 1%nat 1 1 (-100) (-50) [] w) as [[r w'] |] eqn:Hrun;
    [| vm_compute in Hrun; discriminate Hrun].
  exists r, w'. split; [reflexivity |].
  split; [vm_compute in Hrun; inversion Hrun; reflexivity |].
  exact (@PVS_keeps_shallower_killers Toy.game 3 1%nat 1 1 (-100) (-50) [] w w' r 0%nat
           Hrun (Nat.lt_0_succ 0)).
Defined.

(** ** Move ordering *)

Section Ordering.
Context {E : Externals}.

Lemma scoreHead_lengths (f : Move -> Z) (l : MoveList) :
  (length (fst (scoreHead f l)) + length (snd (scoreHead f l)) = length l)%nat.
Proof.
  induction l as [|m t IH]; [reflexivity |]. cbn [scoreHead].
  destruct (isCapture m); [| reflexivity].
  destruct (scoreHead f t) as [sc rest]. cbn [fst snd length] in *. lia.
Qed.

Lemma scoreMoves_length (f g : Move -> Z) (l : MoveList) :
  length (scoreMoves f g l) = length l.
Proof.
  unfold scoreMoves. pose proof (scoreHead_lengths f l) as H.
  destruct (scoreHead f l) as [sc rest]. cbn [fst snd] in H.
  rewrite length_app, length_map. exact H.
Qed.

(** X14.  When the move ordering of a node goes on to the move loop, it
    has given every move of the list a score: the two lists [nextMove]
    works on have the same length.  When internal iterative deepening
    ran ([depth >= 5] and no hash move), the move it picked can be played
    and has the score [INFTY]. *)
Theorem orderMoves_scores_every_move :
  forall (rec : PFn) (b : Board) (color depth alpha beta : Z) (isPVNode inCheck : bool)
         (hashed : Move) (pvLine : SearchPV) (legalMoves : MoveList)
         (w w' : World) (scores : ScoreList),
    orderMoves rec b color depth alpha beta isPVNode inCheck hashed pvLine legalMoves w
    = Some (Next scores, w') ->
    length scores = length legalMoves /\
    (5 <= depth -> hashed = NULL_MOVE ->
     exists i, (i < length legalMoves)%nat /\ nth i scores 0 = INFTY /\
               doPseudoLegalMove b (nth i legalMoves NULL_MOVE) (getPlayerToMove b) <> None).
Proof.
  intros rec b color depth alpha beta isPVNode inCheck hashed pvLine legalMoves w w' scores
         Hrun.
  unfold orderMoves, bind at 1, world in Hrun.
  destruct ((depth >=? 3) || isPVNode) eqn:Hdeep.
  - destruct ((depth >=? 5) && (hashed =? NULL_MOVE)) eqn:Hiid.
    + unfold bind, call in Hrun.
      destruct (getBestMoveForSort _ _ _ _ w) as [[index w1] |] eqn:Hsort; [| discriminate].
      pose proof (getBestMoveForSort_bestPlayable _ _ _ _ _ _ _ Hsort) as Hbest.
      destruct (Z.eqb_spec index (-1)) as [Hidx | Hidx]; [discriminate |].
      inversion Hrun; subst scores w'. clear Hrun.
      split; [rewrite set_nth_length; apply scoreMoves_length |].
      intros _ _. destruct Hbest as [Hbest | [Hrange Hlegal]]; [contradiction |].
      exists (Z.to_nat index). split; [lia |]. split; [| exact Hlegal].
      apply nth_set_nth_same. rewrite scoreMoves_length. lia.
    + inversion Hrun; subst scores w'. split; [apply scoreMoves_length |].
      intros Hd Hh. exfalso. subst hashed. rewrite Z.eqb_refl, andb_true_r in Hiid.
      to_Z. lia.
  - inversion Hrun; subst scores w'. split; [apply scoreMoves_length |].
    intros Hd _. exfalso. apply orb_false_iff in Hdeep. destruct Hdeep as [Hdeep _].
    to_Z. lia.
Qed.

End Ordering.

(** [orderMoves_scores_every_move] at the root 30, depth 5, without a
    hash move: move 31 is picked and scored [INFTY]. *)
Lemma orderMoves_scores_every_move_witness :
  let w := Toy.start (2 ^ 62) 0 [] in
  exists scores w',
    @orderMoves Toy.game (PVS 5) 30%nat 0 5 (-100) 100 true false 0 [] [31; 32] w
    = Some (Next scores, w') /\
    scores = [32767; -32766] /\
    length scores = 2%nat /\
    (5 <= 5 -> 0 = 0 ->
     exists i, (i < 2)%nat /\ nth i scores 0 = 32767 /\
               Toy.moveTo 30 (nth i [31; 32] 0) <> None).
Proof.
  intros w.
  destruct (@orderMoves Toy.game (PVS 5) 30%nat 0 5 (-100) 100 true false 0 [] [31; 32] w)
    as [[[r | scores] w'] |] eqn:Hrun;
    [vm_compute in Hrun; discriminate Hrun | | vm_compute in Hrun; discriminate Hrun].
  exists scores, w'. split; [reflexivity |].
  split; [vm_compute in Hrun; inversion Hrun; reflexivity |].
  exact (@orderMoves_scores_every_move Toy.game (PVS 5) 30%nat 0 5 (-100) 100 true false 0 []
           [31; 32] w w' scores Hrun).
Defined.

(** ** The hash move is taken out of the move list *)

Section HashMoveRemoval.
Context {E : Externals}.

(** X15.  [removeFirst] takes out the first occurrence of the hash move
    and nothing else, keeping the order of the other moves; a list
    without the hash move is left as it is.  So the candidates of a node
    are the generated moves less one copy of the hash move, and when no
    move is generated twice the hash move, already searched by
    [probeTT], is not searched again by the move loop. *)
Theorem removeFirst_takes_one :
  forall (hashed : Move) (l : MoveList),
    (In hashed l ->
     exists l1 l2, l = l1 ++ hashed :: l2 /\ ~ In hashed l1 /\
                   removeFirst hashed l = l1 ++ l2) /\
    (~ In hashed l -> removeFirst hashed l = l) /\
    (NoDup l -> ~ In hashed (removeFirst hashed l)).
Proof.
  intros hashed l. induction l as [|m t [IHin [IHout IHnd]]].
  - split; [intros [] |]. split; [reflexivity |]. intros _ [].
  - cbn [removeFirst]. destruct (Z.eqb_spec m hashed) as [Heq | Hne].
    + subst m. split; [| split].
      * intros _. exists [], t. split; [reflexivity |]. split; [intros [] | reflexivity].
      * intros Hout. exfalso. apply Hout. left. reflexivity.
      * intros Hnd. inversion Hnd. assumption.
    + split; [| split].
      * intros [Hin | Hin]; [contradiction |].
        destruct (IHin Hin) as (l1 & l2 & Hl & Hl1 & Hrem).
        exists (m :: l1), l2. split; [cbn; now rewrite Hl |].
        split; [intros [H | H]; [contradiction | exact (Hl1 H)] |].
        cbn. now rewrite Hrem.
      * intros Hout. rewrite IHout; [reflexivity |]. intros H. apply Hout. right. exact H.
      * intros Hnd [H | H]; [contradiction |]. inversion Hnd; subst.
        exact (IHnd ltac:(assumption) H).
Qed.

End HashMoveRemoval.

(** ** Late-move reduction *)

Section LateMoveReduction.
Context {E : Externals}.

(** X16.  Whenever the condition of late-move reduction holds, the
    reduction is between 0 and [depth - 2]: the reduced search runs at a
    depth between 1 and [depth - 1], so it never drops straight into the
    quiescence search and never goes deeper than the full search. *)
Theorem late_move_reduction_depth :
  forall (p : SearchParameters) (copy : Board) (color depth alpha prevAlpha : Z)
         (movesSearched : Z) (isPVNode inCheck : bool) (m : Move),
    lmrCondition p copy color depth alpha prevAlpha movesSearched isPVNode inCheck m = true ->
    0 <= lmrReduction depth movesSearched /\
    1 <= depth - 1 - lmrReduction depth movesSearched <= depth - 1.
Proof.
  intros p copy color depth alpha prevAlpha movesSearched isPVNode inCheck m Hcond.
  apply lmrCondition_depth in Hcond. destruct Hcond as [Hd Hms].
  pose proof (lmrReduction_bounds depth movesSearched Hd ltac:(lia)). lia.
Qed.

End LateMoveReduction.

(** [late_move_reduction_depth] for the fourth quiet move of a node at
    depth 8: the reduction is 1. *)
Lemma late_move_reduction_depth_witness :
  @lmrReduction 8 3 = 1 /\
  0 <= @lmrReduction 8 3 /\ 1 <= 8 - 1 - @lmrReduction 8 3 <= 8 - 1.
Proof.
  split; [reflexivity |].
  exact (@late_move_reduction_depth Toy.game
           (searchParams (Toy.start (2 ^ 62) 0 [])) 2%nat 0 8 0 0 3 false false 12 eq_refl).
Defined.

(** ** Percentages of the statistics *)

(** X17.  [getPercentage] is 0 for a denominator of 0.  For a numerator
    that does not exceed the denominator it is a value from 0 to 100, in
    hundredths, as long as 10000 times the numerator fits 64 bits. *)
Theorem getPercentage_range :
  forall numerator denominator : Z,
    getPercentage numerator 0 = 0%Q /\
    (0 <= numerator <= denominator -> numerator * 10000 < 2 ^ 64 ->
     (0 <= getPercentage numerator denominator <= 100)%Q /\
     exists hundredths : Z,
       0 <= hundredths <= 10000 /\
       (getPercentage numerator denominator == inject_Z hundredths / 100)%Q).
Proof.
  intros numerator denominator. split; [reflexivity |]. intros Hn Hfit.
  unfold getPercentage. destruct (Z.eqb_spec denominator 0) as [Hz | Hz].
  { split; [split; discriminate |]. exists 0. split; [lia | reflexivity]. }
  rewrite Z.mod_small by lia.
  assert (Ht : 0 <= Z.quot (numerator * 10000) denominator <= 10000).
  { rewrite Z.quot_div_nonneg by lia. split; [apply Z.div_pos; lia |].
    apply Z.div_le_upper_bound; nia. }
  split; [| eexists; split; [exact Ht | reflexivity]].
  set (t := Z.quot (numerator * 10000) denominator) in *.
  unfold Qle, Qdiv, Qmult, Qinv, inject_Z. cbn. lia.
Qed.

(** Beyond that the product wraps: 2 * 10^15 hits of 2 * 10^15 probes
    print as 7.76 %. *)
Lemma getPercentage_wraps :
  (getPercentage 2000000000000000 2000000000000000 == 776 # 100)%Q.
Proof. reflexivity. Qed.

(** [getPercentage_range] for 1 hit of 3 probes: 33.33 %. *)
Lemma getPercentage_range_witness :
  (getPercentage 1 3 == 3333 # 100)%Q /\
  (0 <= getPercentage 1 3 <= 100)%Q /\
  exists hundredths : Z,
    0 <= hundredths <= 10000 /\ (getPercentage 1 3 == inject_Z hundredths / 100)%Q.
Proof.
  split; [reflexivity |].
  apply (proj2 (getPercentage_range 1 3)); [lia | reflexivity].
Defined.

(** [removeFirst_takes_one] on the moves of position 3 with the hash
    move 13, and with a hash move that is not in the list. *)
Lemma removeFirst_takes_one_witness :
  removeFirst 13 [12; 13] = [12] /\
  (exists l1 l2, [12; 13] = l1 ++ 13 :: l2 /\ ~ In 13 l1 /\
                 removeFirst 13 [12; 13] = l1 ++ l2) /\
  removeFirst 99 [12; 13] = [12; 13] /\
  ~ In 13 (removeFirst 13 [12; 13]).
Proof.
  split; [reflexivity |]. split; [| split].
  - apply (proj1 (removeFirst_takes_one 13 [12; 13])). right. left. reflexivity.
  - apply (proj1 (proj2 (removeFirst_takes_one 99 [12; 13]))).
    intros [H | [H | []]]; discriminate H.
  - apply (proj2 (proj2 (removeFirst_takes_one 13 [12; 13]))).
    repeat constructor; cbn; intuition discriminate.
Defined.

(** ** Standing pat and mate in the quiescence search *)

Section StandPat.
Context {E : Externals}.

(** X18.  Out of check, [quiescence] never returns less than the static
    evaluation of the position, cut to [beta]: the side to move may stand
    pat.  The one exception is the first delta pruning test on the
    material balance alone, which returns [alpha] unseen. *)
Theorem quiescence_stands_pat :
  forall (fuel : nat) (b : Board) (color plies alpha beta : Z) (w w' : World) (r : Z),
    alpha < beta ->
    isInCheck b color = false ->
    alpha - 2 * MAX_POS_SCORE - QUEEN_VALUE <= materialFor b color ->
    quiescence fuel b color plies alpha beta w = Some (r, w') ->
    Z.min beta (standPatFor b color) <= r <= beta.
Proof.
  intros [|fuel] b color plies alpha beta w w' r H Hin Hdelta Hrun; [discriminate Hrun |].
  cbn [quiescence] in Hrun. revert Hrun.
  apply (post_routine _ _ (fun r _ => Z.min beta (standPatFor b color) <= r <= beta)).
  unfold quiescence_body. rewrite Hin.
  unfold standPatFor, materialFor in *.
  set (sp0 := if color =? WHITE then evaluateMaterial b else - evaluateMaterial b) in *.
  destruct (sp0 >=? beta + MAX_POS_SCORE); [apply post_leave; lia |].
  destruct (Z.ltb_spec sp0 (alpha - 2 * MAX_POS_SCORE - QUEEN_VALUE)); [lia |].
  set (sp := sp0 + _).
  set (alpha1 := if alpha <? sp then sp else alpha).
  destruct (sp >=? beta) eqn:Hsp; [apply post_leave; lia |].
  assert (Ha1 : alpha <= alpha1 < beta /\ sp <= alpha1).
  { subst alpha1. destruct (alpha <? sp) eqn:Hc; to_Z; lia. }
  destruct (sp <? alpha1 - MAX_POS_SCORE - QUEEN_VALUE); [apply post_leave; lia |].
  apply post_bind.
  eapply post_weaken;
    [apply capturesLoop_post; lia | intros r0 w0 Hr0; cbv beta in Hr0; lia |].
  intros [alpha2 j2] w2 Ha2. cbn [fst] in Ha2.
  apply post_bind.
  eapply post_weaken;
    [apply promotionsLoop_post; lia | intros r0 w0 Hr0; cbv beta in Hr0; lia |].
  intros [alpha3 j3] w3 Ha3. cbn [fst] in Ha3.
  apply post_bind.
  destruct (plies <=? 0).
  - eapply post_weaken;
      [apply checksLoop_post; lia | intros r0 w0 Hr0; cbv beta in Hr0; lia |].
    intros [alpha4 j4] w4 Ha4. cbn [fst] in Ha4. apply post_ret. lia.
  - apply post_ret. apply post_ret. lia.
Qed.

Lemma escapesLoop_none_legal (rec : QFn) b color plies beta ms score alpha j w :
  (forall m, In m ms -> doPseudoLegalMove b m color = None) ->
  escapesLoop rec b color plies beta ms score alpha j w = Some (Next (score, alpha), w).
Proof.
  induction ms as [|m ms IH]; intros Hnone; cbn [escapesLoop]; [reflexivity |].
  rewrite (Hnone m (or_introl eq_refl)). apply IH. intros m' Hm'. apply Hnone. now right.
Qed.

(** X19.  In check with no check escape that can be played,
    [checkQuiescence] returns at once, whatever the fuel: the score is
    that of a mate, [-MATE_SCORE + ply + plies], cut to the window, where
    [ply] is the depth of the main search and [plies] that of the
    quiescence search; no node is counted and nothing is written. *)
Theorem checkQuiescence_mate :
  forall (fuel : nat) (b : Board) (color plies alpha beta : Z) (w : World),
    (forall m, In m (getPseudoLegalCheckEscapes b color) ->
               doPseudoLegalMove b m color = None) ->
    let score := - MATE_SCORE + ply (searchParams w) + plies in
    checkQuiescence fuel b color plies alpha beta w
    = Some (if score >=? beta then beta else if score >? alpha then score else alpha, w).
Proof.
  intros fuel b color plies alpha beta w Hnone score.
  unfold checkQuiescence, routine, checkQuiescence_body, bind at 1.
  rewrite (escapesLoop_none_legal _ _ _ _ _ _ _ _ _ _ Hnone).
  rewrite Z.eqb_refl. unfold bind, world. fold score.
  destruct (score >=? beta); reflexivity.
Qed.

End StandPat.

Section SplitScoring.
Context {E : Externals}.

(** X20.  For a move list that has its captures first, [scoreMoves]
    gives every capture its capture score and every other move its quiet
    score.  A capture behind a quiet move is scored as a quiet move: the
    first loop stops at the first move that is no capture. *)
Theorem scoreMoves_captures_first :
  forall (captureScore quietScore : Move -> Z) (caps quiets : MoveList),
    Forall (fun m => isCapture m = true) caps ->
    (forall m rest, quiets = m :: rest -> isCapture m = false) ->
    scoreMoves captureScore quietScore (caps ++ quiets)
    = map captureScore caps ++ map quietScore quiets.
Proof.
  intros captureScore quietScore caps quiets Hcaps Hquiet. unfold scoreMoves.
  induction Hcaps as [|m caps Hm _ IH].
  - cbn [app map]. destruct quiets as [|q rest]; [reflexivity |].
    cbn [scoreHead]. now rewrite (Hquiet q rest eq_refl).
  - cbn [app map scoreHead]. rewrite Hm.
    destruct (scoreHead captureScore (caps ++ quiets)) as [sc rest].
    cbn [app]. now rewrite IH.
Qed.

End SplitScoring.

(** [quiescence_stands_pat] at position 20, where the evaluation is 0
    and the capture 101 is answered. *)
Lemma quiescence_stands_pat_witness :
  let w := Toy.start (2 ^ 62) 0 [] in
  exists r w',
    @quiescence Toy.game 6 20%nat 0 0 (-100) 100 w = Some (r, w') /\
    Z.min 100 (@standPatFor Toy.game 20%nat 0) <= r <= 100.
Proof.
  intros w.
  destruct (@quiescence Toy.game 6 20%nat 0 0 (-100) 100 w) as [[r w'] |] eqn:Hrun;
    [| vm_compute in Hrun; discriminate Hrun].
  exists r, w'. split; [reflexivity |].
  apply (@quiescence_stands_pat Toy.game 6 20%nat 0 0 (-100) 100 w w' r);
    [reflexivity | reflexivity | vm_compute; discriminate | exact Hrun].
Defined.

(** [checkQuiescence_mate] at position 2, which has no move at all, three
    plies into the quiescence search. *)
Lemma checkQuiescence_mate_witness :
  let w := Toy.start (2 ^ 62) 0 [] in
  @checkQuiescence Toy.game 0 2%nat 0 3 (-40000) 100 w = Some (-32763, w).
Proof.
  intros w.
  apply (@checkQuiescence_mate Toy.game 0 2%nat 0 3 (-40000) 100 w).
  intros m [].
Defined.

(** [scoreMoves_captures_first] on a capture followed by two quiet
    moves, and on a list where a capture comes second. *)
Lemma scoreMoves_captures_first_witness :
  @scoreMoves Toy.game (fun _ => 7) (fun _ => 3) ([101] ++ [12; 13]) = [7; 3; 3] /\
  @scoreMoves Toy.game (fun _ => 7) (fun _ => 3) ([] ++ [12; 101]) = [3; 3].
Proof.
  split.
  - apply (@scoreMoves_captures_first Toy.game (fun _ => 7) (fun _ => 3) [101] [12; 13]).
    + repeat constructor.
    + intros m rest Heq. inversion Heq. reflexivity.
  - apply (@scoreMoves_captures_first Toy.game (fun _ => 7) (fun _ => 3) [] [12; 101]).
    + constructor.
    + intros m rest Heq. inversion Heq. reflexivity.
Defined.

(** ** A search started with the stop flag set *)

Section StoppedStart.
Context {E : Externals}.

Lemma rootLoop_stopped (rec : PFn) b color depth beta bestScore isMate ms i v w :
  isStop w = true ->
  exists f,
    rootLoop rec b color depth beta bestScore isMate ms i v w = Some (f, w) /\
    match f with
    | Return r => root_index r = rv_tempMove v
    | Next v' => v' = v
    end.
Proof.
  intros Hstop. destruct ms as [|m ms]; cbn [rootLoop].
  - eexists. split; reflexivity.
  - unfold bind, rootMove, bind, world, leave. rewrite Hstop.
    eexists. split; reflexivity.
Qed.

(** X21.  [getBestMove] does not clear the stop flag.  Called with the
    flag set, it searches nothing: the first root iteration returns [-1]
    at once, and [getBestMove] returns the first move of the legal move
    list, having written the statistics, all zero, and the [bestmove]
    line, and no [info] line; the transposition table is untouched. *)
Theorem getBestMove_started_stopped :
  forall (fuel n : nat) (b : Board) (mode value bestScore : Z) (w : World),
    isStop w = true ->
    let m := nth 0 (getAllLegalMoves b (getPlayerToMove b)) NULL_MOVE in
    exists w',
      getBestMove fuel (S n) b mode value bestScore w = Some (m, w') /\
      output w' = output w ++ [Statistics SearchStatistics_reset;
                               BestMoveLine (moveToString m)] /\
      searchStats w' = SearchStatistics_reset /\
      transpositionTable w' = transpositionTable w.
Proof.
  intros fuel n b mode value bestScore w Hstop m.
  unfold getBestMove, routine.
  unfold bind at 1, update. unfold bind at 1. unfold bind at 1. unfold bind at 1.
  unfold bind at 1. unfold bind at 1, call, routine. cbn [deepen].
  unfold bind at 1, call, getBestMoveAtDepth, routine.
  unfold bind at 1, update. unfold bind at 1.
  match goal with
  | |- context [rootLoop ?rec ?b ?c ?d ?bt ?bs ?im ?ms ?i ?v ?w0] =>
      destruct (rootLoop_stopped rec b c d bt bs im ms i v w0 Hstop) as (f & Hloop & Hf);
      rewrite Hloop
  end.
  destruct f as [r | v']; cbn [rv_tempMove] in Hf.
  - rewrite Hf. cbn. eexists. split; [reflexivity |].
    cbn. rewrite <- app_assoc. repeat split.
  - subst v'. cbn. eexists. split; [reflexivity |].
    cbn. rewrite <- app_assoc. repeat split.
Qed.

End StoppedStart.

(** [getBestMove_started_stopped] from the root 30: the move returned is
    31, the first of the list. *)
Lemma getBestMove_started_stopped_witness :
  let w := set_isStop true (Toy.start 0 0 []) in
  exists w',
    @getBestMove Toy.game 8 8 30%nat TIME 1000 0 w = Some (31, w') /\
    output w' = [] ++ [Statistics SearchStatistics_reset; BestMoveLine (Toy.moveName 31)] /\
    searchStats w' = SearchStatistics_reset /\
    transpositionTable w' = [].
Proof.
  intros w.
  exact (@getBestMove_started_stopped Toy.game 8 7 30%nat TIME 1000 0 w eq_refl).
Defined.

(** ** A node whose only legal move is the hash move *)

Section HashMoveOnly.
Context {E : Externals}.

(** X22.  The test at line 543 looks at the moves of the loop only.
    When [probeTT] has searched the hash move without a cutoff (it
    returns [-INFTY] and a hash move, [beta] being above [-INFTY]) and
    every other candidate fails the legality test, [score] is still
    [-INFTY] after the loop and [PVS] returns
    [scoreMate (isInCheck, depth, alpha', beta)], where [alpha'] is
    [alpha] as the hash move left it, with the line of the hash move,
    and stores nothing: the mate or stalemate score cut to the window,
    although a legal move was searched. *)
Theorem hash_move_is_not_counted :
  forall (fuel : nat) (b : Board) (color depth alpha beta : Z) (pvLine : SearchPV) (w : World)
         (hashed : Move) (alpha1 : Z) (pvLine1 : SearchPV) (w1 : World)
         (b2 : Board) (line2 : SearchPV) (w2 : World),
    let isPVNode := beta - alpha >? 1 in
    let inCheck := isInCheck b color in
    let staticEval := if color =? WHITE then evaluate b else - evaluate b in
    0 < depth ->
    isDraw b = false ->
    probeTT (PVS fuel) b color NULL_MOVE depth alpha beta pvLine (with_stats inc_hashProbes w)
    = Some (- INFTY, hashed, alpha1, pvLine1, w1) ->
    hashed <> NULL_MOVE ->
    - INFTY < beta ->
    nullMovePruning (PVS fuel) b color depth alpha1 beta isPVNode inCheck staticEval pvLine1 [] w1
    = Some (Next (b2, line2), w2) ->
    reverseFutilityCondition b2 color depth beta staticEval isPVNode inCheck = false ->
    generated b2 color inCheck <> [] ->
    isStop w2 = false ->
    (forall k, timeExceeded (getTimeElapsed k) (searchParams w2) = false) ->
    (forall m, In m (candidates b2 color inCheck hashed) ->
       futilityCondition b2 color depth alpha1 staticEval isPVNode inCheck m = false /\
       doPseudoLegalMove b2 m color = None) ->
    exists w',
      PVS (S fuel) b color depth alpha beta pvLine w
      = Some (scoreMate inCheck depth alpha1 beta w2, b2, pvLine1, w') /\
      transpositionTable w' = transpositionTable w2.
Proof.
  intros fuel b color depth alpha beta pvLine w hashed alpha1 pvLine1 w1 b2 line2 w2
         isPVNode inCheck staticEval Hdepth Hdraw Hprobe Hhashed _ Hnull Hrev Hgen Hstop Htime
         Hall.
  destruct (searchMoves_all_illegal (PVS fuel) b2 color depth beta alpha staticEval
              isPVNode inCheck alpha1 hashed pvLine1 line2 w2 Hgen) as (w' & Hrun & Hsame);
    auto.
  { destruct (Z.eqb_spec hashed NULL_MOVE); [contradiction | apply andb_false_r]. }
  exists w'. split.
  - exact (PVS_reaches_moves fuel b color depth alpha beta pvLine w hashed alpha1 pvLine1
             w1 b2 line2 w2 Hdepth Hdraw Hprobe Hnull Hrev _ _ Hrun).
  - apply Hsame.
Qed.

End HashMoveOnly.

(** [hash_move_is_not_counted] at position 21, where Black is in check
    and the one escape, 14, is the move the table holds: it is searched
    by [probeTT] and raises [alpha] from -100 to 0, the move loop has no
    candidate left, and [PVS] returns [scoreMate (true, 1, 0, 100)],
    which is 0, without a store. *)
Lemma hash_move_is_not_counted_witness :
  let w := Toy.start (2 ^ 62) 0 [(21%nat, mkEntry 0 1 14 PV_NODE)] in
  exists w2 w',
    @PVS Toy.game 8 21%nat 1 1 (-100) 100 [] w
    = Some (@scoreMate Toy.game true 1 0 100 w2, 21%nat, [14], w') /\
    transpositionTable w' = transpositionTable w2 /\
    @scoreMate Toy.game true 1 0 100 w2 = 0 /\
    @scoreMate Toy.game true 1 (-100) 100 w = -100.
Proof.
  intros w.
  destruct (@probeTT Toy.game (PVS 7) 21%nat 1 0 1 (-100) 100 []
              (with_stats inc_hashProbes w)) as [[[[[s h] a1] pv1] w1] |] eqn:Hprobe;
    [| vm_compute in Hprobe; discriminate Hprobe].
  assert (Hvals : (s, h, a1, pv1) = (-32767, 14, 0, [14]) /\ isStop w1 = false /\
                  timeLimit (searchParams w1) = 2 ^ 62 /\ ply (searchParams w1) = 0).
  { vm_compute in Hprobe. inversion Hprobe. repeat split. }
  destruct Hvals as (Hv & Hstop & Hlimit & Hply). inversion Hv; subst s h a1 pv1.
  destruct (@hash_move_is_not_counted Toy.game 7 21%nat 1 1 (-100) 100 [] w
              14 0 [14] w1 21%nat [] w1 eq_refl eq_refl Hprobe)
    as (w' & Hrun & Htab).
  - discriminate.
  - reflexivity.
  - reflexivity.
  - reflexivity.
  - discriminate.
  - exact Hstop.
  - exact (toy_clock_within_limit w1 Hlimit).
  - intros m [].
  - exists w1, w'. split; [exact Hrun |]. split; [exact Htab |]. split; [| reflexivity].
    unfold scoreMate. rewrite Hply. reflexivity.
Defined.
